(** * Synapse: the mind-map graph component

    A shallow embedding of [src/components/MindMapGraph.tsx]: the React
    component that draws a [MindMapNode] tree with d3, lets the user pan and
    zoom it, and highlights the nodes matching a search query.

    The component is a thin client of three d3 modules.  Their part of the
    behaviour is embedded here as the component drives it:
    - d3-hierarchy: [hierarchy], [descendants], [links];
    - d3-scale: [scaleOrdinal] over [schemeSet3];
    - d3-zoom: the transform algebra, [scaleExtent], [scaleBy], wheel and
      drag gestures, [zoom.transform].

    Conventions of the embedding:
    - a JavaScript object compared with [===] is identified by its position
      in the tree (the path of child indices from the root);
    - DOM attributes and styles are string-valued maps, as in the DOM;
    - JavaScript numbers are idealised as exact rationals ([Qc]);
    - a d3 transition is represented by the transform it ends in;
    - the coordinates d3.tree assigns to the nodes, and the attributes that
      only carry them, are outside the embedding.

    The second part of the development covers what surrounds the graph:
    the study guide ([slugify], [renderInline], [ContentRenderer] and the
    topic cards of [StudyContent]) and, of [src/App.tsx], the click on a
    mind-map node and the screens of the app.  Regular expressions are
    embedded as the functions on strings they compute, on the same ASCII
    fragment as the string methods. *)

From Stdlib Require Import Ascii QArith Qcanon.
From stdpp Require Import base list strings gmap pretty numbers sorting.

Set Warnings "-register-all".
Set Default Proof Using "Type".

(** ** JavaScript strings, ASCII fragment *)

Module JsString.

(** [String.prototype.toLowerCase] on one code unit: A-Z go to a-z. *)
Definition lower_char (c : ascii) : ascii :=
  let n := nat_of_ascii c in
  if (65 <=? n)%nat && (n <=? 90)%nat then ascii_of_nat (n + 32) else c.

Fixpoint toLowerCase (s : string) : string :=
  match s with
  | EmptyString => EmptyString
  | String c s' => String (lower_char c) (toLowerCase s')
  end.

(** [s.startsWith(sub)] *)
Fixpoint startsWith (s sub : string) : bool :=
  match sub, s with
  | EmptyString, _ => true
  | String _ _, EmptyString => false
  | String b sub', String a s' => Ascii.eqb a b && startsWith s' sub'
  end.

(** [s.includes(sub)] *)
Fixpoint includes (s sub : string) : bool :=
  startsWith s sub ||
  match s with
  | EmptyString => false
  | String _ s' => includes s' sub
  end.

(** Truthiness of a string: [!s] holds exactly for the empty string. *)
Definition falsy (s : string) : bool :=
  match s with EmptyString => true | String _ _ => false end.

(** Words of a class attribute, separated by spaces. *)
Fixpoint words_aux (cur : string) (s : string) : list string :=
  match s with
  | EmptyString => match cur with EmptyString => [] | _ => [cur] end
  | String c s' =>
      if Ascii.eqb c " "%char
      then match cur with
           | EmptyString => words_aux EmptyString s'
           | _ => cur :: words_aux EmptyString s'
           end
      else words_aux (cur +:+ String c EmptyString) s'
  end.

Definition words (s : string) : list string := words_aux EmptyString s.

End JsString.

(** ** The input tree and its d3 hierarchy *)

Module Hierarchy.

(** [MindMapNode] of [src/types.ts]. *)
Inductive MindMapNode := mkMindMapNode {
  name : string;
  details : option string;
  children : option (list MindMapNode)
}.

(** The children d3 reads through its default accessor: [d.children],
    absent when the field is missing. *)
Definition raw_children (d : MindMapNode) : list MindMapNode :=
  match children d with Some cs => cs | None => [] end.

(** Number of raw nodes of an input tree. *)
Fixpoint raw_size (d : MindMapNode) : nat :=
  match d with
  | mkMindMapNode _ _ None => 1
  | mkMindMapNode _ _ (Some cs) =>
      S ((fix sum (l : list MindMapNode) : nat :=
            match l with [] => 0 | c :: l' => raw_size c + sum l' end) cs)
  end.

(** [computeHeight]: the longest distance from the node to a leaf. *)
Fixpoint raw_height (d : MindMapNode) : nat :=
  match d with
  | mkMindMapNode _ _ None => 0
  | mkMindMapNode _ _ (Some cs) =>
      (fix hmax (l : list MindMapNode) : nat :=
         match l with [] => 0 | c :: l' => Nat.max (S (raw_height c)) (hmax l') end) cs
  end.

(** A d3 hierarchy node seen upwards: its datum, depth, height and the
    [parent] reference.  [index] is the position among the parent's
    children; together with the parent chain it stands for the identity of
    the JavaScript object. *)
Inductive Node := mkNode {
  data : MindMapNode;
  depth : nat;
  height : nat;
  parent : option Node;
  index : nat
}.

(** The same node seen downwards: [kids] is the [children] array, empty
    when d3 leaves [children] undefined. *)
Inductive HierarchyNode := HNode {
  self : Node;
  kids : list HierarchyNode
}.

Definition NodeId := list nat.

(** Object identity: child indices from the node up to the root. *)
Fixpoint node_id (n : Node) : NodeId :=
  match n with
  | mkNode _ _ _ None i => [i]
  | mkNode _ _ _ (Some p) i => i :: node_id p
  end.

(** [a === b] on hierarchy nodes. *)
Definition same_node (a b : Node) : bool := bool_decide (node_id a = node_id b).

(** [d3.hierarchy(data)]: one node per raw node, children in input order,
    [depth] assigned top-down.  A raw node whose [children] is missing or
    empty becomes a leaf. *)
Fixpoint build (par : option Node) (dep idx : nat) (d : MindMapNode) : HierarchyNode :=
  let me := mkNode d dep (raw_height d) par idx in
  HNode me
    match d with
    | mkMindMapNode _ _ None => []
    | mkMindMapNode _ _ (Some cs) =>
        (fix go (i : nat) (l : list MindMapNode) : list HierarchyNode :=
           match l with
           | [] => []
           | c :: l' => build (Some me) (S dep) i c :: go (S i) l'
           end) 0 cs
    end.

Definition hierarchy (d : MindMapNode) : HierarchyNode := build None 0 0 d.

(** Number of nodes below and including a hierarchy node. *)
Fixpoint size (h : HierarchyNode) : nat :=
  match h with
  | HNode _ ks =>
      S ((fix sum (l : list HierarchyNode) : nat :=
            match l with [] => 0 | k :: l' => size k + sum l' end) ks)
  end.

(** The node iterator of d3-hierarchy: breadth first, one level after the
    other; [current] is the level being yielded and the children of its
    nodes, in order, form the next one.  The loop ends when the next level
    is empty; [fuel] bounds the number of levels. *)
Fixpoint levels (fuel : nat) (current : list HierarchyNode) : list HierarchyNode :=
  match fuel, current with
  | S f, _ :: _ => current ++ levels f (flat_map kids current)
  | _, _ => []
  end.

(** [root.descendants()] *)
Definition descendants (root : HierarchyNode) : list HierarchyNode :=
  levels (size root) [root].

(** A link of [root.links()]. *)
Record Link := mkLink { source : Node; target : Node }.

(** [root.links()]: one link per node that has a parent, in iteration
    order. *)
Definition links (root : HierarchyNode) : list Link :=
  flat_map (fun n => match parent (self n) with
                     | Some p => [mkLink p (self n)]
                     | None => []
                     end) (descendants root).

(** The ancestors of a node, nearest first: the nodes the loop
    [while (current.parent) current = current.parent] visits. *)
Fixpoint ancestors (n : Node) : list Node :=
  match n with
  | mkNode _ _ _ None _ => []
  | mkNode _ _ _ (Some p) _ => p :: ancestors p
  end.

(** The child ends of the edges between a node and the root: the values
    [current] takes in that loop while it still has a parent. *)
Fixpoint path_edges (n : Node) : list Node :=
  match n with
  | mkNode _ _ _ None _ => []
  | mkNode _ _ _ (Some p) _ => n :: path_edges p
  end.

(** The [children] array [build] gives a node, as a function of its own. *)
Definition build_list (par : option Node) (dep : nat)
  : nat → list MindMapNode → list HierarchyNode :=
  fix go (i : nat) (l : list MindMapNode) : list HierarchyNode :=
    match l with
    | [] => []
    | c :: l' => build par dep i c :: go (S i) l'
    end.

(** All nodes of a hierarchy, depth first. *)
Fixpoint subtrees (h : HierarchyNode) : list HierarchyNode :=
  match h with
  | HNode _ ks =>
      h :: (fix go (l : list HierarchyNode) : list HierarchyNode :=
              match l with [] => [] | k :: l' => subtrees k ++ go l' end) ks
  end.

(** The raw node reached from [d] along a path of child indices. *)
Fixpoint raw_at (d : MindMapNode) (p : list nat) : option MindMapNode :=
  match p with
  | [] => Some d
  | i :: p' =>
      match raw_children d !! i with
      | Some c => raw_at c p'
      | None => None
      end
  end.

End Hierarchy.

(** ** d3-scale: ordinal scales *)

Module Scale.

(** [d3.schemeSet3] *)
Definition schemeSet3 : list string :=
  [ "#8dd3c7"; "#ffffb3"; "#bebada"; "#fb8072"; "#80b1d3"; "#fdb462";
    "#b3de69"; "#fccde5"; "#d9d9d9"; "#bc80bd"; "#ccebc5"; "#ffed6f" ].

(** An ordinal scale with an implicit domain: the domain grows by every
    value the scale is asked about for the first time. *)
Record Ordinal := mkOrdinal { domain : list string; range : list string }.

(** [d3.scaleOrdinal(range)] *)
Definition scaleOrdinal (r : list string) : Ordinal := mkOrdinal [] r.

Fixpoint index_of (d : string) (l : list string) : option nat :=
  match l with
  | [] => None
  | a :: l' => if String.eqb a d then Some 0 else S <$> index_of d l'
  end.

(** [scale(d)]: the colour and the scale with its domain extended. *)
Definition call (s : Ordinal) (d : string) : string * Ordinal :=
  match index_of d (domain s) with
  | Some i => (nth (i mod length (range s)) (range s) "", s)
  | None =>
      (nth (length (domain s) mod length (range s)) (range s) "",
       mkOrdinal (domain s ++ [d]) (range s))
  end.

End Scale.

(** ** The SVG elements the component creates *)

Module Dom.
Import Hierarchy.

(** An element: attributes, inline styles and text content. *)
Record Element := mkElement {
  attrs : gmap string string;
  styles : gmap string string;
  textContent : string
}.

Definition element : Element := mkElement ∅ ∅ "".

(** [selection.attr(name, value)] on one element *)
Definition attr (name value : string) (e : Element) : Element :=
  mkElement (<[name := value]> (attrs e)) (styles e) (textContent e).

(** [selection.style(name, value)] on one element *)
Definition style (name value : string) (e : Element) : Element :=
  mkElement (attrs e) (<[name := value]> (styles e)) (textContent e).

(** [selection.text(value)] on one element *)
Definition text (value : string) (e : Element) : Element :=
  mkElement (attrs e) (styles e) value.

(** [selection.classed(name)] on one element *)
Definition classed (cls : string) (e : Element) : bool :=
  match attrs e !! "class" with
  | Some c => bool_decide (cls ∈ JsString.words c)
  | None => false
  end.

(** A [g.node] group with its bound datum, its circle and its label. *)
Record NodeElem := mkNodeElem {
  datum : HierarchyNode;
  group : Element;
  circle : Element;
  label : Element
}.

(** A [path.link] with its bound datum. *)
Record LinkElem := mkLinkElem {
  ldatum : Link;
  path : Element
}.

(** The content of the zoomable [g]: links first, then nodes, each in the
    order of the data they were joined with.  The geometric attributes
    (the [transform] of a node, the [d] of a link), which only carry the
    layout coordinates, are left out. *)
Record Graph := mkGraph {
  linkElems : list LinkElem;
  nodeElems : list NodeElem
}.

(** Apply [f] to every node element / link element of a selection given
    by its filter. *)
Definition on_nodes (sel : NodeElem → bool) (f : NodeElem → NodeElem) (g : Graph) : Graph :=
  mkGraph (linkElems g) (map (fun e => if sel e then f e else e) (nodeElems g)).

Definition on_links (sel : LinkElem → bool) (f : LinkElem → LinkElem) (g : Graph) : Graph :=
  mkGraph (map (fun l => if sel l then f l else l) (linkElems g)) (nodeElems g).

(** Apply [f] to the one node element [this], given by its position. *)
Definition on_this (i : nat) (f : NodeElem → NodeElem) (g : Graph) : Graph :=
  mkGraph (linkElems g) (alter f i (nodeElems g)).

Definition on_group (f : Element → Element) (e : NodeElem) : NodeElem :=
  mkNodeElem (datum e) (f (group e)) (circle e) (label e).
Definition on_circle (f : Element → Element) (e : NodeElem) : NodeElem :=
  mkNodeElem (datum e) (group e) (f (circle e)) (label e).
Definition on_label (f : Element → Element) (e : NodeElem) : NodeElem :=
  mkNodeElem (datum e) (group e) (circle e) (f (label e)).
Definition on_path (f : Element → Element) (l : LinkElem) : LinkElem :=
  mkLinkElem (ldatum l) (f (path l)).

Definition all {A} (_ : A) : bool := true.

End Dom.

(** ** d3-zoom: transforms and the zoom behaviour *)

Module Zoom.
Local Open Scope Qc_scope.

Definition Point : Type := Qc * Qc.

(** [Transform(k, x, y)]: the map [p ↦ p * k + (x, y)]. *)
Record Transform := mkTransform { k : Qc; x : Qc; y : Qc }.

(** [d3.zoomIdentity] *)
Definition zoomIdentity : Transform := mkTransform 1 0 0.

(** [transform.scale(s)] *)
Definition t_scale (t : Transform) (s : Qc) : Transform :=
  mkTransform (k t * s) (x t) (y t).

(** [transform.translate(tx, ty)] *)
Definition t_translate (t : Transform) (tx ty : Qc) : Transform :=
  mkTransform (k t) (x t + k t * tx) (y t + k t * ty).


(** [transform.invert(p)] *)
Definition t_invert (t : Transform) (p : Point) : Point :=
  ((p.1 - x t) / k t, (p.2 - y t) / k t).

(** [Math.max], [Math.min] *)
Definition max (a b : Qc) : Qc := if decide (a ≤ b) then b else a.
Definition min (a b : Qc) : Qc := if decide (a ≤ b) then a else b.

(** The behaviour's [scale(transform, k)]: the new scale is clamped to the
    scale extent [(k0, k1)]. *)
Definition scale (extent : Qc * Qc) (t : Transform) (k' : Qc) : Transform :=
  mkTransform (max extent.1 (min extent.2 k')) (x t) (y t).

(** The behaviour's [translate(transform, p0, p1)]: move the transform so
    that the point [p1] of the graph is shown at the screen point [p0]. *)
Definition translate (t : Transform) (p0 p1 : Point) : Transform :=
  mkTransform (k t) (p0.1 - p1.1 * k t) (p0.2 - p1.2 * k t).

(** [zoom.scaleTo(selection, k, p)].  The translate extent is left at its
    unbounded default, for which [constrain] returns its argument. *)
Definition scaleTo (extent : Qc * Qc) (t : Transform) (k' : Qc) (p : Point) : Transform :=
  translate (scale extent t k') p (t_invert t p).

(** [zoom.scaleBy(selection, k, p)] *)
Definition scaleBy (extent : Qc * Qc) (t : Transform) (f : Qc) (p : Point) : Transform :=
  scaleTo extent t (k t * f) p.

(** A wheel event at pointer [p]; [f] is the factor [2 ^ wheelDelta]. *)
Definition wheeled (extent : Qc * Qc) (t : Transform) (f : Qc) (p : Point) : Transform :=
  translate (scale extent t (k t * f)) p (t_invert t p).

(** A drag gesture: the button goes down at [p0] and the pointer moves to
    [p]; the graph point under [p0] follows the pointer. *)
Definition dragged (t : Transform) (p0 p : Point) : Transform :=
  translate t p (t_invert t p0).

(** The centre of the viewport extent [[0, 0], [width, height]]: the pivot
    [scaleBy] uses when it is given none. *)
Definition centroid (width height : Z) : Point :=
  (Qc_of_Z width / 2, Qc_of_Z height / 2).

End Zoom.

(** ** The component *)

Module MindMapGraph.
Import JsString Hierarchy Scale Dom Zoom.

(** *** The render effect (deps [data, dimensions, onNodeClick]) *)

(** [margin = { top: 20, right: 120, bottom: 20, left: 120 }] *)
Definition margin_top : Z := 20.
Definition margin_left : Z := 120.

(** [.scaleExtent([0.1, 4])] *)
Definition scaleExtent : Qc * Qc := (Q2Qc 0.1, Q2Qc 4).

(** [d3.zoomIdentity.translate(margin.left + 50, margin.top).scale(0.8)] *)
Definition centering : Transform :=
  t_scale (t_translate zoomIdentity (Qc_of_Z (margin_left + 50)) (Qc_of_Z margin_top))
          (Q2Qc 0.8).

(** [d.children] is truthy *)
Definition has_children (d : HierarchyNode) : bool :=
  match kids d with [] => false | _ :: _ => true end.

(** [d.depth === 0 ? 10 : 6] *)
Definition radius (d : HierarchyNode) : string :=
  match depth (self d) with 0%nat => "10" | S _ => "6" end.

Definition link_elem (l : Link) : LinkElem :=
  mkLinkElem l
    (attr "stroke-width" "1.5"
      (attr "stroke" "#cbd5e1"
        (attr "fill" "none"
          (attr "class" "link" element)))).

Definition node_group (d : HierarchyNode) : Element :=
  style "cursor" "pointer"
    (attr "class"
       ("node " +:+ (if has_children d then "node--internal" else "node--leaf"))
       element).

Definition node_circle (d : HierarchyNode) (fill : string) : Element :=
  attr "stroke-width" "2"
    (attr "stroke" "#94a3b8"
      (attr "fill" fill
        (attr "r" (radius d) element))).

Definition node_label (d : HierarchyNode) : Element :=
  style "text-shadow" "0 2px 4px rgba(255,255,255,0.9)"
    (style "fill" "#1e293b"
      (style "font-family" "Inter, sans-serif"
        (style "font-size" "12px"
          (text (name (Hierarchy.data (self d)))
            (style "text-anchor" (if has_children d then "end" else "start")
              (attr "x" (if has_children d then "-12" else "12")
                (attr "dy" "4" element))))))).

(** The node groups, in data order.  The one colour scale of the effect
    is asked for [d.depth.toString()] node after node. *)
Fixpoint node_elems (color : Ordinal) (ds : list HierarchyNode) : list NodeElem :=
  match ds with
  | [] => []
  | d :: ds' =>
      let (c, color') := call color (pretty (depth (self d))) in
      mkNodeElem d (node_group d) (node_circle d c) (node_label d)
        :: node_elems color' ds'
  end.

(** What the effect draws for [data]: every link of [root.links()] and
    every node of [root.descendants()]. *)
Definition render (d : MindMapNode) : Graph :=
  let root := hierarchy d in
  mkGraph (map link_elem (links root))
          (node_elems (scaleOrdinal schemeSet3) (descendants root)).

(** *** Hover handlers of a node group *)

Definition mouseover (e : NodeElem) : NodeElem :=
  on_label (style "font-weight" "bold")
    (on_circle (fun c => attr "stroke-width" "3" (attr "stroke" "#4f46e5" c)) e).

Definition mouseout (e : NodeElem) : NodeElem :=
  on_label (style "font-weight" "normal")
    (on_circle
       (fun c => attr "stroke-width" "2"
                   (attr "stroke"
                      (if classed "highlighted" (group e) then "#ef4444" else "#94a3b8")
                      c)) e).

(** *** The search effect (deps [searchQuery]) *)

(** "Reset all" *)
Definition reset_all (g : Graph) : Graph :=
  on_links all
    (on_path (fun p => attr "stroke-opacity" "1" (attr "stroke" "#cbd5e1" p)))
    (on_nodes all
       (on_label (fun t => style "font-weight" "normal" (style "fill" "#1e293b" t)))
       (on_nodes all
          (fun e =>
             on_circle
               (fun c =>
                  attr "r" (radius (datum e))
                    (attr "stroke" "#94a3b8"
                      (attr "fill"
                         (call (scaleOrdinal schemeSet3)
                               (pretty (depth (self (datum e))))).1
                         c))) e)
          g)).

(** "Dim non-matches" *)
Definition dim_all (g : Graph) : Graph :=
  on_links all (on_path (style "opacity" "0.3"))
    (on_nodes all (on_group (style "opacity" "0.3")) g).

(** [d.data.name.toLowerCase().includes(lowerQuery)] *)
Definition matches (lowerQuery : string) (e : NodeElem) : bool :=
  includes (toLowerCase (name (Hierarchy.data (self (datum e))))) lowerQuery.

(** "Highlight node" *)
Definition paint_match (e : NodeElem) : NodeElem :=
  on_label (fun t => style "font-weight" "bold" (style "fill" "#b91c1c" t))
    (on_circle
       (fun c => attr "r" "10" (attr "stroke" "#b91c1c" (attr "fill" "#ef4444" c))) e).

(** "Walk up parents to highlight path" *)
Fixpoint walk_up (current : Node) (g : Graph) : Graph :=
  match current with
  | mkNode _ _ _ None _ => g
  | mkNode _ _ _ (Some p) _ =>
      let g1 :=
        on_links (fun l => same_node (target (ldatum l)) current)
          (on_path (fun e => style "opacity" "1"
                               (attr "stroke-width" "2" (attr "stroke" "#ef4444" e))))
          g in
      let g2 :=
        on_nodes (fun n => same_node (self (datum n)) p)
          (on_group (style "opacity" "1")) g1 in
      walk_up p g2
  end.

(** Positions of the elements of a selection filter. *)
Fixpoint positions {A} (sel : A → bool) (i : nat) (l : list A) : list nat :=
  match l with
  | [] => []
  | a :: l' => if sel a then i :: positions sel (S i) l' else positions sel (S i) l'
  end.

(** The body of [.each(function (d) { ... })] for the element at [i]. *)
Definition highlight_one (g : Graph) (i : nat) : Graph :=
  match nodeElems g !! i with
  | Some e => walk_up (self (datum e)) (on_this i paint_match g)
  | None => g
  end.

(** The effect on the drawn graph. *)
Definition highlight (searchQuery : string) (g : Graph) : Graph :=
  let lowerQuery := toLowerCase searchQuery in
  let g := reset_all g in
  if falsy searchQuery then g
  else
    let g := dim_all g in
    let g := on_nodes (matches lowerQuery) (on_group (style "opacity" "1")) g in
    foldl highlight_one g (positions (matches lowerQuery) 0 (nodeElems g)).

(** *** Component state and events *)

(** The props and hooks of the component that its effects read:
    [data], [dimensions], [searchQuery], [gRef.current] (the drawn graph)
    and the zoom transform d3 keeps on the [svg] element. *)
Record State := mkState {
  data : option MindMapNode;
  dimensions : Z * Z;
  searchQuery : string;
  gRef : option Graph;
  zoomTransform : Transform
}.

(** The render effect.  It returns at once without data; otherwise it
    clears the svg, draws the graph anew, installs a new zoom behaviour
    and starts the transition to [centering]. *)
Definition renderEffect (st : State) : State :=
  match data st with
  | None => st
  | Some d =>
      mkState (data st) (dimensions st) (searchQuery st) (Some (render d)) centering
  end.

(** The search effect.  It returns at once when nothing is drawn. *)
Definition searchEffect (st : State) : State :=
  match gRef st with
  | None => st
  | Some g =>
      mkState (data st) (dimensions st) (searchQuery st)
              (Some (highlight (searchQuery st) g)) (zoomTransform st)
  end.

(** [handleResize]: the wrapper's client size, the height at least 600. *)
Definition handleResize (clientWidth clientHeight : Z) (st : State) : State :=
  mkState (data st) (clientWidth, Z.max 600 clientHeight) (searchQuery st)
          (gRef st) (zoomTransform st).

(** [handleZoom(factor)].  It returns at once while no zoom behaviour is
    installed; [zoomRef.current] is set by the render effect together with
    [gRef.current]. *)
Definition handleZoom (factor : Qc) (st : State) : State :=
  match gRef st with
  | None => st
  | Some _ =>
      mkState (data st) (dimensions st) (searchQuery st) (gRef st)
              (scaleBy scaleExtent (zoomTransform st) factor
                       (centroid (dimensions st).1 (dimensions st).2))
  end.

Definition with_graph (f : Graph → Graph) (st : State) : State :=
  mkState (data st) (dimensions st) (searchQuery st) (f <$> gRef st) (zoomTransform st).

(** A gesture on the svg reaches the zoom behaviour once the render effect
    has installed it with [svg.call(zoom)]. *)
Definition with_zoom (f : Transform → Transform) (st : State) : State :=
  match gRef st with
  | None => st
  | Some _ =>
      mkState (data st) (dimensions st) (searchQuery st) (gRef st) (f (zoomTransform st))
  end.

Inductive Event :=
| DataChanged (d : MindMapNode)          (* a new [data] prop *)
| CallbackChanged                        (* a new [onNodeClick] prop *)
| Resized (clientWidth clientHeight : Z) (* window resize *)
| QueryTyped (q : string)                (* [onChange] of the search box *)
| MouseOver (i : nat)                    (* pointer enters the i-th node *)
| MouseOut (i : nat)                     (* pointer leaves the i-th node *)
| ZoomInClicked                          (* [handleZoom(1.2)] *)
| ZoomOutClicked                         (* [handleZoom(0.8)] *)
| Wheeled (f : Qc) (p : Point)           (* wheel at [p], factor [f] *)
| Dragged (p0 p : Point).                (* drag from [p0] to [p] *)

(** One event and the effects React runs for it: an effect runs when one
    of its deps changed.  [setDimensions] always stores a new object;
    [setSearchQuery] with the current string changes nothing. *)
Definition step (st : State) (ev : Event) : State :=
  match ev with
  | DataChanged d =>
      renderEffect
        (mkState (Some d) (dimensions st) (searchQuery st) (gRef st) (zoomTransform st))
  | CallbackChanged => renderEffect st
  | Resized w h => renderEffect (handleResize w h st)
  | QueryTyped q =>
      if String.eqb q (searchQuery st) then st
      else searchEffect
             (mkState (data st) (dimensions st) q (gRef st) (zoomTransform st))
  | MouseOver i => with_graph (on_this i mouseover) st
  | MouseOut i => with_graph (on_this i mouseout) st
  | ZoomInClicked => handleZoom (Q2Qc 1.2) st
  | ZoomOutClicked => handleZoom (Q2Qc 0.8) st
  | Wheeled f p => with_zoom (fun t => wheeled scaleExtent t f p) st
  | Dragged p0 p => with_zoom (fun t => dragged t p0 p) st
  end.

(** The state before any effect has run. *)
Definition initial (d : option MindMapNode) : State :=
  mkState d (800, 600)%Z "" None zoomIdentity.

(** Mounting: the three effects run in order on the first render (the
    resize effect only queues its [setDimensions]), then the render effect
    runs again for the new [dimensions]. *)
Definition mount (d : option MindMapNode) (clientWidth clientHeight : Z) : State :=
  renderEffect
    (handleResize clientWidth clientHeight
       (searchEffect (renderEffect (initial d)))).

Definition run (st : State) (evs : list Event) : State := foldl step st evs.

(** *** What the drawn graph shows *)

Definition drawn_as_match (e : NodeElem) : bool :=
  bool_decide (attrs (circle e) !! "fill" = Some "#ef4444").

Definition undimmed (e : NodeElem) : bool :=
  bool_decide (styles (group e) !! "opacity" = Some "1").

Definition dimmed (e : NodeElem) : bool :=
  bool_decide (styles (group e) !! "opacity" = Some "0.3").

Definition edge_highlighted (l : LinkElem) : bool :=
  bool_decide (attrs (path l) !! "stroke" = Some "#ef4444")
  && bool_decide (styles (path l) !! "opacity" = Some "1").

Definition elem_id (e : NodeElem) : NodeId := node_id (self (datum e)).
Definition edge_id (l : LinkElem) : NodeId := node_id (target (ldatum l)).

(** The highlight state as the drawn graph carries it. *)
Record HighlightState := mkHighlightState {
  matchedNodeIds : list NodeId;
  highlightedPathNodeIds : list NodeId;
  highlightedEdgeIds : list NodeId;
  dimmedNodeIds : list NodeId
}.

Definition highlightState (g : Graph) : HighlightState :=
  mkHighlightState
    (elem_id <$> filter drawn_as_match (nodeElems g))
    (elem_id <$> filter undimmed (nodeElems g))
    (edge_id <$> filter edge_highlighted (linkElems g))
    (elem_id <$> filter dimmed (nodeElems g)).

Definition emptyHighlight : HighlightState := mkHighlightState [] [] [] [].

(** The highlight state computed wholesale from a tree and a query. *)
Definition recomputed (d : MindMapNode) (q : string) : HighlightState :=
  highlightState (highlight q (render d)).

Definition shown (st : State) : HighlightState :=
  match gRef st with
  | Some g => highlightState g
  | None => emptyHighlight
  end.

(** The names of the nodes with the given ids, in drawing order. *)
Definition names_of (g : Graph) (ids : list NodeId) : list string :=
  (fun e => name (Hierarchy.data (self (datum e))))
    <$> filter (fun e => bool_decide (elem_id e ∈ ids)) (nodeElems g).

(** The stroke of the circle and the font weight of the label of the
    [i]-th node, as drawn. *)
Definition stroke_and_weight (st : State) (i : nat) : option (option string * option string) :=
  g ← gRef st;
  e ← nodeElems g !! i;
  Some (attrs (circle e) !! "stroke", styles (label e) !! "font-weight").

(** The viewport scale lies within the scale extent. *)
Definition in_extent (t : Transform) : Prop :=
  (scaleExtent.1 ≤ k t ≤ scaleExtent.2)%Qc.

(** *** The search effect, element by element *)

(** What "Reset all" does to one node and to one link.  The fill comes from
    a scale made on the spot, which knows no value yet: the first colour. *)
Definition reset_node (e : NodeElem) : NodeElem :=
  on_label (fun t => style "font-weight" "normal" (style "fill" "#1e293b" t))
    (on_circle (fun c => attr "r" (radius (datum e))
                           (attr "stroke" "#94a3b8" (attr "fill" "#8dd3c7" c))) e).

Definition reset_link (l : LinkElem) : LinkElem :=
  on_path (fun p => attr "stroke-opacity" "1" (attr "stroke" "#cbd5e1" p)) l.

Definition undim (e : NodeElem) : NodeElem := on_group (style "opacity" "1") e.

Definition light (l : LinkElem) : LinkElem :=
  on_path (fun e => style "opacity" "1"
                      (attr "stroke-width" "2" (attr "stroke" "#ef4444" e))) l.

(** A node and a link after the walk from [c] up to the root. *)
Definition walked_node (c : Node) (e : NodeElem) : NodeElem :=
  if existsb (same_node (self (datum e))) (ancestors c) then undim e else e.

Definition walked_link (c : Node) (l : LinkElem) : LinkElem :=
  if existsb (same_node (target (ldatum l))) (path_edges c) then light l else l.

(** A node after reset, dimming and the [opacity] of the matches, and the
    graph the [each] loop starts from. *)
Definition prepared_node (lowerQuery : string) (e : NodeElem) : NodeElem :=
  let e1 := on_group (style "opacity" "0.3") (reset_node e) in
  if matches lowerQuery e1 then undim e1 else e1.

Definition prepared (lowerQuery : string) (g : Graph) : Graph :=
  on_nodes (matches lowerQuery) (on_group (style "opacity" "1")) (dim_all (reset_all g)).

(** The condition under which the effect paints a node as a match: the
    query is not empty and the lower-cased name includes the lower-cased
    query. *)
Definition name_matches (q : string) (n : HierarchyNode) : bool :=
  negb (falsy q)
  && includes (toLowerCase (name (Hierarchy.data (self n)))) (toLowerCase q).

(** *** Observations used in the proofs *)

(** What [highlightState] reads of a node element and of a link. *)
Definition node_view (e : NodeElem) : HierarchyNode * option string * option string :=
  (datum e, attrs (circle e) !! "fill", styles (group e) !! "opacity").

Definition link_view (l : LinkElem) : Link * option string * option string :=
  (ldatum l, attrs (path l) !! "stroke", styles (path l) !! "opacity").

Definition same_view (g g' : Graph) : Prop :=
  node_view <$> nodeElems g = node_view <$> nodeElems g' ∧
  link_view <$> linkElems g = link_view <$> linkElems g'.

(** The graph drawn, if any, is the graph of the current data. *)
Definition drawn_for (st : State) : Prop :=
  match data st with
  | Some d =>
      ∃ g, gRef st = Some g ∧
           datum <$> nodeElems g = descendants (hierarchy d) ∧
           ldatum <$> linkElems g = links (hierarchy d)
  | None => gRef st = None
  end.

End MindMapGraph.

(** ** Sample inputs *)

Module Samples.
Import Hierarchy.

Definition leaf (n : string) : MindMapNode := mkMindMapNode n None None.
Definition node (n : string) (cs : list MindMapNode) : MindMapNode :=
  mkMindMapNode n None (Some cs).

(** The tree of the search example. *)
Definition physics : MindMapNode :=
  node "Physics" [node "Mechanics" [leaf "Kinematics"]; leaf "Optics"].

(** The same course after regeneration, with one more topic. *)
Definition physics' : MindMapNode :=
  node "Physics"
    [node "Mechanics" [leaf "Kinematics"; leaf "Kinetic energy"]; leaf "Optics"].

(** A chain with [n] edges: its last node has depth [n]. *)
Fixpoint chain (n : nat) : MindMapNode :=
  match n with
  | 0%nat => leaf "end"
  | S n' => node "step" [chain n']
  end.

(** A tree whose root has an empty name. *)
Definition unnamed : MindMapNode := node "" [leaf "Optics"].

End Samples.

(** ** The drawn graph, element by element *)

Module Drawing.
Import JsString Hierarchy Scale Dom Zoom MindMapGraph.

(** The nodes the [each] loop of the search effect visits: the data of
    the node groups that pass the filter, in document order. *)
Definition matched (lq : string) (g : Graph) : list Node :=
  (λ e, self (datum e)) <$> filter (λ e, matches lq e) (nodeElems g).

(** [n] is, by identity, among the nodes [f m] of one of the nodes [m]. *)
Definition on_path_of (f : Node → list Node) (ms : list Node) (n : Node) : bool :=
  existsb (λ m, existsb (same_node n) (f m)) ms.

(** A node group and a link after the walks from all of [ms]. *)
Definition lit_node (ms : list Node) (e : NodeElem) : NodeElem :=
  if on_path_of ancestors ms (self (datum e)) then undim e else e.

Definition lit_link (ms : list Node) (l : LinkElem) : LinkElem :=
  if on_path_of path_edges ms (target (ldatum l)) then light l else l.

(** A node group and a link after the whole search effect for a query
    that is not empty; [ms] are the matched nodes. *)
Definition final_node (lq : string) (ms : list Node) (e : NodeElem) : NodeElem :=
  lit_node ms (if matches lq e then paint_match (prepared_node lq e) else prepared_node lq e).

Definition final_link (ms : list Node) (l : LinkElem) : LinkElem :=
  lit_link ms (on_path (style "opacity" "0.3") (reset_link l)).

(** The data of the node groups at the given positions. *)
Definition nodes_at (g : Graph) (ps : list nat) : list Node :=
  omap (λ i, (λ e, self (datum e)) <$> nodeElems g !! i) ps.

(** The same, one element at a time: the group, the circle, the label and
    the path after the effect. *)
Definition final_group (lit : bool) (g : Element) : Element :=
  style "opacity" (if lit then "1" else "0.3") g.

Definition reset_circle (d : HierarchyNode) (c : Element) : Element :=
  attr "r" (radius d) (attr "stroke" "#94a3b8" (attr "fill" "#8dd3c7" c)).

Definition paint_circle (c : Element) : Element :=
  attr "r" "10" (attr "stroke" "#b91c1c" (attr "fill" "#ef4444" c)).

Definition reset_label (t : Element) : Element :=
  style "font-weight" "normal" (style "fill" "#1e293b" t).

Definition paint_label (t : Element) : Element :=
  style "font-weight" "bold" (style "fill" "#b91c1c" t).

Definition reset_path (p : Element) : Element :=
  attr "stroke-opacity" "1" (attr "stroke" "#cbd5e1" p).

Definition light_path (p : Element) : Element :=
  style "opacity" "1" (attr "stroke-width" "2" (attr "stroke" "#ef4444" p)).

(** The node groups and the links currently in the svg. *)
Definition drawn_nodes (st : State) : list NodeElem :=
  match gRef st with Some g => nodeElems g | None => [] end.

Definition drawn_links (st : State) : list LinkElem :=
  match gRef st with Some g => linkElems g | None => [] end.

(** What the render effect gives a node group and no later code changes:
    the attributes of the group and the text of the label. *)
Definition as_rendered (e : NodeElem) : Prop :=
  attrs (group e) = attrs (node_group (datum e)) ∧
  textContent (label e) = name (Hierarchy.data (self (datum e))).

(** The circle is filled with the colour of the depth of its node. *)
Definition depth_fill (e : NodeElem) : Prop :=
  attrs (circle e) !! "fill" = schemeSet3 !! (depth (self (datum e)) mod 12)%nat.

(** The event brings a new [data] prop. *)
Definition is_data_change (ev : Event) : bool :=
  match ev with DataChanged _ => true | _ => false end.

End Drawing.

(** ** Regular expressions and string methods of the study guide *)

Module Text.
Import JsString.

(** [\w]: [A-Za-z0-9_] *)
Definition is_word (c : ascii) : bool :=
  let n := nat_of_ascii c in
  ((48 <=? n) && (n <=? 57)) || ((65 <=? n) && (n <=? 90))
  || ((97 <=? n) && (n <=? 122)) || (n =? 95).

(** [\s], ASCII fragment: tab, line feed, vertical tab, form feed,
    carriage return and space. *)
Definition is_space (c : ascii) : bool :=
  let n := nat_of_ascii c in ((9 <=? n) && (n <=? 13)) || (n =? 32).

(** [\d] *)
Definition is_digit (c : ascii) : bool :=
  let n := nat_of_ascii c in (48 <=? n) && (n <=? 57).

(** The characters [.] does not match: line feed and carriage return. *)
Definition is_line_terminator (c : ascii) : bool :=
  let n := nat_of_ascii c in (n =? 10) || (n =? 13).

Definition is_char (a : ascii) (c : ascii) : bool := Ascii.eqb c a.

(** [s.endsWith(sub)] *)
Fixpoint endsWith (s sub : string) : bool :=
  String.eqb s sub ||
  match s with
  | EmptyString => false
  | String _ s' => endsWith s' sub
  end.

(** The rest of [s] after its longest prefix of characters in [p]: a
    greedy [^p*] replaced by the empty string. *)
Fixpoint drop_leading (p : ascii → bool) (s : string) : string :=
  match s with
  | EmptyString => EmptyString
  | String c s' => if p c then drop_leading p s' else s
  end.

(** [s] without its longest suffix of characters in [p]: a greedy [p*$]
    replaced by the empty string. *)
Fixpoint drop_trailing (p : ascii → bool) (s : string) : string :=
  match s with
  | EmptyString => EmptyString
  | String c s' =>
      match drop_trailing p s' with
      | EmptyString => if p c then EmptyString else String c EmptyString
      | r => String c r
      end
  end.

(** The longest prefix of characters in [p]. *)
Fixpoint take_leading (p : ascii → bool) (s : string) : string :=
  match s with
  | EmptyString => EmptyString
  | String c s' => if p c then String c (take_leading p s') else EmptyString
  end.

(** [s.trim()] *)
Definition trim (s : string) : string := drop_trailing is_space (drop_leading is_space s).

(** [s.slice(n)] *)
Fixpoint skip (n : nat) (s : string) : string :=
  match n, s with
  | S n', String _ s' => skip n' s'
  | _, _ => s
  end.

(** [s.slice(a, -b)] *)
Definition slice (a b : nat) (s : string) : string :=
  String.substring a (String.length s - b - a) s.

(** [s.split('\n')]; [cur] is the line being read. *)
Fixpoint split_lines_from (cur : string) (s : string) : list string :=
  match s with
  | EmptyString => [cur]
  | String c s' =>
      if Ascii.eqb c "010"
      then cur :: split_lines_from EmptyString s'
      else split_lines_from (cur +:+ String c EmptyString) s'
  end.

Definition split_lines (s : string) : list string := split_lines_from EmptyString s.

(** [parts.join('')] *)
Definition join (parts : list string) : string := foldr String.append EmptyString parts.

End Text.

(** ** [src/types.ts] *)

Module Types.
Import Hierarchy.

Record StudyTopic := mkStudyTopic {
  title : string;
  content : string;
  keyConcepts : list string;
  estimatedTime : string
}.

Record StudyResponse := mkStudyResponse {
  courseTitle : string;
  overview : string;
  recommendedBooks : list string;
  topics : list StudyTopic;
  mindMap : MindMapNode
}.

Record SubjectStructure := mkSubjectStructure {
  subjectName : string;
  subjectTopics : list string
}.

Record FileData := mkFileData { mimeType : string; fileBytes : string }.

Record SyllabusInput := mkSyllabusInput {
  text : option string;
  fileData : option FileData
}.

Inductive AppState :=
| idle | analyzing_syllabus | selecting_subject | generating_content | success | error.

End Types.

(** ** The study guide: [StudyContent] *)

Module StudyContent.
Import JsString Text Types.

(** [/[^\w\s-]/g] replaced by the empty string. *)
Fixpoint strip_symbols (s : string) : string :=
  match s with
  | EmptyString => EmptyString
  | String c s' =>
      if is_word c || is_space c || Ascii.eqb c "-"
      then String c (strip_symbols s')
      else strip_symbols s'
  end.

(** [[\s_-]] *)
Definition is_separator (c : ascii) : bool :=
  is_space c || Ascii.eqb c "_" || Ascii.eqb c "-".

(** [/[\s_-]+/g] replaced by ["-"]: every maximal run of separators
    becomes one dash.  [in_run] tells that the character before belongs to
    a run that has been replaced already. *)
Fixpoint collapse_separators (in_run : bool) (s : string) : string :=
  match s with
  | EmptyString => EmptyString
  | String c s' =>
      if is_separator c
      then if in_run then collapse_separators true s'
           else String "-" (collapse_separators true s')
      else String c (collapse_separators false s')
  end.

(** [slugify]:
    [text.toLowerCase().replace(/[^\w\s-]/g, '').replace(/[\s_-]+/g, '-')
         .replace(/^-+|-+$/g, '')].
    [App] declares the same function once more, for the ids it looks up. *)
Definition slugify (text : string) : string :=
  drop_trailing (is_char "-")
    (drop_leading (is_char "-")
       (collapse_separators false (strip_symbols (toLowerCase text)))).

(** The characters of a slug: [a-z], [0-9] and the dash. *)
Definition is_slug_char (c : ascii) : bool :=
  let n := nat_of_ascii c in
  ((48 <=? n) && (n <=? 57)) || ((97 <=? n) && (n <=? 122)) || Ascii.eqb c "-".

Fixpoint all_chars (p : ascii → bool) (s : string) : bool :=
  match s with
  | EmptyString => true
  | String c s' => p c && all_chars p s'
  end.

(** A well-formed slug: slug characters only, no dash at either end and
    no two dashes in a row. *)
Definition well_formed (s : string) : bool :=
  all_chars is_slug_char s
  && negb (startsWith s "-") && negb (endsWith s "-") && negb (includes s "--").

(** *** Inline markdown *)

Inductive Inline :=
| Plain (s : string)
| Strong (s : string)
| Em (s : string)
| Code (s : string).

(** A lazy [.*?] followed by [delim]: the shortest run of characters other
    than line terminators after which [delim] starts.  The result is the
    run and the rest of the string after [delim]. *)
Fixpoint lazy_until (delim : string) (s : string) : option (string * string) :=
  if startsWith s delim then Some (EmptyString, skip (String.length delim) s)
  else
    match s with
    | EmptyString => None
    | String c s' =>
        if is_line_terminator c then None
        else match lazy_until delim s' with
             | Some (r, rest) => Some (String c r, rest)
             | None => None
             end
    end.

(** The greedy [[^`]+] followed by a backquote, after the opening
    backquote: the run up to the next backquote, which must not be empty. *)
Fixpoint code_run (s : string) : option (string * string) :=
  match s with
  | EmptyString => None
  | String c s' =>
      if Ascii.eqb c "`" then Some (EmptyString, s')
      else match code_run s' with
           | Some (r, rest) => Some (String c r, rest)
           | None => None
           end
  end.

(** A match of [/(\*\*.*?\*\*|\*.*?\*|`[^`]+`)/] that starts at the first
    character of [s]: the alternatives are tried in order.  The result is
    the matched text and the rest of the string. *)
Definition match_at (s : string) : option (string * string) :=
  match s with
  | EmptyString => None
  | String c s1 =>
      if Ascii.eqb c "*" then
        let bold :=
          match s1 with
          | EmptyString => None
          | String c2 s2 =>
              if Ascii.eqb c2 "*" then
                match lazy_until "**" s2 with
                | Some (r, rest) => Some ("**" +:+ r +:+ "**", rest)
                | None => None
                end
              else None
          end in
        match bold with
        | Some m => Some m
        | None =>
            match lazy_until "*" s1 with
            | Some (r, rest) => Some ("*" +:+ r +:+ "*", rest)
            | None => None
            end
        end
      else if Ascii.eqb c "`" then
        match code_run s1 with
        | Some (String c' r, rest) => Some ("`" +:+ String c' r +:+ "`", rest)
        | _ => None
        end
      else None
  end.

(** [text.split(/(...)/g)] with the one capture group around the whole
    pattern: the text before the first match, the match, the text between
    it and the next match, and so on, up to the text after the last match.
    [cur] is the piece being read; [inside] counts the characters left of
    a match found already. *)
Fixpoint split_from (inside : nat) (cur : string) (s : string) : list string :=
  match s with
  | EmptyString => [cur]
  | String c s' =>
      match inside with
      | S k => split_from k cur s'
      | O =>
          match match_at s with
          | Some (m, _) => cur :: m :: split_from (String.length m - 1) EmptyString s'
          | None => split_from O (cur +:+ String c EmptyString) s'
          end
      end
  end.

Definition split_inline (text : string) : list string := split_from O EmptyString text.

(** The callback of [parts.map] *)
Definition inline_of (part : string) : Inline :=
  if startsWith part "**" && endsWith part "**" then Strong (slice 2 2 part)
  else if startsWith part "*" && endsWith part "*" then Em (slice 1 1 part)
  else if startsWith part "`" && endsWith part "`" then Code (slice 1 1 part)
  else Plain part.

(** [renderInline] *)
Definition renderInline (text : string) : list Inline :=
  inline_of <$> split_inline text.

(** A character that starts no inline span. *)
Definition no_marker (c : ascii) : bool :=
  negb (Ascii.eqb c "*") && negb (Ascii.eqb c "`").

(** A character of the content of a well-formed span: no marker and no
    line terminator. *)
Definition span_char (c : ascii) : bool := no_marker c && negb (is_line_terminator c).

(** *** Blocks *)

(** The elements [ContentRenderer] pushes, each with its React key. *)
Inductive Block :=
| H4 (key : nat) (text : string)
| H3 (key : nat) (text : string)
| Quote (key : nat) (body : list Inline)
| Bullet (key : nat) (body : list Inline)
| Ordered (key : nat) (number : string) (body : list Inline)
| Paragraph (key : nat) (body : list Inline).

Definition key (b : Block) : nat :=
  match b with
  | H4 k _ | H3 k _ | Quote k _ | Bullet k _ | Ordered k _ _ | Paragraph k _ => k
  end.

(** [line.replace(/^#+\s*/, '')] *)
Definition strip_heading (line : string) : string :=
  if startsWith line "#"
  then drop_leading is_space (drop_leading (is_char "#") line)
  else line.

(** [line.replace(/^>\s*/, '')] *)
Definition strip_quote (line : string) : string :=
  match line with
  | String c rest => if Ascii.eqb c ">" then drop_leading is_space rest else line
  | EmptyString => line
  end.

(** [line.match(/^[-*]\s/)] *)
Definition is_bullet (line : string) : bool :=
  match line with
  | String c (String c2 _) => (Ascii.eqb c "-" || Ascii.eqb c "*") && is_space c2
  | _ => false
  end.

(** [line.match] with the pattern for an ordered item: at the start of the
    line one or more digits (group 1), a dot, one white-space character,
    and the rest of the line up to a line terminator (group 2). *)
Definition ordered_match (line : string) : option (string * string) :=
  let number := take_leading is_digit line in
  match number, drop_leading is_digit line with
  | String _ _, String dot (String sp rest) =>
      if Ascii.eqb dot "." && is_space sp
      then Some (number, take_leading (λ c, negb (is_line_terminator c)) rest)
      else None
  | _, _ => None
  end.

(** The body of the loop for a line that is not blank. *)
Definition block_of (i : nat) (line : string) : Block :=
  if startsWith line "###" then H4 i (strip_heading line)
  else if startsWith line "#" || startsWith line "##" then H3 i (strip_heading line)
  else if startsWith line ">" then Quote i (renderInline (strip_quote line))
  else if is_bullet line then Bullet i (renderInline (skip 2 line))
  else match ordered_match line with
       | Some (number, rest) => Ordered i number (renderInline rest)
       | None => Paragraph i (renderInline line)
       end.

(** [for (let i = 0; i < lines.length; i++)] *)
Fixpoint blocks_from (i : nat) (lines : list string) : list Block :=
  match lines with
  | [] => []
  | l :: lines' =>
      let line := trim l in
      if falsy line then blocks_from (S i) lines'
      else block_of i line :: blocks_from (S i) lines'
  end.

(** [ContentRenderer] *)
Definition ContentRenderer (content : string) : list Block :=
  blocks_from 0 (split_lines content).

(** *** Topic cards *)

(** The [id] of a topic card. *)
Definition topic_id (t : StudyTopic) : string := "topic-" +:+ slugify (title t).

(** A topic card: its [id], the number in its badge, and its body. *)
Record Card := mkCard {
  card_id : string;
  badge : nat;
  heading : string;
  time : string;
  body : list Block;
  concepts : list string
}.

(** [topics.map((topic, index) => ...)] *)
Definition cards (ts : list StudyTopic) : list Card :=
  imap (λ index t, mkCard (topic_id t) (index + 1) (title t) (estimatedTime t)
                          (ContentRenderer (content t)) (keyConcepts t)) ts.

(** The books section is there when [recommendedBooks] is given and not
    empty. *)
Definition books_section (recommendedBooks : option (list string)) : option (list string) :=
  match recommendedBooks with
  | Some (b :: bs) => Some (b :: bs)
  | _ => None
  end.

End StudyContent.

(** ** [App]: the click on a mind-map node *)

Module App.
Import JsString Text Types StudyContent.

Inductive Tab := content_tab | mindmap_tab.

(** The callback of [result.topics.find]. *)
Definition fuzzy_match (nodeName : string) (t : StudyTopic) : bool :=
  includes (toLowerCase (title t)) (toLowerCase nodeName)
  || includes (toLowerCase nodeName) (toLowerCase (title t)).

(** [document.getElementById(id)] on a document whose elements with an id
    are the given cards, in document order: the first card with that id. *)
Fixpoint getElementById (doc : list Card) (id : string) : option Card :=
  match doc with
  | [] => None
  | c :: doc' => if String.eqb (card_id c) id then Some c else getElementById doc' id
  end.

(** [handleNodeClick]: the tab it selects and the card the timeout scrolls
    to and flashes, if any.  [doc] is the document at the time of the
    timeout. *)
Definition handleNodeClick (doc : list Card) (result : option StudyResponse)
    (nodeName : string) : Tab * option Card :=
  (content_tab,
   match result with
   | None => None
   | Some r =>
       match find (fuzzy_match nodeName) (topics r) with
       | Some targetTopic => getElementById doc ("topic-" +:+ slugify (title targetTopic))
       | None => None
       end
   end).

End App.

Import JsString Text Types StudyContent App.

(** ** [App]: the screens *)

Module AppScreens.
Import JsString Types App.

(** The [useState] cells of [App]. *)
Record State := mkState {
  appState : AppState;
  programName : string;
  syllabusInput : option SyllabusInput;
  fileName : option string;
  detectedSubjects : list SubjectStructure;
  selectedSubject : string;
  configuringSubject : option SubjectStructure;
  focusTopic : string;
  result : option StudyResponse;
  activeTab : Tab;
  errorMsg : option string
}.

Definition initial : State :=
  mkState idle "" None None [] "" None "" None content_tab None.

(** The setters. *)
Definition setAppState (v : AppState) (s : State) : State :=
  mkState v (programName s) (syllabusInput s) (fileName s) (detectedSubjects s)
          (selectedSubject s) (configuringSubject s) (focusTopic s) (result s)
          (activeTab s) (errorMsg s).
Definition setProgramName (v : string) (s : State) : State :=
  mkState (appState s) v (syllabusInput s) (fileName s) (detectedSubjects s)
          (selectedSubject s) (configuringSubject s) (focusTopic s) (result s)
          (activeTab s) (errorMsg s).
Definition setSyllabusInput (v : option SyllabusInput) (s : State) : State :=
  mkState (appState s) (programName s) v (fileName s) (detectedSubjects s)
          (selectedSubject s) (configuringSubject s) (focusTopic s) (result s)
          (activeTab s) (errorMsg s).
Definition setFileName (v : option string) (s : State) : State :=
  mkState (appState s) (programName s) (syllabusInput s) v (detectedSubjects s)
          (selectedSubject s) (configuringSubject s) (focusTopic s) (result s)
          (activeTab s) (errorMsg s).
Definition setDetectedSubjects (v : list SubjectStructure) (s : State) : State :=
  mkState (appState s) (programName s) (syllabusInput s) (fileName s) v
          (selectedSubject s) (configuringSubject s) (focusTopic s) (result s)
          (activeTab s) (errorMsg s).
Definition setSelectedSubject (v : string) (s : State) : State :=
  mkState (appState s) (programName s) (syllabusInput s) (fileName s) (detectedSubjects s)
          v (configuringSubject s) (focusTopic s) (result s)
          (activeTab s) (errorMsg s).
Definition setConfiguringSubject (v : option SubjectStructure) (s : State) : State :=
  mkState (appState s) (programName s) (syllabusInput s) (fileName s) (detectedSubjects s)
          (selectedSubject s) v (focusTopic s) (result s)
          (activeTab s) (errorMsg s).
Definition setFocusTopic (v : string) (s : State) : State :=
  mkState (appState s) (programName s) (syllabusInput s) (fileName s) (detectedSubjects s)
          (selectedSubject s) (configuringSubject s) v (result s)
          (activeTab s) (errorMsg s).
Definition setResult (v : option StudyResponse) (s : State) : State :=
  mkState (appState s) (programName s) (syllabusInput s) (fileName s) (detectedSubjects s)
          (selectedSubject s) (configuringSubject s) (focusTopic s) v
          (activeTab s) (errorMsg s).
Definition setActiveTab (v : Tab) (s : State) : State :=
  mkState (appState s) (programName s) (syllabusInput s) (fileName s) (detectedSubjects s)
          (selectedSubject s) (configuringSubject s) (focusTopic s) (result s)
          v (errorMsg s).
Definition setErrorMsg (v : option string) (s : State) : State :=
  mkState (appState s) (programName s) (syllabusInput s) (fileName s) (detectedSubjects s)
          (selectedSubject s) (configuringSubject s) (focusTopic s) (result s)
          (activeTab s) v.

(** [handleBack] *)
Definition handleBack (s : State) : State :=
  match appState s with
  | selecting_subject =>
      setFileName None (setSyllabusInput None (setDetectedSubjects [] (setAppState idle s)))
  | generating_content => setAppState selecting_subject s
  | success =>
      setSelectedSubject "" (setFocusTopic "" (setResult None (setAppState selecting_subject s)))
  | error =>
      setErrorMsg None
        (match detectedSubjects s with
         | _ :: _ => setAppState selecting_subject s
         | [] => setAppState idle s
         end)
  | _ => s
  end.

(** [handleReset] *)
Definition handleReset (s : State) : State :=
  setFocusTopic ""
    (setConfiguringSubject None
      (setSelectedSubject ""
        (setDetectedSubjects []
          (setSyllabusInput None
            (setFileName None
              (setProgramName "" (setResult None (setAppState idle s)))))))).

(** [handleAnalyzeSyllabus] up to its [await]; the flag tells whether the
    request was sent. *)
Definition handleAnalyzeSyllabus (s : State) : State * bool :=
  if falsy (programName s) || negb (bool_decide (is_Some (syllabusInput s)))
  then (setErrorMsg (Some "Please provide both a program name and a syllabus file.") s, false)
  else (setErrorMsg None (setAppState analyzing_syllabus s), true).

(** The rest of [handleAnalyzeSyllabus]: the request resolved with a
    structure, or it threw. *)
Definition analyzeResolved (subjects : list SubjectStructure) (s : State) : State :=
  setAppState selecting_subject (setDetectedSubjects subjects s).

Definition analyzeRejected (s : State) : State :=
  setErrorMsg
    (Some "Failed to analyze syllabus structure. Please ensure the file is readable.")
    (setAppState error s).

(** [handleSubjectClick] *)
Definition handleSubjectClick (subject : SubjectStructure) (s : State) : State :=
  setFocusTopic "" (setConfiguringSubject (Some subject) s).

(** [handleGenerateContent] up to its [await]. *)
Definition handleGenerateContent (s : State) : State * bool :=
  match syllabusInput s, configuringSubject s with
  | Some _, Some subject =>
      (setAppState generating_content
         (setSelectedSubject (subjectName subject) (setConfiguringSubject None s)),
       true)
  | _, _ => (s, false)
  end.

(** The rest of [handleGenerateContent]. *)
Definition generateResolved (data : StudyResponse) (s : State) : State :=
  setActiveTab content_tab (setAppState success (setResult (Some data) s)).

Definition generateRejected (s : State) : State :=
  setErrorMsg (Some "Failed to generate study material. Please try again.")
    (setAppState error s).

(** What happens to [App]: the calls of its handlers and the completions
    of its two requests.  A completion is taken at any point of a run; the
    app delivers one only for a request sent before. *)
Inductive Event :=
| ProgramNameTyped (v : string)
| FileChosen (name : string)
| FileRead (input : SyllabusInput)
| AnalyzeSubmitted
| AnalyzeResolved (subjects : list SubjectStructure)
| AnalyzeRejected
| SubjectClicked (subject : SubjectStructure)
| FocusTopicTyped (v : string)
| ModalClosed
| GenerateClicked
| GenerateResolved (data : StudyResponse)
| GenerateRejected
| BackClicked
| ResetClicked
| TabClicked (tab : Tab)
| NodeClicked (nodeName : string).

Definition step (s : State) (ev : Event) : State :=
  match ev with
  | ProgramNameTyped v => setProgramName v s
  | FileChosen name => setFileName (Some name) s
  | FileRead input => setSyllabusInput (Some input) s
  | AnalyzeSubmitted => (handleAnalyzeSyllabus s).1
  | AnalyzeResolved subjects => analyzeResolved subjects s
  | AnalyzeRejected => analyzeRejected s
  | SubjectClicked subject => handleSubjectClick subject s
  | FocusTopicTyped v => setFocusTopic v s
  | ModalClosed => setConfiguringSubject None s
  | GenerateClicked => (handleGenerateContent s).1
  | GenerateResolved data => generateResolved data s
  | GenerateRejected => generateRejected s
  | BackClicked => handleBack s
  | ResetClicked => handleReset s
  | TabClicked tab => setActiveTab tab s
  | NodeClicked nodeName => setActiveTab (handleNodeClick [] (result s) nodeName).1 s
  end.

Definition run (s : State) (evs : list Event) : State := foldl step s evs.

(** The results screen has a result to show, and the error screen a
    message. *)
Definition screen_has_content (s : State) : Prop :=
  (appState s = success → is_Some (result s)) ∧
  (appState s = error → ∃ m, errorMsg s = Some m ∧ falsy m = false).

End AppScreens.

(** ** A sample study guide *)

Module StudySamples.
Import Types.

Definition sample_response : StudyResponse :=
  mkStudyResponse "Physics" "An overview" []
    [ mkStudyTopic "Classical Mechanics" "### Newton" ["force"] "2 hours";
      mkStudyTopic "Optics & Waves" "- light" ["ray"] "1 hour" ]
    Samples.physics.

End StudySamples.

(** * Properties *)

Import JsString Hierarchy Scale Dom Zoom MindMapGraph Samples.

(** ** Induction principles for the nested trees *)

Section raw_induction.
Variable P : MindMapNode → Prop.
Hypothesis Hleaf : ∀ n de, P (mkMindMapNode n de None).
Hypothesis Hnode : ∀ n de cs, Forall P cs → P (mkMindMapNode n de (Some cs)).

Fixpoint MindMapNode_tree_ind (d : MindMapNode) : P d :=
  match d with
  | mkMindMapNode n de None => Hleaf n de
  | mkMindMapNode n de (Some cs) =>
      Hnode n de cs
        ((fix go (l : list MindMapNode) : Forall P l :=
            match l with
            | [] => Forall_nil_2 P
            | c :: l' => Forall_cons_2 P c l' (MindMapNode_tree_ind c) (go l')
            end) cs)
  end.
End raw_induction.

Section hierarchy_induction.
Variable P : HierarchyNode → Prop.
Hypothesis Hnode : ∀ s ks, Forall P ks → P (HNode s ks).

Fixpoint HierarchyNode_tree_ind (h : HierarchyNode) : P h :=
  match h with
  | HNode s ks =>
      Hnode s ks
        ((fix go (l : list HierarchyNode) : Forall P l :=
            match l with
            | [] => Forall_nil_2 P
            | c :: l' => Forall_cons_2 P c l' (HierarchyNode_tree_ind c) (go l')
            end) ks)
  end.
End hierarchy_induction.

Section node_induction.
Variable P : Node → Prop.
Hypothesis Hroot : ∀ d dep h i, P (mkNode d dep h None i).
Hypothesis Hchild : ∀ d dep h p i, P p → P (mkNode d dep h (Some p) i).

Fixpoint Node_chain_ind (n : Node) : P n :=
  match n with
  | mkNode d dep h None i => Hroot d dep h i
  | mkNode d dep h (Some p) i => Hchild d dep h p i (Node_chain_ind p)
  end.
End node_induction.

(** ** The hierarchy *)

Lemma raw_size_eq d : raw_size d = S (sum_list_with raw_size (raw_children d)).
Proof.
  by destruct d as [n de [cs|]].
Qed.

Lemma size_eq h : size h = S (sum_list_with size (kids h)).
Proof.
  by destruct h as [s ks].
Qed.

Lemma subtrees_eq h : subtrees h = h :: flat_map subtrees (kids h).
Proof.
  by destruct h as [s ks].
Qed.

Lemma self_build par dep idx d :
  self (build par dep idx d) = mkNode d dep (raw_height d) par idx.
Proof. by destruct d as [n de [cs|]]. Qed.

Lemma kids_build par dep idx d :
  kids (build par dep idx d)
  = build_list (Some (mkNode d dep (raw_height d) par idx)) (S dep) 0 (raw_children d).
Proof.
  by destruct d as [n de [cs|]].
Qed.

Lemma size_build_list par dep i cs :
  Forall (λ c, ∀ par dep idx, size (build par dep idx c) = raw_size c) cs →
  sum_list_with size (build_list par dep i cs) = sum_list_with raw_size cs.
Proof.
  intros H. revert i. induction H as [|c cs Hc _ IH]; intros i; simpl; [done|].
  by rewrite Hc, IH.
Qed.

Lemma size_build d : ∀ par dep idx, size (build par dep idx d) = raw_size d.
Proof.
  induction d as [n de|n de cs IH] using MindMapNode_tree_ind; intros par dep idx.
  - done.
  - rewrite size_eq, raw_size_eq, kids_build. f_equal. by apply size_build_list.
Qed.

Lemma data_build_list par dep i cs :
  (λ k, Hierarchy.data (self k)) <$> build_list par dep i cs = cs.
Proof.
  revert i. induction cs as [|c cs IH]; intros i; simpl; [done|].
  by rewrite self_build, IH.
Qed.

(** Breadth-first iteration visits the subtrees. *)
Lemma flat_map_subtrees l :
  flat_map subtrees l ≡ₚ l ++ flat_map subtrees (flat_map kids l).
Proof.
  induction l as [|h l IH]; simpl; [done|].
  rewrite subtrees_eq; simpl. rewrite flat_map_app. f_equiv.
  rewrite IH. rewrite !app_assoc. f_equiv. apply Permutation_app_comm.
Qed.

Lemma sum_size_kids l :
  sum_list_with size l = (length l + sum_list_with size (flat_map kids l))%nat.
Proof.
  induction l as [|h l IH]; simpl; [done|].
  rewrite size_eq, sum_list_with_app, IH. simpl. lia.
Qed.

Lemma levels_subtrees fuel : ∀ current,
  (sum_list_with size current ≤ fuel)%nat →
  levels fuel current ≡ₚ flat_map subtrees current.
Proof.
  induction fuel as [|f IH]; intros current Hf.
  - destruct current as [|h l]; [done|]. rewrite sum_size_kids in Hf. simpl in Hf. lia.
  - destruct current as [|h l]; [done|].
    change (levels (S f) (h :: l)) with ((h :: l) ++ levels f (flat_map kids (h :: l))).
    rewrite flat_map_subtrees. f_equiv. apply IH.
    rewrite sum_size_kids in Hf. simpl in *. lia.
Qed.

Lemma descendants_subtrees h : descendants h ≡ₚ subtrees h.
Proof.
  unfold descendants. rewrite levels_subtrees; simpl; [by rewrite app_nil_r | lia].
Qed.

Lemma length_subtrees h : length (subtrees h) = size h.
Proof.
  induction h as [s ks IH] using HierarchyNode_tree_ind.
  rewrite subtrees_eq, size_eq; simpl. f_equal.
  induction IH as [|k ks Hk _ IH]; simpl; [done|].
  by rewrite length_app, Hk, IH.
Qed.

Lemma length_descendants d : length (descendants (hierarchy d)) = raw_size d.
Proof.
  rewrite descendants_subtrees, length_subtrees. apply size_build.
Qed.

Lemma elem_of_flat_map {A B} (f : A → list B) (l : list A) (y : B) :
  y ∈ flat_map f l ↔ ∃ x, x ∈ l ∧ y ∈ f x.
Proof.
  rewrite list_elem_of_In, in_flat_map. setoid_rewrite list_elem_of_In. done.
Qed.

Lemma elem_of_build_list par dep i cs k :
  k ∈ build_list par dep i cs → ∃ j c, cs !! j = Some c ∧ k = build par dep (i + j) c.
Proof.
  revert i. induction cs as [|c cs IH]; intros i; simpl; [by intros ?%elem_of_nil|].
  intros [->|Hk]%elem_of_cons.
  - exists 0%nat, c. by rewrite Nat.add_0_r.
  - destruct (IH _ Hk) as (j & c' & ? & ->). exists (S j), c'.
    split; [done|]. f_equal. lia.
Qed.

Lemma build_list_lookup par dep i cs j c :
  cs !! j = Some c → build_list par dep i cs !! j = Some (build par dep (i + j) c).
Proof.
  revert i j. induction cs as [|c' cs IH]; intros i [|j]; simpl; try done.
  - intros [= ->]. by rewrite Nat.add_0_r.
  - intros H. rewrite (IH (S i) j H). do 2 f_equal. lia.
Qed.

Lemma subtrees_build_inv d : ∀ par dep idx n,
  n ∈ subtrees (build par dep idx d) →
  n = build par dep idx d ∨
  ∃ j c, raw_children d !! j = Some c ∧
         n ∈ subtrees (build (Some (self (build par dep idx d))) (S dep) j c).
Proof.
  intros par dep idx n. rewrite subtrees_eq, kids_build, <-self_build.
  intros [->|Hn]%elem_of_cons; [by left|right].
  apply elem_of_flat_map in Hn as (k & Hk & Hn).
  apply elem_of_build_list in Hk as (j & c & Hc & ->). eauto.
Qed.

Lemma subtrees_are_built d : ∀ par dep idx n,
  n ∈ subtrees (build par dep idx d) →
  ∃ par' dep' idx' d', n = build par' dep' idx' d'.
Proof.
  induction d as [nm de|nm de cs IH] using MindMapNode_tree_ind; intros par dep idx n Hn.
  - apply subtrees_build_inv in Hn as [->|(j & c & Hc & _)]; [eauto|].
    by destruct j.
  - apply subtrees_build_inv in Hn as [->|(j & c & Hc & Hn)]; [eauto|].
    by eapply (Forall_lookup_1 _ _ _ _ IH Hc).
Qed.

Lemma subtree_kid_in par dep idx d j c n :
  raw_children d !! j = Some c →
  n ∈ subtrees (build (Some (self (build par dep idx d))) (S dep) j c) →
  n ∈ subtrees (build par dep idx d).
Proof.
  intros Hc Hn. rewrite (subtrees_eq (build par dep idx d)), kids_build, <-self_build.
  apply elem_of_cons; right.
  apply elem_of_flat_map. eexists; split; [|done].
  apply (list_elem_of_lookup_2 _ j). by apply (build_list_lookup _ _ 0%nat _ j).
Qed.

Lemma subtrees_self h : h ∈ subtrees h.
Proof. rewrite subtrees_eq. apply list_elem_of_here. Qed.

(** The parent reference of a node other than the root points to a node
    of the same hierarchy. *)
Lemma parent_in_subtrees d : ∀ par dep idx n,
  n ∈ subtrees (build par dep idx d) →
  n = build par dep idx d ∨
  ∃ m, m ∈ subtrees (build par dep idx d) ∧ parent (self n) = Some (self m).
Proof.
  induction d as [nm de|nm de cs IH] using MindMapNode_tree_ind; intros par dep idx n Hn.
  - apply subtrees_build_inv in Hn as [->|(j & c & Hc & _)]; [by left|by destruct j].
  - pose proof Hn as Hn'.
    apply subtrees_build_inv in Hn as [->|(j & c & Hc & Hn)]; [by left|right].
    destruct (Forall_lookup_1 _ _ _ _ IH Hc _ _ _ _ Hn) as [->|(m & Hm & Hp)].
    + eexists; split; [apply subtrees_self|]. by rewrite self_build.
    + exists m; split; [|done]. by eapply subtree_kid_in.
Qed.

Lemma raw_at_built d : ∀ par dep idx p r,
  raw_at d p = Some r →
  ∃ n, n ∈ subtrees (build par dep idx d) ∧
       Hierarchy.data (self n) = r ∧ depth (self n) = (dep + length p)%nat.
Proof.
  intros par dep idx p. revert d par dep idx.
  induction p as [|i p IH]; intros d par dep idx r; simpl.
  - intros [= ->]. eexists; split; [apply subtrees_self|].
    rewrite self_build; simpl. split; [done|lia].
  - destruct (raw_children d !! i) as [c|] eqn:Hc; [|done]. intros Hr.
    destruct (IH c (Some (self (build par dep idx d))) (S dep) i r Hr) as (n & Hn & Hd & Hdep).
    exists n. split; [by eapply subtree_kid_in|]. split; [done|]. lia.
Qed.

(** ** The search effect *)

Lemma style_idem k v e : style k v (style k v e) = style k v e.
Proof. unfold style; simpl. by rewrite insert_insert_eq. Qed.

Lemma undim_idem e : undim (undim e) = undim e.
Proof. unfold undim, on_group; simpl. by rewrite style_idem. Qed.

Lemma light_idem l : light (light l) = light l.
Proof.
  unfold light, on_path, style, attr; simpl. f_equal. f_equal.
  - apply map_eq; intros i. rewrite !lookup_insert. by repeat case_decide.
  - by rewrite insert_insert_eq.
Qed.

Lemma walk_up_char c : ∀ g,
  walk_up c g = mkGraph (walked_link c <$> linkElems g) (walked_node c <$> nodeElems g).
Proof.
  induction c as [d dep h i|d dep h p i IH] using Node_chain_ind; intros g.
  - destruct g as [ls ns]; simpl. f_equal.
    + rewrite <-(list_fmap_id ls) at 1. done.
    + rewrite <-(list_fmap_id ns) at 1. done.
  - cbn [walk_up]. rewrite IH. unfold on_nodes, on_links; simpl. f_equal.
    + rewrite <-list_fmap_compose. apply list_fmap_ext; intros _ l _; simpl.
      unfold walked_link; cbn [path_edges existsb].
      destruct (same_node (target (ldatum l)) _) eqn:E1; simpl; [|done].
      destruct (existsb _ _); [apply light_idem|done].
    + rewrite <-list_fmap_compose. apply list_fmap_ext; intros _ e _; simpl.
      unfold walked_node; cbn [ancestors existsb].
      destruct (same_node (self (datum e)) p) eqn:E1; simpl; [|done].
      destruct (existsb _ _); [apply undim_idem|done].
Qed.

Lemma datum_walked_node c e : datum (walked_node c e) = datum e.
Proof. unfold walked_node. by destruct (existsb _ _). Qed.
Lemma circle_walked_node c e : circle (walked_node c e) = circle e.
Proof. unfold walked_node. by destruct (existsb _ _). Qed.
Lemma ldatum_walked_link c l : ldatum (walked_link c l) = ldatum l.
Proof. unfold walked_link. by destruct (existsb _ _). Qed.

Lemma undimmed_undim e : undimmed (undim e).
Proof. unfold undimmed, undim; simpl. by rewrite lookup_insert_eq, bool_decide_true. Qed.

Lemma edge_highlighted_light l : edge_highlighted (light l).
Proof.
  unfold edge_highlighted, light; simpl.
  rewrite lookup_insert_ne, !lookup_insert_eq by done. done.
Qed.

Lemma undimmed_walked_node c e : undimmed e → undimmed (walked_node c e).
Proof. unfold walked_node. destruct (existsb _ _); [intros _; apply undimmed_undim|done]. Qed.

Lemma edge_highlighted_walked_link c l : edge_highlighted l → edge_highlighted (walked_link c l).
Proof.
  unfold walked_link. destruct (existsb _ _); [intros _; apply edge_highlighted_light|done].
Qed.

Lemma same_node_refl a : same_node a a.
Proof. unfold same_node. by rewrite bool_decide_true. Qed.

Lemma walked_node_ancestor c e a :
  a ∈ ancestors c → same_node (self (datum e)) a → undimmed (walked_node c e).
Proof.
  intros Ha Hs. unfold walked_node.
  assert (existsb (same_node (self (datum e))) (ancestors c) = true) as ->; [|apply undimmed_undim].
  apply existsb_exists. exists a. split; [by apply list_elem_of_In|by apply Is_true_true].
Qed.

Lemma walked_link_edge c l a :
  a ∈ path_edges c → same_node (target (ldatum l)) a → edge_highlighted (walked_link c l).
Proof.
  intros Ha Hs. unfold walked_link.
  assert (existsb (same_node (target (ldatum l))) (path_edges c) = true) as ->;
    [|apply edge_highlighted_light].
  apply existsb_exists. exists a. split; [by apply list_elem_of_In|by apply Is_true_true].
Qed.

Lemma highlight_one_char g i ei :
  nodeElems g !! i = Some ei →
  highlight_one g i
  = mkGraph (walked_link (self (datum ei)) <$> linkElems g)
            (walked_node (self (datum ei)) <$> alter paint_match i (nodeElems g)).
Proof. intros H. unfold highlight_one. rewrite H. by rewrite walk_up_char. Qed.

Lemma elem_of_positions {A} (sel : A → bool) l : ∀ i j,
  j ∈ positions sel i l ↔ ∃ e, (i ≤ j)%nat ∧ l !! (j - i)%nat = Some e ∧ sel e.
Proof.
  induction l as [|a l IH]; intros i j; simpl.
  - rewrite elem_of_nil. split; [done|]. by intros (e & _ & ? & _).
  - assert (j ∈ positions sel (S i) l ↔ ∃ e, (i ≤ j)%nat ∧ (a :: l) !! (j - i)%nat = Some e ∧ sel e ∧ j ≠ i) as Hr.
    { rewrite IH. split.
      - intros (e & Hle & He & Hs). exists e. repeat split; [lia| |done|lia].
        replace (j - i)%nat with (S (j - S i)) by lia. done.
      - intros (e & Hle & He & Hs & Hne). exists e. repeat split; [lia| |done].
        replace (j - i)%nat with (S (j - S i)) in He by lia. done. }
    destruct (sel a) eqn:Ea.
    + rewrite elem_of_cons, Hr. split.
      * intros [->|(e & ? & ? & ? & ?)]; [|by eauto].
        exists a. rewrite Nat.sub_diag. by rewrite Ea.
      * intros (e & Hle & He & Hs). destruct (decide (j = i)) as [->|]; [by left|right]. eauto.
    + rewrite Hr. split.
      * intros (e & ? & ? & ? & ?); eauto.
      * intros (e & Hle & He & Hs). exists e. repeat split; try done.
        intros ->. rewrite Nat.sub_diag in He. simpl in He. injection He as ->.
        by rewrite Ea in Hs.
Qed.

Lemma drawn_paint_match e : drawn_as_match (paint_match e).
Proof.
  unfold drawn_as_match, paint_match; simpl.
  rewrite !lookup_insert_ne, lookup_insert_eq by done. done.
Qed.

Lemma datum_alter_paint (i : nat) (l : list NodeElem) : datum <$> alter paint_match i l = datum <$> l.
Proof.
  apply list_eq; intros j. rewrite !list_lookup_fmap.
  destruct (decide (i = j)) as [<-|Hne].
  - rewrite list_lookup_alter_eq. by destruct (l !! i).
  - by rewrite list_lookup_alter_ne.
Qed.

Lemma fold_highlight g2 ms :
  let g := foldl highlight_one g2 ms in
  datum <$> nodeElems g = datum <$> nodeElems g2 ∧
  ldatum <$> linkElems g = ldatum <$> linkElems g2 ∧
  (∀ j e e2, nodeElems g !! j = Some e → nodeElems g2 !! j = Some e2 →
             drawn_as_match e ↔ j ∈ ms ∨ drawn_as_match e2) ∧
  (∀ i e2 a j e, i ∈ ms → nodeElems g2 !! i = Some e2 →
                 a ∈ ancestors (self (datum e2)) →
                 nodeElems g !! j = Some e → same_node (self (datum e)) a → undimmed e) ∧
  (∀ i e2 a j l, i ∈ ms → nodeElems g2 !! i = Some e2 →
                 a ∈ path_edges (self (datum e2)) →
                 linkElems g !! j = Some l → same_node (target (ldatum l)) a →
                 edge_highlighted l).
Proof.
  induction ms as [|i ms IH] using rev_ind; simpl.
  { split; [done|]. split; [done|]. split; [|split].
    - intros j e e2 H1 H2. assert (e2 = e) as -> by congruence.
      split; [by right|]. by intros [?%elem_of_nil|].
    - by intros ????? ?%elem_of_nil.
    - by intros ????? ?%elem_of_nil. }
  rewrite foldl_snoc. destruct IH as (Hd & Hl & Hm & Hp & He).
  set (g := foldl highlight_one g2 ms) in *.
  destruct (nodeElems g !! i) as [ei|] eqn:Hi.
  2:{ assert (highlight_one g i = g) as -> by (unfold highlight_one; by rewrite Hi).
      assert (nodeElems g2 !! i = None) as Hi2.
      { apply (f_equal (λ l, l !! i)) in Hd. rewrite !list_lookup_fmap, Hi in Hd.
        by destruct (nodeElems g2 !! i). }
      split; [done|]. split; [done|]. split; [|split].
      - intros j e e2 Hj Hj2. rewrite (Hm j e e2) by done.
        rewrite elem_of_app, list_elem_of_singleton.
        split; [intros [?|?]; [by left; left|by right]|]. intros [[?| ->]|?]; [by left|congruence|by right].
      - intros i' e2 a j e [?|Hx%list_elem_of_singleton]%elem_of_app;
          [by eapply Hp|subst; congruence].
      - intros i' e2 a j l [?|Hx%list_elem_of_singleton]%elem_of_app;
          [by eapply He|subst; congruence]. }
  rewrite (highlight_one_char _ _ _ Hi); cbn [nodeElems linkElems].
  assert (datum <$> nodeElems g2 = datum <$> nodeElems g) as Hd' by done.
  assert (∃ e2i, nodeElems g2 !! i = Some e2i ∧ datum e2i = datum ei) as (e2i & Hi2 & Hdi).
  { apply (f_equal (λ l, l !! i)) in Hd. rewrite !list_lookup_fmap, Hi in Hd.
    destruct (nodeElems g2 !! i) as [e2i|]; [|done]. exists e2i. split; [done|].
    simpl in Hd. congruence. }
  split; [|split; [|split; [|split]]].
  - rewrite <-Hd, <-(datum_alter_paint i (nodeElems g)), <-list_fmap_compose.
    apply list_fmap_ext. intros ? e _. simpl. apply datum_walked_node.
  - rewrite <-Hl, <-list_fmap_compose. apply list_fmap_ext. intros ? l _. simpl.
    apply ldatum_walked_link.
  - intros j e e2 Hj Hj2. rewrite list_lookup_fmap in Hj.
    destruct (decide (i = j)) as [<-|Hne].
    + rewrite list_lookup_alter_eq, Hi in Hj. simpl in Hj. injection Hj as <-.
      split; [intros _; left; apply elem_of_app; right; by apply list_elem_of_singleton|].
      intros _. unfold drawn_as_match. rewrite circle_walked_node. apply drawn_paint_match.
    + rewrite list_lookup_alter_ne in Hj by done.
      destruct (nodeElems g !! j) as [e'|] eqn:Hj'; [|done]. simpl in Hj. injection Hj as <-.
      unfold drawn_as_match at 1. rewrite circle_walked_node.
      change (bool_decide _) with (drawn_as_match e'). rewrite (Hm j e' e2) by done.
      rewrite elem_of_app, list_elem_of_singleton.
      split; [intros [?|?]; [by left; left|by right]|].
      intros [[?|?]|?]; [by left|congruence|by right].
  - intros i' e2 a j e Hin Hi' Ha Hj Hs. rewrite list_lookup_fmap in Hj.
    destruct (alter paint_match i (nodeElems g) !! j) as [e'|] eqn:Hj'; [|done].
    simpl in Hj. injection Hj as <-.
    rewrite datum_walked_node in Hs.
    apply elem_of_app in Hin as [Hin|Hin%list_elem_of_singleton]; [|subst i'].
    + apply undimmed_walked_node.
      destruct (decide (i = j)) as [<-|Hne].
      * rewrite list_lookup_alter_eq, Hi in Hj'. simpl in Hj'. injection Hj' as <-.
        change (undimmed ei). by eapply (Hp i' e2 a i ei).
      * rewrite list_lookup_alter_ne in Hj' by done. by eapply (Hp i' e2 a j e').
    + assert (e2 = e2i) as -> by congruence. rewrite Hdi in Ha.
      by eapply walked_node_ancestor.
  - intros i' e2 a j l Hin Hi' Ha Hj Hs. rewrite list_lookup_fmap in Hj.
    destruct (linkElems g !! j) as [l'|] eqn:Hj'; [|done].
    simpl in Hj. injection Hj as <-. rewrite ldatum_walked_link in Hs.
    apply elem_of_app in Hin as [Hin|Hin%list_elem_of_singleton]; [|subst i'].
    + apply edge_highlighted_walked_link. by eapply (He i' e2 a j l').
    + assert (e2 = e2i) as -> by congruence. rewrite Hdi in Ha.
      by eapply walked_link_edge.
Qed.

Lemma ancestors_parent n :
  ancestors n = match parent n with Some p => p :: ancestors p | None => [] end.
Proof. by destruct n as [? ? ? [p|] ?]. Qed.

Lemma path_edges_parent n :
  path_edges n = match parent n with Some p => n :: path_edges p | None => [] end.
Proof. by destruct n as [? ? ? [p|] ?]. Qed.

Lemma path_edges_spec n : ∀ c,
  c ∈ path_edges n → (c = n ∨ c ∈ ancestors n) ∧ is_Some (parent c).
Proof.
  induction n as [d dep h i|d dep h p i IH] using Node_chain_ind; intros c; simpl.
  - by intros ?%elem_of_nil.
  - intros [->|Hc]%elem_of_cons.
    + split; [by left|by eexists].
    + destruct (IH c Hc) as [[->|Ha] Hp]; (split; [right|done]).
      * apply list_elem_of_here.
      * by apply list_elem_of_further.
Qed.

(** Every ancestor of a node of a hierarchy is a node of that hierarchy. *)
Lemma ancestors_in_hierarchy d (k : nat) : ∀ n,
  n ∈ subtrees (hierarchy d) → length (ancestors (self n)) = k →
  ∀ a, a ∈ ancestors (self n) → ∃ m, m ∈ subtrees (hierarchy d) ∧ self m = a.
Proof.
  induction k as [k IH] using lt_wf_ind. intros n Hn Hk a Ha.
  destruct (parent_in_subtrees d None 0 0 n Hn) as [->|(m & Hm & Hp)].
  - unfold hierarchy in Ha. rewrite self_build in Ha. by apply elem_of_nil in Ha.
  - rewrite ancestors_parent, Hp in Ha, Hk. simpl in Hk.
    apply elem_of_cons in Ha as [->|Ha]; [by exists m|].
    eapply (IH (length (ancestors (self m)))); [lia|exact Hm|done|done].
Qed.

Lemma highlight_nonempty q g0 :
  falsy q = false →
  highlight q g0
  = foldl highlight_one (prepared (toLowerCase q) g0)
          (positions (matches (toLowerCase q)) 0 (nodeElems (prepared (toLowerCase q) g0))).
Proof. intros H. unfold highlight. by rewrite H. Qed.

Lemma highlight_empty q g0 : falsy q = true → highlight q g0 = reset_all g0.
Proof. intros H. unfold highlight. by rewrite H. Qed.

Lemma reset_all_char g :
  reset_all g = mkGraph (reset_link <$> linkElems g) (reset_node <$> nodeElems g).
Proof.
  unfold reset_all, on_links, on_nodes; simpl. f_equal.
  rewrite <-list_fmap_compose. done.
Qed.

Lemma prepared_char lq g :
  prepared lq g
  = mkGraph ((λ l, on_path (style "opacity" "0.3") (reset_link l)) <$> linkElems g)
            (prepared_node lq <$> nodeElems g).
Proof.
  unfold prepared. rewrite reset_all_char. unfold dim_all, on_links, on_nodes; simpl.
  f_equal; by rewrite <-!list_fmap_compose.
Qed.

Lemma datum_prepared_node lq e : datum (prepared_node lq e) = datum e.
Proof. unfold prepared_node. by destruct (matches _ _). Qed.

Lemma not_drawn_reset_node e : drawn_as_match (reset_node e) = false.
Proof.
  unfold drawn_as_match, reset_node; simpl.
  by rewrite !lookup_insert_ne, lookup_insert_eq by done.
Qed.

Lemma not_drawn_prepared_node lq e : drawn_as_match (prepared_node lq e) = false.
Proof.
  unfold prepared_node. destruct (matches _ _); apply not_drawn_reset_node.
Qed.

Lemma matches_datum lq e e' : datum e = datum e' → matches lq e = matches lq e'.
Proof. unfold matches. by intros ->. Qed.

Lemma lookup_fmap_eq {A B} (f : A → B) (l : list A) (k : list B) j y :
  f <$> l = k → k !! j = Some y → ∃ x, l !! j = Some x ∧ f x = y.
Proof.
  intros <- H. rewrite list_lookup_fmap in H.
  destruct (l !! j) as [x|]; [|done]. exists x. split; [done|]. by injection H.
Qed.

Lemma datum_highlight q g0 :
  datum <$> nodeElems (highlight q g0) = datum <$> nodeElems g0 ∧
  ldatum <$> linkElems (highlight q g0) = ldatum <$> linkElems g0.
Proof.
  destruct (falsy q) eqn:Hq.
  - rewrite highlight_empty, reset_all_char by done; simpl.
    by rewrite <-!list_fmap_compose.
  - rewrite highlight_nonempty by done.
    destruct (fold_highlight (prepared (toLowerCase q) g0)
                (positions (matches (toLowerCase q)) 0
                   (nodeElems (prepared (toLowerCase q) g0)))) as (-> & -> & _).
    rewrite prepared_char; simpl. rewrite <-!list_fmap_compose. split; [|done].
    apply list_fmap_ext. intros ? e _. apply datum_prepared_node.
Qed.

(** An element is drawn as a match exactly when the query is not empty
    and its name includes the lower-cased query. *)
Lemma drawn_as_match_highlight q g0 j e :
  nodeElems (highlight q g0) !! j = Some e →
  drawn_as_match e ↔ falsy q = false ∧ matches (toLowerCase q) e.
Proof.
  intros Hj. destruct (falsy q) eqn:Hq.
  - rewrite highlight_empty, reset_all_char in Hj by done. simpl in Hj.
    rewrite list_lookup_fmap in Hj. destruct (nodeElems g0 !! j) as [e0|]; [|done].
    injection Hj as <-. rewrite not_drawn_reset_node. split; [done|]. by intros [? _].
  - rewrite highlight_nonempty in Hj by done.
    set (lq := toLowerCase q) in *. set (g2 := prepared lq g0) in *.
    destruct (fold_highlight g2 (positions (matches lq) 0 (nodeElems g2)))
      as (Hd & _ & Hm & _).
    destruct (lookup_fmap_eq datum _ _ j (datum e) (eq_sym Hd)) as (e2 & Hj2 & He2).
    { by rewrite list_lookup_fmap, Hj. }
    rewrite (Hm j e e2 Hj Hj2), elem_of_positions.
    assert (drawn_as_match e2 = false) as ->.
    { unfold g2 in Hj2. rewrite prepared_char in Hj2. simpl in Hj2.
      rewrite list_lookup_fmap in Hj2. destruct (nodeElems g0 !! j); [|done].
      injection Hj2 as <-. apply not_drawn_prepared_node. }
    rewrite Nat.sub_0_r. split.
    + intros [(e' & _ & He' & Hs)|[]]. split; [done|].
      assert (e' = e2) as -> by congruence. by rewrite (matches_datum _ e e2).
    + intros [_ Hs]. left. exists e2. split; [lia|]. split; [done|].
      by rewrite (matches_datum _ e2 e).
Qed.

Lemma highlight_covers_path
    (d : MindMapNode) (g0 : Graph) (q : string) (i : nat) (e : NodeElem) :
  datum <$> nodeElems g0 = descendants (hierarchy d) →
  ldatum <$> linkElems g0 = links (hierarchy d) →
  nodeElems (highlight q g0) !! i = Some e →
  drawn_as_match e →
  (∀ a, a ∈ ancestors (self (datum e)) →
        node_id a ∈ highlightedPathNodeIds (highlightState (highlight q g0))) ∧
  (∀ c, c ∈ path_edges (self (datum e)) →
        node_id c ∈ highlightedEdgeIds (highlightState (highlight q g0))).
Proof.
  intros Hn Hl Hi Hdrawn.
  pose proof (datum_highlight q g0) as [Hdat Hldat].
  rewrite Hn in Hdat. rewrite Hl in Hldat.
  pose proof (proj1 (drawn_as_match_highlight q g0 i e Hi) Hdrawn) as [Hq _].
  rewrite highlight_nonempty in * by done.
  set (lq := toLowerCase q) in *. set (g2 := prepared lq g0) in *.
  set (ms := positions (matches lq) 0 (nodeElems g2)) in *.
  set (g := foldl highlight_one g2 ms) in *.
  destruct (fold_highlight g2 ms) as (Hd & _ & Hm & Hp & He). fold g in Hd, Hm, Hp, He.
  destruct (lookup_fmap_eq datum _ _ i (datum e) (eq_sym Hd)) as (e2 & Hi2 & He2).
  { by rewrite list_lookup_fmap, Hi. }
  assert (i ∈ ms) as Hin.
  { destruct (proj1 (Hm i e e2 Hi Hi2) Hdrawn) as [?|Hd2]; [done|].
    unfold g2 in Hi2. rewrite prepared_char in Hi2. simpl in Hi2.
    rewrite list_lookup_fmap in Hi2. destruct (nodeElems g0 !! i); [|done].
    injection Hi2 as <-. by rewrite not_drawn_prepared_node in Hd2. }
  assert (datum e ∈ subtrees (hierarchy d)) as Hsub.
  { rewrite <-descendants_subtrees, <-Hdat. apply list_elem_of_fmap_2.
    by eapply list_elem_of_lookup_2. }
  assert (∀ a, a ∈ ancestors (self (datum e)) →
               ∃ m, m ∈ descendants (hierarchy d) ∧ self m = a) as Hanc.
  { intros a Ha. destruct (ancestors_in_hierarchy d _ _ Hsub eq_refl a Ha) as (m & Hm' & <-).
    exists m. by rewrite descendants_subtrees. }
  split.
  - intros a Ha. destruct (Hanc a Ha) as (m & Hmd & <-).
    apply list_elem_of_lookup_1 in Hmd as [j Hj].
    destruct (lookup_fmap_eq datum _ _ j m Hdat Hj) as (e' & Hj' & <-).
    simpl. apply list_elem_of_fmap. exists e'. split; [done|].
    apply list_elem_of_filter. split; [|by eapply list_elem_of_lookup_2].
    eapply (Hp i e2 (self (datum e')) j e'); [done|done| |done|apply same_node_refl].
    by rewrite He2.
  - intros c Hc. destruct (path_edges_spec _ _ Hc) as [Hc' [p Hpar]].
    assert (∃ m, m ∈ descendants (hierarchy d) ∧ self m = c) as (m & Hmd & <-).
    { destruct Hc' as [->|Ha]; [|by apply Hanc].
      exists (datum e). by rewrite descendants_subtrees. }
    assert (mkLink p (self m) ∈ links (hierarchy d)) as Hlink.
    { unfold links. apply elem_of_flat_map. exists m. split; [done|].
      rewrite Hpar. apply list_elem_of_here. }
    apply list_elem_of_lookup_1 in Hlink as [j Hj].
    destruct (lookup_fmap_eq ldatum _ _ j _ Hldat Hj) as (l & Hj' & Hl').
    simpl. apply list_elem_of_fmap. exists l. split.
    { unfold edge_id. by rewrite Hl'. }
    apply list_elem_of_filter. split; [|by eapply list_elem_of_lookup_2].
    eapply (He i e2 (self m) j l); [done|done| |done|].
    + by rewrite He2.
    + rewrite Hl'. apply same_node_refl.
Qed.

Lemma startsWith_spec s : ∀ sub,
  startsWith s sub = true ↔ ∃ post, s = sub +:+ post.
Proof.
  induction s as [|a s IH]; intros [|b sub]; simpl.
  - split; [by exists ""|done].
  - split; [done|]. by intros [post ?].
  - split; [by eexists|done].
  - rewrite andb_true_iff, IH. split.
    + intros [->%Ascii.eqb_eq [post ->]]. by exists post.
    + intros [post [= -> ->]]. split; [apply Ascii.eqb_refl|by exists post].
Qed.

Lemma includes_spec s : ∀ sub,
  includes s sub = true ↔ ∃ pre post, s = pre +:+ sub +:+ post.
Proof.
  induction s as [|a s IH]; intros sub.
  - cbn [includes]. rewrite orb_false_r, startsWith_spec. split.
    + intros [post ->]. by exists "", post.
    + intros ([|??] & post & H); [by exists post|done].
  - cbn [includes]. rewrite orb_true_iff, startsWith_spec, IH. split.
    + intros [[post ->]|(pre & post & ->)]; [by exists "", post|].
      by exists (String a pre), post.
    + intros ([|b pre] & post & H); [left; by exists post|right].
      injection H as -> ->. by exists pre, post.
Qed.


Lemma filter_none {A} (P : A → bool) (l : list A) :
  (∀ x, x ∈ l → P x = false) → filter P l = [].
Proof.
  induction l as [|x l IH]; intros H; [done|].
  rewrite filter_cons. rewrite IH by (intros y Hy; apply H; by right).
  destruct (decide (P x)) as [HP|]; [|done].
  rewrite (H x) in HP by left. done.
Qed.


Lemma datum_node_elems ds : ∀ color, datum <$> node_elems color ds = ds.
Proof.
  induction ds as [|d ds IH]; intros color; simpl; [done|].
  destruct (call color _) as [c color']. simpl. by rewrite IH.
Qed.

Lemma group_node_elems ds : ∀ color e,
  e ∈ node_elems color ds → group e = node_group (datum e).
Proof.
  induction ds as [|d ds IH]; intros color e; simpl; [by intros ?%elem_of_nil|].
  destruct (call color _) as [c color']. intros [->|He]%elem_of_cons; [done|].
  by eapply IH.
Qed.

Lemma datum_render d :
  datum <$> nodeElems (render d) = descendants (hierarchy d) ∧
  ldatum <$> linkElems (render d) = links (hierarchy d).
Proof.
  unfold render; simpl. rewrite datum_node_elems. split; [done|].
  rewrite <-list_fmap_compose. apply list_fmap_id.
Qed.


(** ** The zoom behaviour *)

Section zoom_facts.
Local Open Scope Qc_scope.

Section clamp.
Variables lo hi : Qc.
Hypothesis lo_hi : lo ≤ hi.




End clamp.


Lemma extent_positive : 0 < scaleExtent.1.
Proof. done. Qed.








(** ** The viewport of the component *)



Lemma zoomTransform_renderEffect st :
  zoomTransform (renderEffect st)
  = match data st with Some _ => centering | None => zoomTransform st end.
Proof. unfold renderEffect. by destruct (data st). Qed.






Lemma gRef_mount d w h : gRef (mount (Some d) w h) = Some (render d).
Proof. done. Qed.






End zoom_facts.

(** ** Node identities *)

Lemma node_id_build par dep idx d :
  node_id (self (build par dep idx d))
  = idx :: match par with Some p => node_id p | None => [] end.
Proof. rewrite self_build. by destruct par. Qed.

Lemma subtree_id_suffix d : ∀ par dep idx n,
  n ∈ subtrees (build par dep idx d) →
  node_id (self (build par dep idx d)) `suffix_of` node_id (self n).
Proof.
  induction d as [nm de|nm de cs IH] using MindMapNode_tree_ind; intros par dep idx n Hn.
  - apply subtrees_build_inv in Hn as [->|(j & c & Hc & _)]; [done|by destruct j].
  - apply subtrees_build_inv in Hn as [->|(j & c & Hc & Hn)]; [done|].
    pose proof (Forall_lookup_1 _ _ _ _ IH Hc _ _ _ _ Hn) as Hs.
    rewrite node_id_build in Hs. etrans; [|exact Hs]. by apply suffix_cons_r.
Qed.

Lemma suffix_same_length {A} (l1 l2 l : list A) :
  l1 `suffix_of` l → l2 `suffix_of` l → length l1 = length l2 → l1 = l2.
Proof.
  intros [k1 ->] [k2 H] Hlen.
  assert (length k1 = length k2) as Hk.
  { apply (f_equal length) in H. rewrite !length_app in H. lia. }
  by apply app_inj_1 in H as [_ ?].
Qed.

Lemma NoDup_build_list par dep cs :
  Forall (λ c, ∀ par dep idx,
            NoDup ((λ n, node_id (self n)) <$> subtrees (build par dep idx c))) cs →
  ∀ i, NoDup ((λ n, node_id (self n)) <$> flat_map subtrees (build_list par dep i cs)) ∧
       ∀ n, n ∈ flat_map subtrees (build_list par dep i cs) →
            ∃ j, (i ≤ j)%nat ∧
                 (j :: match par with Some p => node_id p | None => [] end)
                   `suffix_of` node_id (self n).
Proof.
  induction 1 as [|c cs Hc _ IH]; intros i; simpl.
  { split; [constructor|]. by intros n ?%elem_of_nil. }
  destruct (IH (S i)) as [IH1 IH2]. split.
  - rewrite fmap_app. apply list.NoDup_app. split; [apply Hc|]. split; [|done].
    intros x (n & -> & Hn)%list_elem_of_fmap (n' & Hx & Hn')%list_elem_of_fmap.
    apply subtree_id_suffix in Hn. rewrite node_id_build in Hn.
    destruct (IH2 n' Hn') as (j & Hj & Hs). rewrite <-Hx in Hs.
    pose proof (suffix_same_length _ _ _ Hn Hs eq_refl) as E. injection E as ->. lia.
  - intros n [Hn|Hn]%elem_of_app.
    + exists i. split; [done|]. apply subtree_id_suffix in Hn.
      by rewrite node_id_build in Hn.
    + destruct (IH2 n Hn) as (j & Hj & Hs). exists j. split; [lia|done].
Qed.

(** Distinct nodes of a hierarchy have distinct identities. *)
Lemma NoDup_subtree_ids d : ∀ par dep idx,
  NoDup ((λ n, node_id (self n)) <$> subtrees (build par dep idx d)).
Proof.
  induction d as [nm de|nm de cs IH] using MindMapNode_tree_ind; intros par dep idx.
  - rewrite subtrees_eq, kids_build. simpl. apply list.NoDup_singleton.
  - rewrite subtrees_eq, kids_build, fmap_cons.
    destruct (NoDup_build_list
                (Some (mkNode (mkMindMapNode nm de (Some cs)) dep
                              (raw_height (mkMindMapNode nm de (Some cs))) par idx))
                (S dep) cs IH 0%nat) as [H1 H2].
    apply list.NoDup_cons. split; [|done].
    intros (n & Hid & Hn)%list_elem_of_fmap.
    destruct (H2 n Hn) as (j & _ & Hs). rewrite <-Hid, self_build in Hs.
    apply suffix_length in Hs. simpl in Hs. lia.
Qed.

Lemma NoDup_descendant_ids d :
  NoDup ((λ n, node_id (self n)) <$> descendants (hierarchy d)).
Proof. rewrite descendants_subtrees. apply NoDup_subtree_ids. Qed.

(** ** The highlight across events *)

Lemma fmap_filter_view {A V B} (view : A → V) (P : A → bool) (f : A → B)
    (P' : V → bool) (f' : V → B) (l l' : list A) :
  (∀ a, P a = P' (view a)) → (∀ a, f a = f' (view a)) →
  view <$> l = view <$> l' →
  f <$> filter P l = f <$> filter P l'.
Proof.
  intros HP Hf. revert l'. induction l as [|a l IH]; intros [|a' l'] H; try done.
  injection H as Ha Hl. rewrite !filter_cons.
  rewrite (HP a), (HP a'), Ha.
  destruct (decide (P' (view a'))); [|by apply IH].
  rewrite !fmap_cons, (Hf a), (Hf a'), Ha. f_equal. by apply IH.
Qed.

Lemma same_view_highlightState g g' : same_view g g' → highlightState g = highlightState g'.
Proof.
  intros [Hn Hl]. unfold highlightState. f_equal.
  - apply (fmap_filter_view node_view _ _
             (λ v, bool_decide (v.1.2 = Some "#ef4444")) (λ v, node_id (self v.1.1)));
      done.
  - apply (fmap_filter_view node_view _ _
             (λ v, bool_decide (v.2 = Some "1")) (λ v, node_id (self v.1.1)));
      done.
  - apply (fmap_filter_view link_view _ _
             (λ v, bool_decide (v.1.2 = Some "#ef4444") && bool_decide (v.2 = Some "1"))
             (λ v, node_id (target v.1.1)));
      done.
  - apply (fmap_filter_view node_view _ _
             (λ v, bool_decide (v.2 = Some "0.3")) (λ v, node_id (self v.1.1)));
      done.
Qed.

Lemma node_view_prepared lq e :
  node_view (prepared_node lq e)
  = (datum e, Some "#8dd3c7",
     Some (if includes (toLowerCase (name (Hierarchy.data (self (datum e))))) lq
           then "1" else "0.3")).
Proof.
  unfold prepared_node, matches; simpl.
  destruct (includes _ _); unfold node_view; simpl;
    rewrite !lookup_insert_ne, !lookup_insert_eq by done; done.
Qed.

Lemma same_view_prepared lq g g' :
  datum <$> nodeElems g = datum <$> nodeElems g' →
  ldatum <$> linkElems g = ldatum <$> linkElems g' →
  same_view (prepared lq g) (prepared lq g').
Proof.
  intros Hn Hl. rewrite !prepared_char. split; simpl.
  - rewrite <-!list_fmap_compose.
    rewrite (list_fmap_ext (node_view ∘ prepared_node lq)
               ((λ d, (d, Some "#8dd3c7",
                       Some (if includes (toLowerCase (name (Hierarchy.data (self d)))) lq
                             then "1" else "0.3"))) ∘ datum) (nodeElems g))
      by (intros; apply node_view_prepared).
    rewrite (list_fmap_ext (node_view ∘ prepared_node lq)
               ((λ d, (d, Some "#8dd3c7",
                       Some (if includes (toLowerCase (name (Hierarchy.data (self d)))) lq
                             then "1" else "0.3"))) ∘ datum) (nodeElems g'))
      by (intros; apply node_view_prepared).
    by rewrite !list_fmap_compose, Hn.
  - rewrite <-!list_fmap_compose.
    assert (∀ l, link_view (on_path (style "opacity" "0.3") (reset_link l))
                 = (ldatum l, Some "#cbd5e1", Some "0.3")) as Hv.
    { intros l. unfold link_view; simpl.
      by rewrite lookup_insert_ne, !lookup_insert_eq by done. }
    rewrite (list_fmap_ext _ ((λ d, (d, Some "#cbd5e1", Some "0.3")) ∘ ldatum) (linkElems g))
      by (intros; apply Hv).
    rewrite (list_fmap_ext (link_view ∘ _)
               ((λ d, (d, Some "#cbd5e1", Some "0.3")) ∘ ldatum) (linkElems g'))
      by (intros; apply Hv).
    by rewrite !list_fmap_compose, Hl.
Qed.

Lemma positions_fmap {A V} (view : A → V) (sel : A → bool) (sel' : V → bool) (l : list A) :
  (∀ a, sel a = sel' (view a)) → ∀ i, positions sel i l = positions sel' i (view <$> l).
Proof.
  intros H. induction l as [|a l IH]; intros i; simpl; [done|].
  by rewrite H, !IH.
Qed.

Lemma node_view_walked c e :
  node_view (walked_node c e)
  = ((node_view e).1.1, (node_view e).1.2,
     if existsb (same_node (self (node_view e).1.1)) (ancestors c)
     then Some "1" else (node_view e).2).
Proof.
  unfold walked_node, node_view; simpl. destruct (existsb _ _); [|done].
  simpl. by rewrite lookup_insert_eq.
Qed.

Lemma link_view_walked c l :
  link_view (walked_link c l)
  = ((link_view l).1.1,
     (if existsb (same_node (target (link_view l).1.1)) (path_edges c)
      then Some "#ef4444" else (link_view l).1.2),
     if existsb (same_node (target (link_view l).1.1)) (path_edges c)
     then Some "1" else (link_view l).2).
Proof.
  unfold walked_link, link_view; simpl. destruct (existsb _ _); [|done].
  simpl. by rewrite lookup_insert_ne, !lookup_insert_eq by done.
Qed.

Lemma node_view_paint e :
  node_view (paint_match e) = ((node_view e).1.1, Some "#ef4444", (node_view e).2).
Proof.
  unfold paint_match, node_view; simpl.
  by rewrite !lookup_insert_ne, lookup_insert_eq by done.
Qed.

Lemma same_view_highlight_one g g' i :
  same_view g g' → same_view (highlight_one g i) (highlight_one g' i).
Proof.
  intros [Hn Hl].
  pose proof (f_equal (λ l, l !! i) Hn) as Hi. simpl in Hi. rewrite !list_lookup_fmap in Hi.
  destruct (nodeElems g !! i) as [e|] eqn:He; destruct (nodeElems g' !! i) as [e'|] eqn:He';
    try done.
  2:{ unfold highlight_one. by rewrite He, He'. }
  injection Hi as Hd _ _.
  rewrite (highlight_one_char _ _ _ He), (highlight_one_char _ _ _ He'), Hd.
  set (c := self (datum e')). split; simpl.
  - rewrite <-!list_fmap_compose.
    rewrite (list_fmap_ext (node_view ∘ walked_node c)
               ((λ v, (v.1.1, v.1.2,
                       if existsb (same_node (self v.1.1)) (ancestors c)
                       then Some "1" else v.2)) ∘ node_view)
               (alter paint_match i (nodeElems g)))
      by (intros; apply node_view_walked).
    rewrite (list_fmap_ext (node_view ∘ walked_node c)
               ((λ v, (v.1.1, v.1.2,
                       if existsb (same_node (self v.1.1)) (ancestors c)
                       then Some "1" else v.2)) ∘ node_view)
               (alter paint_match i (nodeElems g')))
      by (intros; apply node_view_walked).
    rewrite !list_fmap_compose. f_equal.
    rewrite !(list_fmap_alter node_view paint_match
                (λ v, (v.1.1, Some "#ef4444", v.2)))
      by (apply Forall_true; intros; apply node_view_paint).
    by rewrite Hn.
  - rewrite <-!list_fmap_compose.
    rewrite (list_fmap_ext (link_view ∘ walked_link c)
               ((λ v, (v.1.1,
                       (if existsb (same_node (target v.1.1)) (path_edges c)
                        then Some "#ef4444" else v.1.2),
                       if existsb (same_node (target v.1.1)) (path_edges c)
                       then Some "1" else v.2)) ∘ link_view)
               (linkElems g))
      by (intros; apply link_view_walked).
    rewrite (list_fmap_ext (link_view ∘ walked_link c)
               ((λ v, (v.1.1,
                       (if existsb (same_node (target v.1.1)) (path_edges c)
                        then Some "#ef4444" else v.1.2),
                       if existsb (same_node (target v.1.1)) (path_edges c)
                       then Some "1" else v.2)) ∘ link_view)
               (linkElems g'))
      by (intros; apply link_view_walked).
    by rewrite !list_fmap_compose, Hl.
Qed.

Lemma same_view_fold ms : ∀ g g',
  same_view g g' → same_view (foldl highlight_one g ms) (foldl highlight_one g' ms).
Proof.
  induction ms as [|i ms IH]; intros g g' H; [done|].
  simpl. by apply IH, same_view_highlight_one.
Qed.

(** For a query that is not empty, the highlight the search effect leaves
    depends on the data bound to the elements only, not on how they were
    styled before. *)
Lemma highlight_depends_on_data q g g' :
  falsy q = false →
  datum <$> nodeElems g = datum <$> nodeElems g' →
  ldatum <$> linkElems g = ldatum <$> linkElems g' →
  highlightState (highlight q g) = highlightState (highlight q g').
Proof.
  intros Hq Hn Hl. apply same_view_highlightState.
  rewrite !highlight_nonempty by done.
  pose proof (same_view_prepared (toLowerCase q) g g' Hn Hl) as Hp.
  rewrite (positions_fmap node_view (matches (toLowerCase q))
             (λ v, includes (toLowerCase (name (Hierarchy.data (self v.1.1)))) (toLowerCase q))
             (nodeElems (prepared (toLowerCase q) g))) by done.
  rewrite (positions_fmap node_view (matches (toLowerCase q))
             (λ v, includes (toLowerCase (name (Hierarchy.data (self v.1.1)))) (toLowerCase q))
             (nodeElems (prepared (toLowerCase q) g'))) by done.
  rewrite (proj1 Hp). by apply same_view_fold.
Qed.

Lemma drawn_for_renderEffect st : drawn_for st → drawn_for (renderEffect st).
Proof.
  unfold drawn_for, renderEffect. destruct (data st) as [d|] eqn:Hd; simpl.
  - intros _. exists (render d). split; [done|apply datum_render].
  - by rewrite Hd.
Qed.

Lemma datum_on_this (f : NodeElem → NodeElem) i g :
  (∀ e, datum (f e) = datum e) →
  datum <$> nodeElems (on_this i f g) = datum <$> nodeElems g.
Proof.
  intros Hf. simpl. apply list_eq; intros j. rewrite !list_lookup_fmap.
  destruct (decide (i = j)) as [<-|Hne].
  - rewrite list_lookup_alter_eq. destruct (nodeElems g !! i); simpl; [by rewrite Hf|done].
  - by rewrite list_lookup_alter_ne.
Qed.

Lemma drawn_for_step st ev : drawn_for st → drawn_for (step st ev).
Proof.
  intros H. destruct ev as [d| |w h|q|i|i| | |f p|p0 p]; simpl.
  - unfold drawn_for; simpl. exists (render d). split; [done|apply datum_render].
  - by apply drawn_for_renderEffect.
  - by apply drawn_for_renderEffect.
  - destruct (String.eqb q (searchQuery st)); [done|].
    unfold drawn_for, searchEffect in *; simpl.
    destruct (data st) as [d|] eqn:Hd.
    + destruct H as (g & -> & Hn & Hl). simpl.
      exists (highlight q g). split; [done|].
      destruct (datum_highlight q g) as [-> ->]. done.
    + rewrite H. simpl. by rewrite ?Hd.
  - unfold drawn_for, with_graph in *; simpl. destruct (data st) as [d|].
    + destruct H as (g & -> & Hn & Hl). simpl. eexists; split; [done|].
      by rewrite datum_on_this.
    + by rewrite H.
  - unfold drawn_for, with_graph in *; simpl. destruct (data st) as [d|].
    + destruct H as (g & -> & Hn & Hl). simpl. eexists; split; [done|].
      by rewrite datum_on_this.
    + by rewrite H.
  - unfold handleZoom. destruct (gRef st) eqn:Hg; [|done].
    unfold drawn_for in *; simpl. by rewrite Hg in H.
  - unfold handleZoom. destruct (gRef st) eqn:Hg; [|done].
    unfold drawn_for in *; simpl. by rewrite Hg in H.
  - unfold with_zoom. destruct (gRef st) eqn:Hg; [|done].
    unfold drawn_for in *; simpl. by rewrite Hg in H.
  - unfold with_zoom. destruct (gRef st) eqn:Hg; [|done].
    unfold drawn_for in *; simpl. by rewrite Hg in H.
Qed.

Lemma drawn_for_mount d w h : drawn_for (mount d w h).
Proof.
  unfold mount. apply drawn_for_renderEffect.
  destruct d as [d|]; [|done].
  unfold drawn_for; simpl. eexists; split; [done|].
  destruct (datum_highlight "" (render d)) as [-> ->]. apply datum_render.
Qed.

Lemma drawn_for_run evs : ∀ st, drawn_for st → drawn_for (run st evs).
Proof.
  induction evs as [|ev evs IH]; intros st H; [done|].
  apply IH. by apply drawn_for_step.
Qed.

(** After a change to a query that is not empty, the highlight shown is
    the one computed from the current tree and that query. *)
Lemma typed_query_recomputes st d q :
  drawn_for st → data st = Some d → falsy q = false → q ≠ searchQuery st →
  shown (step st (QueryTyped q)) = recomputed d q.
Proof.
  intros H Hd Hq Hne. simpl.
  destruct (String.eqb q (searchQuery st)) eqn:E; [by apply String.eqb_eq in E|].
  unfold drawn_for in H. rewrite Hd in H. destruct H as (g & Hg & Hn & Hl).
  unfold shown, searchEffect; simpl. rewrite Hg; simpl.
  unfold recomputed. apply highlight_depends_on_data; [done|..].
  - rewrite Hn. symmetry. apply datum_render.
  - rewrite Hl. symmetry. apply datum_render.
Qed.

Lemma call_in_range color key :
  range color ≠ [] → (call color key).1 ∈ range color ∧ range (call color key).2 = range color.
Proof.
  intros Hr. unfold call.
  assert (∀ i, nth (i mod length (range color)) (range color) "" ∈ range color) as Hnth.
  { intros i. apply list_elem_of_In, nth_In, Nat.mod_upper_bound.
    by destruct (range color). }
  destruct (index_of key (domain color)); simpl; split; try done; apply Hnth.
Qed.

Lemma fill_node_elems ds : ∀ color e,
  range color = schemeSet3 → e ∈ node_elems color ds →
  ∃ c, c ∈ schemeSet3 ∧ attrs (circle e) !! "fill" = Some c.
Proof.
  induction ds as [|d ds IH]; intros color e Hr; simpl; [by intros ?%elem_of_nil|].
  destruct (call_in_range color (pretty (depth (self d)))) as [Hc Hr']; [by rewrite Hr|].
  destruct (call color _) as [c color']. simpl in *.
  intros [->|He]%elem_of_cons.
  - exists c. split; [by rewrite <-Hr|]. simpl.
    by rewrite !lookup_insert_ne, lookup_insert_eq by done.
  - apply (IH color'); [congruence|done].
Qed.

(** A graph fresh from the render effect carries no highlight. *)
Lemma highlightState_render d : highlightState (render d) = emptyHighlight.
Proof.
  unfold highlightState, emptyHighlight, render; simpl.
  rewrite !filter_none; [done|..].
  - intros e He. unfold dimmed. by rewrite (group_node_elems _ _ _ He).
  - intros l (k & -> & _)%list_elem_of_fmap. done.
  - intros e He. unfold undimmed. by rewrite (group_node_elems _ _ _ He).
  - intros e He. destruct (fill_node_elems _ (scaleOrdinal schemeSet3) e eq_refl He) as (c & Hc & Hf).
    unfold drawn_as_match. rewrite Hf. apply bool_decide_false. intros [= ->].
    assert ("#ef4444" ∉ schemeSet3) as Hnot
      by (apply (bool_decide_unpack _); vm_compute; exact I).
    done.
Qed.

(** Every run of the render effect wipes the highlight, whatever the
    query. *)
Lemma rebuild_wipes_highlight st d : shown (step st (DataChanged d)) = emptyHighlight.
Proof. apply highlightState_render. Qed.

(** ** The claims on the hierarchy and the search *)

Lemma kids_data_built n par dep idx d :
  n = build par dep idx d →
  (λ k, Hierarchy.data (self k)) <$> kids n = raw_children (Hierarchy.data (self n)).
Proof. intros ->. by rewrite kids_build, self_build, data_build_list. Qed.

(** C1 (as amended). Every rebuild of the drawing, for a new input tree or
    after a resize, ends in the centering transform, whatever the viewport
    was before; the first load ends in the same transform.  Without data a
    resize draws nothing and leaves the viewport as it is. *)
Theorem rebuild_recenters_viewport (st : State) :
  (∀ d, zoomTransform (step st (DataChanged d)) = centering) ∧
  (∀ w h, zoomTransform (step st (Resized w h))
          = match data st with Some _ => centering | None => zoomTransform st end) ∧
  (∀ d w h, zoomTransform (mount (Some d) w h) = centering).
Proof.
  split; [done|]. split; [|done].
  intros w h. simpl. by rewrite zoomTransform_renderEffect.
Qed.

(** C1 fails as stated: after a zoom-in, resizing the container from
    800x600 to 400x300 leaves a viewport other than the one before. *)
Lemma resize_resets_viewport :
  let st := run (mount (Some physics) 800 600) [ZoomInClicked] in
  zoomTransform (step st (Resized 400 300)) ≠ zoomTransform st.
Proof.
  intros st H. apply (f_equal (λ t, Qcanon.this (k t))) in H.
  vm_compute in H. discriminate H.
Qed.

(** C2 (as amended). No depth bound is enforced: every raw node, at any
    depth, has a node element drawn for it, carrying that raw node and its
    depth in the input tree. *)
Theorem hierarchy_has_no_depth_bound (d : MindMapNode) (p : list nat) (r : MindMapNode) :
  raw_at d p = Some r →
  ∃ e, e ∈ nodeElems (render d) ∧
       Hierarchy.data (self (datum e)) = r ∧ depth (self (datum e)) = length p.
Proof.
  intros Hr. destruct (raw_at_built d None 0 0 p r Hr) as (n & Hn & Hd & Hdep).
  rewrite <-(descendants_subtrees (hierarchy d)) in Hn.
  destruct (datum_render d) as [Hdat _].
  rewrite <-Hdat in Hn. apply list_elem_of_fmap in Hn as (e & -> & He).
  by exists e.
Qed.

Lemma hierarchy_has_no_depth_bound_witness :
  ∃ e, e ∈ nodeElems (render (chain 65)) ∧
       Hierarchy.data (self (datum e)) = leaf "end" ∧ depth (self (datum e)) = 65%nat.
Proof.
  apply (hierarchy_has_no_depth_bound (chain 65) (replicate 65 0%nat) (leaf "end")).
  vm_compute. reflexivity.
Defined.

(** C2 fails as stated: a chain 65 levels deep is drawn whole, its 66
    nodes at depths 0 to 65. *)
Lemma deep_tree_is_drawn_untruncated :
  ∃ g, gRef (mount (Some (chain 65)) 800 600) = Some g ∧
       (λ e, depth (self (datum e))) <$> nodeElems g = seq 0 66.
Proof.
  exists (render (chain 65)). split; [apply gRef_mount|].
  vm_compute. reflexivity.
Qed.

(** C3 (as amended). Building the hierarchy succeeds for every input,
    whatever the name of its root: the root node carries the input, there
    is one hierarchy node per raw node, the children of every node carry
    the raw children in input order, and mounting draws one element per
    node. *)
Theorem hierarchy_one_node_per_raw_node (d : MindMapNode) :
  Hierarchy.data (self (hierarchy d)) = d ∧
  length (descendants (hierarchy d)) = raw_size d ∧
  Forall (λ n, (λ k, Hierarchy.data (self k)) <$> kids n
               = raw_children (Hierarchy.data (self n)))
         (descendants (hierarchy d)) ∧
  (∀ w h, ∃ g, gRef (mount (Some d) w h) = Some g ∧
               datum <$> nodeElems g = descendants (hierarchy d)).
Proof.
  split; [apply (f_equal Hierarchy.data (self_build None 0 0 d))|].
  split; [apply length_descendants|]. split.
  - apply Forall_lookup_2. intros j n Hj.
    apply list_elem_of_lookup_2 in Hj. rewrite descendants_subtrees in Hj.
    destruct (subtrees_are_built _ _ _ _ _ Hj) as (par & dep & idx & d' & Hn).
    by eapply kids_data_built.
  - intros w h. exists (render d). split; [done|apply datum_render].
Qed.

(** C3 fails as stated: a tree whose root has an empty name is built and
    drawn, root included. *)
Lemma empty_root_name_is_drawn :
  name unnamed = "" ∧
  ∃ g, gRef (mount (Some unnamed) 800 600) = Some g ∧
       (λ e, name (Hierarchy.data (self (datum e)))) <$> nodeElems g = [""; "Optics"].
Proof.
  split; [done|]. exists (render unnamed). split; [done|]. vm_compute. reflexivity.
Qed.

(** C4, evaluated. With the query "kine" typed, a new tree is drawn with
    no highlight at all although the query is still "kine", where the
    highlight computed from the new tree and the query marks two matches;
    and after the query is cleared the nodes dimmed for it stay dimmed. *)
Lemma highlight_lost_after_tree_change :
  let st := run (mount (Some physics) 800 600) [QueryTyped "kine"; DataChanged physics'] in
  let st' := run (mount (Some physics) 800 600) [QueryTyped "kine"; QueryTyped ""] in
  searchQuery st = "kine" ∧
  shown st = emptyHighlight ∧
  names_of (render physics') (matchedNodeIds (recomputed physics' "kine"))
    = ["Kinematics"; "Kinetic energy"] ∧
  searchQuery st' = "" ∧
  dimmedNodeIds (shown st') = [[1; 0]]%nat ∧
  dimmedNodeIds (recomputed physics "") = [].
Proof. vm_compute. repeat split. Qed.

(** C8, evaluated. With "kine" typed, the matching node has a dark red
    stroke and a bold label; after the pointer enters and leaves it, the
    stroke is the default grey and the label has normal weight.  The
    highlight state read off the graph is the same before and after. *)
Lemma hover_drops_match_style :
  let st := run (mount (Some physics) 800 600) [QueryTyped "kine"] in
  let st' := run st [MouseOver 3; MouseOut 3] in
  stroke_and_weight st 3 = Some (Some "#b91c1c", Some "bold") ∧
  stroke_and_weight st' 3 = Some (Some "#94a3b8", Some "normal") ∧
  shown st' = shown st.
Proof. vm_compute. repeat split. Qed.

(** C5. In a graph drawn for a tree, after the search effect has run for
    a query: for every node whose name matches the query, every ancestor
    of the node, up to the root, is among the un-dimmed nodes, and every
    edge on the way from the node to the root is among the highlighted
    edges, whether or not the ancestors match themselves. *)
Theorem match_path_highlighted
    (d : MindMapNode) (g0 : Graph) (q : string) (i : nat) (e : NodeElem) :
  datum <$> nodeElems g0 = descendants (hierarchy d) →
  ldatum <$> linkElems g0 = links (hierarchy d) →
  nodeElems (highlight q g0) !! i = Some e →
  name_matches q (datum e) →
  Forall (λ a, node_id a ∈ highlightedPathNodeIds (highlightState (highlight q g0)))
         (ancestors (self (datum e))) ∧
  Forall (λ c, node_id c ∈ highlightedEdgeIds (highlightState (highlight q g0)))
         (path_edges (self (datum e))).
Proof.
  intros Hn Hl Hi Hmatch.
  assert (drawn_as_match e) as Hdrawn.
  { apply (drawn_as_match_highlight q g0 i e Hi).
    unfold name_matches in Hmatch. apply andb_True in Hmatch as [Hq Hm].
    split; [by destruct (falsy q)|done]. }
  destruct (highlight_covers_path d g0 q i e Hn Hl Hi Hdrawn) as [Ha Hc].
  split; apply Forall_lookup_2; intros j x Hj.
  - apply Ha. by eapply list_elem_of_lookup_2.
  - apply Hc. by eapply list_elem_of_lookup_2.
Qed.

Lemma match_path_highlighted_witness :
  ∃ e, nodeElems (highlight "kine" (render physics)) !! 3%nat = Some e ∧
       name (Hierarchy.data (self (datum e))) = "Kinematics" ∧
       Forall (λ a, node_id a ∈ highlightedPathNodeIds (recomputed physics "kine"))
              (ancestors (self (datum e))) ∧
       Forall (λ c, node_id c ∈ highlightedEdgeIds (recomputed physics "kine"))
              (path_edges (self (datum e))).
Proof.
  eexists. split; [vm_compute; reflexivity|]. split; [reflexivity|].
  apply (match_path_highlighted physics (render physics) "kine" 3).
  - vm_compute. reflexivity.
  - vm_compute. reflexivity.
  - vm_compute. reflexivity.
  - vm_compute. exact I.
Defined.


(** * Further properties *)

Import Drawing.

(** ** More on the hierarchy *)

Lemma ancestors_self_build par dep idx d :
  ancestors (self (build par dep idx d))
  = match par with Some p => p :: ancestors p | None => [] end.
Proof. rewrite self_build. by destruct par. Qed.

Lemma built_depth par dep idx d : depth (self (build par dep idx d)) = dep.
Proof. by rewrite self_build. Qed.

Lemma depth_subtrees d : ∀ par dep idx n,
  dep = length (ancestors (self (build par dep idx d))) →
  n ∈ subtrees (build par dep idx d) →
  depth (self n) = length (ancestors (self n)).
Proof.
  induction d as [nm de|nm de cs IH] using MindMapNode_tree_ind;
    intros par dep idx n Hdep Hn.
  - apply subtrees_build_inv in Hn as [->|(j & c & Hc & _)]; [|by destruct j].
    by rewrite built_depth.
  - apply subtrees_build_inv in Hn as [->|(j & c & Hc & Hn)].
    + by rewrite built_depth.
    + eapply (Forall_lookup_1 _ _ _ _ IH Hc); [|done].
      rewrite (ancestors_self_build (Some _)). cbn [length]. by f_equal.
Qed.

Lemma built_kids dep l :
  Forall (λ n, ∃ par idx d, n = build par dep idx d) l →
  Forall (λ n, ∃ par idx d, n = build par (S dep) idx d) (flat_map kids l).
Proof.
  intros H. apply Forall_lookup_2. intros i0 k Hk%list_elem_of_lookup_2.
  apply elem_of_flat_map in Hk as (n & Hn & Hk).
  apply list_elem_of_lookup in Hn as [i Hi].
  rewrite Forall_lookup in H.
  destruct (H _ _ Hi) as (par & idx & d & ->).
  rewrite kids_build in Hk. apply elem_of_build_list in Hk as (j & c & _ & ->). eauto.
Qed.

(** Counting the links. *)
Lemma length_flat_map_sum {A B} (f : A → list B) (l : list A) :
  length (flat_map f l) = sum_list_with (λ a, length (f a)) l.
Proof. induction l as [|a l IH]; simpl; [done|]. by rewrite length_app, IH. Qed.

Lemma sum_flat_map {A B} (g : B → nat) (f : A → list B) (l : list A) :
  sum_list_with g (flat_map f l) = sum_list_with (λ a, sum_list_with g (f a)) l.
Proof. induction l as [|a l IH]; simpl; [done|]. by rewrite sum_list_with_app, IH. Qed.

Lemma sum_list_with_eq {A} (f g : A → nat) (l : list A) :
  (∀ a, f a = g a) → sum_list_with f l = sum_list_with g l.
Proof. intros H. induction l as [|a l IH]; simpl; [done|]. by rewrite H, IH. Qed.

Lemma raw_size_pos d : (1 ≤ raw_size d)%nat.
Proof. rewrite raw_size_eq. lia. Qed.

Lemma count_parents_list (me : Node) dep cs :
  Forall (λ c, ∀ par dep idx,
            (sum_list_with (λ n, match parent (self n) with Some _ => 1 | None => 0 end)
                           (subtrees (build par dep idx c))
             + match par with Some _ => 0 | None => 1 end = raw_size c)%nat) cs →
  ∀ i, sum_list_with (λ n, match parent (self n) with Some _ => 1 | None => 0 end)
                     (flat_map subtrees (build_list (Some me) dep i cs))
       = sum_list_with raw_size cs.
Proof.
  induction 1 as [|c cs Hc _ IH]; intros i; [done|].
  cbn [build_list flat_map sum_list_with]. rewrite sum_list_with_app, IH.
  specialize (Hc (Some me) dep i). simpl in Hc. lia.
Qed.

Lemma count_parents d : ∀ par dep idx,
  (sum_list_with (λ n, match parent (self n) with Some _ => 1 | None => 0 end)
                 (subtrees (build par dep idx d))
   + match par with Some _ => 0 | None => 1 end = raw_size d)%nat.
Proof.
  induction d as [nm de|nm de cs IH] using MindMapNode_tree_ind; intros par dep idx.
  - simpl. destruct par; lia.
  - rewrite subtrees_eq, kids_build, raw_size_eq. cbn [sum_list_with].
    rewrite (count_parents_list _ _ _ IH), self_build. cbn [parent raw_children children].
    destruct par; lia.
Qed.

Lemma length_links d : S (length (links (hierarchy d))) = raw_size d.
Proof.
  unfold links. rewrite length_flat_map_sum.
  rewrite (sum_list_with_Permutation_proper _ _ _ (descendants_subtrees _)).
  rewrite <-(count_parents d None 0 0). unfold hierarchy.
  rewrite Nat.add_1_r. f_equal. apply sum_list_with_eq.
  intros n. by destruct (parent (self n)).
Qed.

(** Breadth-first order. *)
Lemma constant_sorted {A} (f : A → nat) (k : nat) (l : list A) :
  Forall (λ a, f a = k) l → StronglySorted (λ a b, f a ≤ f b)%nat l.
Proof.
  induction 1 as [|a l Ha Hl IH]; constructor; [done|].
  eapply Forall_impl; [exact Hl|]. intros b Hb; simpl in *. lia.
Qed.

Lemma levels_sorted fuel : ∀ current dep,
  Forall (λ n, ∃ par idx d, n = build par dep idx d) current →
  StronglySorted (λ a b, depth (self a) ≤ depth (self b))%nat (levels fuel current) ∧
  Forall (λ n, dep ≤ depth (self n))%nat (levels fuel current).
Proof.
  induction fuel as [|f IH]; intros current dep Hc.
  { destruct current; simpl; split; constructor. }
  destruct current as [|h l]; [simpl; split; constructor|].
  change (levels (S f) (h :: l)) with ((h :: l) ++ levels f (flat_map kids (h :: l))).
  destruct (IH _ _ (built_kids _ _ Hc)) as [IHs IHd].
  assert (Forall (λ n, depth (self n) = dep) (h :: l)) as Hdep.
  { eapply Forall_impl; [exact Hc|]. intros n (par & idx & d & ->). apply built_depth. }
  split.
  - apply StronglySorted_app_2; [|by eapply constant_sorted|done].
    intros x1 x2 H1 H2.
    rewrite list.Forall_forall in Hdep. rewrite (Hdep x1 H1).
    rewrite list.Forall_forall in IHd. specialize (IHd x2 H2). simpl in IHd. lia.
  - apply Forall_app; split.
    + eapply Forall_impl; [exact Hdep|]. intros n ?; simpl in *. lia.
    + eapply Forall_impl; [exact IHd|]. intros n ?; simpl in *. lia.
Qed.

Lemma descendants_sorted d :
  StronglySorted (λ a b, depth (self a) ≤ depth (self b))%nat (descendants (hierarchy d)).
Proof.
  apply (levels_sorted _ _ 0%nat). constructor; [|constructor]. unfold hierarchy; eauto.
Qed.

Lemma descendants_head h : head (descendants h) = Some h.
Proof. unfold descendants. by rewrite size_eq. Qed.

(** The colour scale of the render effect. *)
Lemma index_of_seq (k m : nat) : ∀ a,
  index_of (pretty k) (pretty <$> seq a m)
  = if decide (a ≤ k < a + m)%nat then Some (k - a)%nat else None.
Proof.
  induction m as [|m IH]; intros a; simpl.
  - case_decide; [lia|done].
  - destruct (String.eqb (pretty a) (pretty k)) eqn:E.
    + apply String.eqb_eq, (inj pretty) in E as ->.
      rewrite decide_True by lia. f_equal. lia.
    + apply String.eqb_neq in E. assert (a ≠ k) by congruence.
      rewrite IH. repeat case_decide; try lia; simpl; [|done]. f_equal. lia.
Qed.

Lemma scheme_lookup (k : nat) :
  Some (nth (k mod 12) schemeSet3 "") = schemeSet3 !! (k mod 12)%nat.
Proof.
  pose proof (Nat.mod_upper_bound k 12 ltac:(done)) as Hk.
  destruct (lookup_lt_is_Some_2 schemeSet3 (k mod 12)%nat Hk) as [c Hc].
  rewrite Hc. f_equal. by apply nth_lookup_Some.
Qed.

Lemma call_seq (color : Ordinal) (k : nat) :
  range color = schemeSet3 →
  (domain color = pretty <$> seq 0 k ∨ domain color = pretty <$> seq 0 (S k)) →
  Some (call color (pretty k)).1 = schemeSet3 !! (k mod 12)%nat ∧
  range (call color (pretty k)).2 = schemeSet3 ∧
  domain (call color (pretty k)).2 = pretty <$> seq 0 (S k).
Proof.
  intros Hr [Hd|Hd]; unfold call; rewrite Hd, index_of_seq, Hr.
  - rewrite decide_False by lia. cbn [fst snd domain range].
    rewrite length_fmap, length_seq. change (length schemeSet3) with 12%nat.
    split; [apply scheme_lookup|]. split; [done|].
    rewrite seq_S, fmap_app. done.
  - rewrite decide_True by lia. cbn [fst snd]. rewrite Nat.sub_0_r.
    change (length schemeSet3) with 12%nat.
    split; [apply scheme_lookup|]. by rewrite Hr, Hd.
Qed.

Lemma node_elems_block (l1 : list HierarchyNode) (dep : nat) : ∀ (l2 : list HierarchyNode) color,
  Forall (λ n, depth (self n) = dep) l1 → l1 ≠ [] →
  range color = schemeSet3 →
  (domain color = pretty <$> seq 0 dep ∨ domain color = pretty <$> seq 0 (S dep)) →
  ∃ color',
    node_elems color (l1 ++ l2) = node_elems color l1 ++ node_elems color' l2 ∧
    range color' = schemeSet3 ∧ domain color' = pretty <$> seq 0 (S dep) ∧
    Forall depth_fill (node_elems color l1).
Proof.
  induction l1 as [|n l1 IH]; intros l2 color Hdep Hne Hr Hd; [done|].
  apply Forall_cons in Hdep as [Hn Hdep].
  destruct (call_seq color dep Hr Hd) as (Hc & Hr' & Hd').
  cbn [app node_elems]. rewrite Hn.
  destruct (call color (pretty dep)) as [c color1] eqn:Ec. cbn [fst snd] in *.
  destruct l1 as [|n' l1].
  - exists color1. cbn [app node_elems]. repeat split; try done.
    constructor; [|constructor]. unfold depth_fill; cbn [datum circle]. rewrite Hn, <-Hc.
    unfold node_circle, attr; simpl. by rewrite lookup_insert_ne, lookup_insert_ne, lookup_insert_eq.
  - destruct (IH l2 color1 Hdep ltac:(done) Hr' (or_intror Hd')) as (color' & E & ? & ? & HF).
    exists color'. rewrite E. repeat split; try done.
    constructor; [|done]. unfold depth_fill; cbn [datum circle]. rewrite Hn, <-Hc.
    unfold node_circle, attr; simpl. by rewrite lookup_insert_ne, lookup_insert_ne, lookup_insert_eq.
Qed.

Lemma node_elems_levels fuel : ∀ current dep color,
  Forall (λ n, ∃ par idx d, n = build par dep idx d) current →
  range color = schemeSet3 →
  (domain color = pretty <$> seq 0 dep ∨ domain color = pretty <$> seq 0 (S dep)) →
  Forall depth_fill (node_elems color (levels fuel current)).
Proof.
  induction fuel as [|f IH]; intros current dep color Hc Hr Hd.
  { destruct current; constructor. }
  destruct current as [|h l]; [constructor|].
  change (levels (S f) (h :: l)) with ((h :: l) ++ levels f (flat_map kids (h :: l))).
  assert (Forall (λ n, depth (self n) = dep) (h :: l)) as Hdep.
  { eapply Forall_impl; [exact Hc|]. intros n (par & idx & d & ->). apply built_depth. }
  destruct (node_elems_block (h :: l) dep (levels f (flat_map kids (h :: l))) color
              Hdep ltac:(done) Hr Hd) as (color' & -> & Hr' & Hd' & HF).
  apply Forall_app; split; [done|].
  apply (IH _ (S dep)); [by apply built_kids|done|by left].
Qed.

Lemma render_fill d : Forall depth_fill (nodeElems (render d)).
Proof.
  apply (node_elems_levels _ _ 0%nat); [|done|by left].
  constructor; [|constructor]. unfold hierarchy; eauto.
Qed.

Lemma descendants_cons h : ∃ rest, descendants h = h :: rest.
Proof. unfold descendants. rewrite size_eq. cbn [levels app]. eauto. Qed.

Lemma non_root_has_parent par dep idx d n :
  n ∈ flat_map subtrees (kids (build par dep idx d)) → is_Some (parent (self n)).
Proof.
  rewrite kids_build. intros (k & Hk & Hn)%elem_of_flat_map.
  apply elem_of_build_list in Hk as (j & c & _ & ->).
  apply parent_in_subtrees in Hn as [->|(m & _ & ->)]; [|done].
  by rewrite self_build.
Qed.

Lemma links_of_tail (l : list HierarchyNode) :
  Forall (λ n, is_Some (parent (self n))) l →
  target <$> flat_map (λ n, match parent (self n) with
                            | Some p => [mkLink p (self n)]
                            | None => []
                            end) l
  = self <$> l.
Proof.
  induction 1 as [|n l [p Hp] _ IH]; [done|].
  cbn [flat_map]. rewrite Hp. cbn [app fmap list_fmap target]. f_equal. exact IH.
Qed.

(** X1. [root.links()] has one link per node other than the root, in the
    order of [root.descendants()]: the targets of the links are the
    descendants without the first, the source of every link is the parent
    of its target, a tree of [n] raw nodes gives [n - 1] links, and the
    render effect draws one path for each. *)
Theorem links_one_per_non_root (d : MindMapNode) :
  target <$> links (hierarchy d) = self <$> tail (descendants (hierarchy d)) ∧
  Forall (λ l, parent (target l) = Some (source l)) (links (hierarchy d)) ∧
  S (length (links (hierarchy d))) = raw_size d ∧
  length (linkElems (render d)) = length (links (hierarchy d)).
Proof.
  split; [|split; [|split]].
  - unfold links. pose proof (descendants_subtrees (hierarchy d)) as HP.
    destruct (descendants_cons (hierarchy d)) as [rest E]. rewrite E in *.
    cbn [flat_map tail]. unfold hierarchy at 1. rewrite self_build. cbn [parent app].
    apply links_of_tail. apply list.Forall_forall. intros n Hn.
    apply (non_root_has_parent None 0 0 d).
    rewrite subtrees_eq in HP. apply Permutation_cons_inv in HP.
    by rewrite <-HP.
  - unfold links. apply list.Forall_forall. intros l (n & Hn & Hl)%elem_of_flat_map.
    destruct (parent (self n)) as [p|] eqn:Hp; [|by apply elem_of_nil in Hl].
    apply list_elem_of_singleton in Hl as ->. done.
  - apply length_links.
  - unfold render; cbn [linkElems]. by rewrite length_map.
Qed.

(** X2. [root.descendants()] is in breadth-first order: the root comes
    first, the depth never decreases along the list, and no node occurs
    twice. *)
Theorem descendants_breadth_first (d : MindMapNode) :
  head (descendants (hierarchy d)) = Some (hierarchy d) ∧
  StronglySorted (λ a b, depth (self a) ≤ depth (self b))%nat (descendants (hierarchy d)) ∧
  NoDup ((λ n, node_id (self n)) <$> descendants (hierarchy d)).
Proof.
  split; [apply descendants_head|]. split; [apply descendants_sorted|].
  apply NoDup_descendant_ids.
Qed.

(** X3. The depth d3 gives a node is the number of its ancestors: the
    walk [while (current.parent)] of the search effect, started at a node
    of depth [k], visits [k] parents and [k] links. *)
Theorem depth_counts_ancestors (d : MindMapNode) :
  Forall (λ n, length (ancestors (self n)) = depth (self n) ∧
               length (path_edges (self n)) = depth (self n))
         (descendants (hierarchy d)).
Proof.
  apply list.Forall_forall. intros n Hn. rewrite descendants_subtrees in Hn.
  assert (depth (self n) = length (ancestors (self n))) as E.
  { apply (depth_subtrees d None 0%nat 0%nat); [by rewrite ancestors_self_build|done]. }
  split; [done|].
  rewrite E. clear. induction (self n) as [? ? ? ?|? ? ? p ? IH] using Node_chain_ind; [done|].
  cbn [path_edges ancestors length]. by rewrite IH.
Qed.

(** X4. The render effect fills the circle of every node with the colour
    of its depth: entry [depth mod 12] of [schemeSet3].  The one ordinal
    scale of the effect meets the depths in increasing order, so its
    implicit domain is [0, 1, 2, ...]. *)
Theorem circle_fill_by_depth (d : MindMapNode) :
  Forall (λ e, attrs (circle e) !! "fill"
               = schemeSet3 !! (depth (self (datum e)) mod 12)%nat)
         (nodeElems (render d)).
Proof. apply render_fill. Qed.

(** ** The search effect, node by node *)

Lemma on_path_of_snoc f ms c n :
  on_path_of f (ms ++ [c]) n = on_path_of f ms n || existsb (same_node n) (f c).
Proof. unfold on_path_of. rewrite existsb_app. simpl. by rewrite orb_false_r. Qed.

Lemma datum_lit_node ms e : datum (lit_node ms e) = datum e.
Proof. unfold lit_node. by destruct (on_path_of _ _ _). Qed.

Lemma ldatum_lit_link ms l : ldatum (lit_link ms l) = ldatum l.
Proof. unfold lit_link. by destruct (on_path_of _ _ _). Qed.

Lemma walked_lit_node ms c e : walked_node c (lit_node ms e) = lit_node (ms ++ [c]) e.
Proof.
  unfold walked_node. rewrite datum_lit_node. unfold lit_node.
  rewrite on_path_of_snoc.
  destruct (on_path_of ancestors ms _), (existsb _ (ancestors c)); simpl; try done.
  apply undim_idem.
Qed.

Lemma walked_lit_link ms c l : walked_link c (lit_link ms l) = lit_link (ms ++ [c]) l.
Proof.
  unfold walked_link. rewrite ldatum_lit_link. unfold lit_link.
  rewrite on_path_of_snoc.
  destruct (on_path_of path_edges ms _), (existsb _ (path_edges c)); simpl; try done.
  apply light_idem.
Qed.

Lemma paint_lit_node ms e : paint_match (lit_node ms e) = lit_node ms (paint_match e).
Proof. unfold lit_node. cbn [paint_match on_label on_circle datum]. by destruct (on_path_of _ _ _). Qed.

Lemma paint_idem e : paint_match (paint_match e) = paint_match e.
Proof.
  unfold paint_match, on_label, on_circle, style, attr; simpl. f_equal; f_equal.
  - apply map_eq; intros i. rewrite !lookup_insert. by repeat case_decide.
  - apply map_eq; intros i. rewrite !lookup_insert. by repeat case_decide.
Qed.

Lemma nodes_at_snoc g ps i :
  nodes_at g (ps ++ [i])
  = nodes_at g ps ++ match nodeElems g !! i with Some e => [self (datum e)] | None => [] end.
Proof. unfold nodes_at. rewrite omap_app. simpl. by destruct (nodeElems g !! i). Qed.

Lemma fold_highlight_char g2 ps :
  foldl highlight_one g2 ps
  = mkGraph (lit_link (nodes_at g2 ps) <$> linkElems g2)
            (imap (λ j e, lit_node (nodes_at g2 ps)
                            (if bool_decide (j ∈ ps) then paint_match e else e))
                  (nodeElems g2)).
Proof.
  induction ps as [|i ps IH] using rev_ind.
  - destruct g2 as [ls ns]; simpl. f_equal.
    + rewrite <-(list_fmap_id ls) at 1. done.
    + apply list_eq; intros j. rewrite list_lookup_imap. by destruct (ns !! j).
  - rewrite foldl_app. cbn [foldl]. rewrite IH. clear IH.
    set (ms := nodes_at g2 ps). rewrite nodes_at_snoc. fold ms.
    destruct (nodeElems g2 !! i) as [e2|] eqn:Hi.
    + erewrite highlight_one_char; last first.
      { cbn [nodeElems]. rewrite list_lookup_imap, Hi. done. }
      cbn [linkElems nodeElems]. rewrite datum_lit_node.
      assert (datum (if bool_decide (i ∈ ps) then paint_match e2 else e2) = datum e2) as ->
        by by case_bool_decide.
      f_equal.
      * rewrite <-list_fmap_compose. apply list_fmap_ext; intros _ l _; simpl.
        apply walked_lit_link.
      * apply list_eq; intros j. rewrite list_lookup_fmap, list_lookup_alter, !list_lookup_imap.
        case_decide as Hij.
        -- subst j. rewrite Hi; simpl. f_equal.
           rewrite paint_lit_node, walked_lit_node.
           rewrite (bool_decide_eq_true_2 (i ∈ ps ++ [i]))
             by (apply elem_of_app; right; apply list_elem_of_here).
           case_bool_decide; [by rewrite paint_idem|done].
        -- destruct (nodeElems g2 !! j) as [e|]; simpl; [|done]. f_equal.
           rewrite walked_lit_node.
           assert (bool_decide (j ∈ ps ++ [i]) = bool_decide (j ∈ ps)) as ->; [|done].
           apply bool_decide_ext. rewrite elem_of_app, list_elem_of_singleton.
           split; [intros [?|?]; [done|congruence]|by left].
    + rewrite app_nil_r. unfold highlight_one. cbn [nodeElems].
      rewrite list_lookup_imap, Hi. simpl. f_equal.
      apply imap_ext; intros j e Hj.
      assert (bool_decide (j ∈ ps ++ [i]) = bool_decide (j ∈ ps)) as ->; [|done].
      apply bool_decide_ext. assert (j ≠ i) by congruence.
      rewrite elem_of_app, list_elem_of_singleton.
           split; [intros [?|?]; [done|congruence]|by left].
Qed.

Lemma omap_positions {A B} (f : A → B) (sel : A → bool) (l : list A) : ∀ pre,
  omap (λ j, f <$> (pre ++ l) !! j) (positions sel (length pre) l) = f <$> filter (λ a, sel a) l.
Proof.
  induction l as [|a l IH]; intros pre; [done|].
  specialize (IH (pre ++ [a])). rewrite length_app, Nat.add_1_r, <-app_assoc in IH.
  cbn [app] in IH. cbn [positions]. rewrite filter_cons. destruct (sel a) eqn:Ea.
  - destruct (decide _) as [_|Hn]; [|by destruct Hn].
    cbn [omap list_omap]. rewrite list_lookup_middle by done.
    cbn [fmap option_fmap option_map]. rewrite IH. done.
  - destruct (decide _) as [Hn|_]; [by destruct Hn|]. done.
Qed.

Lemma matched_prepared lq g : matched lq (prepared lq g) = matched lq g.
Proof.
  unfold matched. rewrite prepared_char. cbn [nodeElems].
  apply (fmap_filter_view datum (matches lq) (λ e, self (datum e))
           (λ d, includes (toLowerCase (name (Hierarchy.data (self d)))) lq) self).
  - done.
  - done.
  - rewrite <-list_fmap_compose. apply list_fmap_ext; intros _ e _. apply datum_prepared_node.
Qed.

Lemma highlight_char q g :
  falsy q = false →
  highlight q g
  = mkGraph (final_link (matched (toLowerCase q) g) <$> linkElems g)
            (final_node (toLowerCase q) (matched (toLowerCase q) g) <$> nodeElems g).
Proof.
  intros Hq. rewrite highlight_nonempty by done. set (lq := toLowerCase q).
  rewrite fold_highlight_char.
  assert (nodes_at (prepared lq g)
                   (positions (matches lq) 0 (nodeElems (prepared lq g)))
          = matched lq g) as ->.
  { rewrite <-matched_prepared. unfold nodes_at, matched.
    apply (omap_positions (λ e, self (datum e)) (matches lq) _ []). }
  rewrite prepared_char. cbn [linkElems nodeElems]. f_equal.
  - by rewrite <-list_fmap_compose.
  - apply list_eq; intros j. rewrite list_lookup_imap, !list_lookup_fmap.
    destruct (nodeElems g !! j) as [e|] eqn:Hj; simpl; [|done]. f_equal.
    unfold final_node. f_equal.
    rewrite <-(matches_datum lq (prepared_node lq e) e) by apply datum_prepared_node.
    destruct (matches lq (prepared_node lq e)) eqn:Em.
    + rewrite bool_decide_eq_true_2; [done|].
      apply elem_of_positions. exists (prepared_node lq e).
      rewrite Nat.sub_0_r, list_lookup_fmap, Hj. split; [lia|]. split; [done|]. by rewrite Em.
    + rewrite bool_decide_eq_false_2; [done|].
      intros (e' & _ & He' & Hs)%elem_of_positions.
      rewrite Nat.sub_0_r, list_lookup_fmap, Hj in He'. simpl in He'.
      injection He' as <-. by rewrite Em in Hs.
Qed.

Lemma on_path_of_spec (f : Node → list Node) (ms : list Node) (n : Node) :
  on_path_of f ms n ↔ ∃ m a, m ∈ ms ∧ a ∈ f m ∧ node_id n = node_id a.
Proof.
  unfold on_path_of. rewrite Is_true_true, existsb_exists. split.
  - intros (m & Hm & (a & Ha & Hs)%existsb_exists). exists m, a.
    rewrite !list_elem_of_In. split; [done|]. split; [done|].
    unfold same_node in Hs. by apply bool_decide_eq_true in Hs.
  - intros (m & a & Hm & Ha & Hid). exists m. rewrite <-list_elem_of_In. split; [done|].
    apply existsb_exists. exists a. rewrite <-list_elem_of_In. split; [done|].
    unfold same_node. by apply bool_decide_eq_true.
Qed.

Lemma elem_of_matched lq g m :
  m ∈ matched lq g ↔ ∃ e, e ∈ nodeElems g ∧ matches lq e ∧ m = self (datum e).
Proof.
  unfold matched. rewrite list_elem_of_fmap. split.
  - intros (e & -> & [He Hin]%list_elem_of_filter). eauto.
  - intros (e & Hin & He & ->). exists e. split; [done|]. by apply list_elem_of_filter.
Qed.

Lemma name_matches_nonempty q e :
  q ≠ "" → name_matches q (datum e) ↔ matches (toLowerCase q) e.
Proof. intros Hq. unfold name_matches, matches. by destruct q. Qed.

Lemma opacity_final_node lq ms e :
  styles (group (final_node lq ms e)) !! "opacity"
  = Some (if matches lq e || on_path_of ancestors ms (self (datum e)) then "1" else "0.3").
Proof.
  unfold final_node, lit_node, prepared_node.
  change (matches lq (on_group (style "opacity" "0.3") (reset_node e))) with (matches lq e).
  destruct (matches lq e) eqn:Em; cbn [datum paint_match on_label on_circle undim on_group reset_node];
    destruct (on_path_of ancestors ms (self (datum e)));
    cbn [orb group undim on_group style styles paint_match on_label on_circle];
    by rewrite ?lookup_insert_eq.
Qed.

Ltac solve_lookup :=
  repeat first [rewrite lookup_insert_eq | rewrite lookup_insert_ne by done]; done.

Ltac same_map :=
  apply map_eq; intros ?i;
  repeat match goal with
         | |- context [ <[?k := _]> _ !! ?j ] =>
             destruct (decide (k = j)) as [<-|?];
             [solve_lookup | rewrite !(lookup_insert_ne _ k j) by done]
         end;
  done.

Lemma style_over k v v' e : style k v (style k v' e) = style k v e.
Proof. unfold style; simpl. by rewrite insert_insert_eq. Qed.

Lemma final_node_fields lq ms e :
  final_node lq ms e
  = mkNodeElem (datum e)
      (final_group (matches lq e || on_path_of ancestors ms (self (datum e))) (group e))
      (if matches lq e then paint_circle (reset_circle (datum e) (circle e))
       else reset_circle (datum e) (circle e))
      (if matches lq e then paint_label (reset_label (label e)) else reset_label (label e)).
Proof.
  unfold final_node, lit_node.
  assert (datum (if matches lq e then paint_match (prepared_node lq e) else prepared_node lq e)
          = datum e) as ->.
  { destruct (matches lq e); [cbn [paint_match on_label on_circle datum]|];
      apply datum_prepared_node. }
  unfold prepared_node.
  change (matches lq (on_group (style "opacity" "0.3") (reset_node e))) with (matches lq e).
  destruct (matches lq e), (on_path_of ancestors ms (self (datum e)));
    unfold undim, paint_match, reset_node, on_group, on_circle, on_label;
    cbn [datum group circle label orb]; f_equal;
    unfold final_group; by rewrite ?style_over.
Qed.

Lemma final_group_idem b g : final_group b (final_group b g) = final_group b g.
Proof. apply style_over. Qed.

Lemma reset_circle_idem d c : reset_circle d (reset_circle d c) = reset_circle d c.
Proof.
  destruct c as [a s t]. unfold reset_circle, attr; cbn [attrs styles textContent].
  f_equal. same_map.
Qed.

Lemma reset_paint_circle d c :
  reset_circle d (paint_circle (reset_circle d c)) = reset_circle d c.
Proof.
  destruct c as [a s t]. unfold reset_circle, paint_circle, attr; cbn [attrs styles textContent].
  f_equal. same_map.
Qed.

Lemma reset_label_idem t : reset_label (reset_label t) = reset_label t.
Proof.
  destruct t as [a s t]. unfold reset_label, style; cbn [attrs styles textContent].
  f_equal. same_map.
Qed.

Lemma reset_paint_label t : reset_label (paint_label (reset_label t)) = reset_label t.
Proof.
  destruct t as [a s t]. unfold reset_label, paint_label, style; cbn [attrs styles textContent].
  f_equal. same_map.
Qed.

Lemma final_node_idem lq ms e :
  final_node lq ms (final_node lq ms e) = final_node lq ms e.
Proof.
  rewrite (final_node_fields lq ms (final_node lq ms e)).
  rewrite (final_node_fields lq ms e). cbn [datum group circle label].
  change (matches lq (mkNodeElem (datum e) ?g ?c ?l)) with (matches lq e).
  rewrite final_group_idem.
  destruct (matches lq e).
  - by rewrite reset_paint_circle, reset_paint_label.
  - by rewrite reset_circle_idem, reset_label_idem.
Qed.

Lemma final_link_fields ms l :
  final_link ms l
  = mkLinkElem (ldatum l)
      (if on_path_of path_edges ms (target (ldatum l))
       then light_path (style "opacity" "0.3" (reset_path (path l)))
       else style "opacity" "0.3" (reset_path (path l))).
Proof.
  unfold final_link, lit_link. cbn [on_path reset_link ldatum].
  by destruct (on_path_of path_edges ms (target (ldatum l))).
Qed.

Lemma dim_reset_path_idem p :
  style "opacity" "0.3" (reset_path (style "opacity" "0.3" (reset_path p)))
  = style "opacity" "0.3" (reset_path p).
Proof.
  destruct p as [a s t]. unfold reset_path, style, attr; cbn [attrs styles textContent].
  f_equal; same_map.
Qed.

Lemma light_path_idem p :
  light_path (style "opacity" "0.3"
                (reset_path (light_path (style "opacity" "0.3" (reset_path p)))))
  = light_path (style "opacity" "0.3" (reset_path p)).
Proof.
  destruct p as [a s t]. unfold light_path, reset_path, style, attr; cbn [attrs styles textContent].
  f_equal; same_map.
Qed.

Lemma final_link_idem ms l : final_link ms (final_link ms l) = final_link ms l.
Proof.
  rewrite (final_link_fields ms (final_link ms l)), (final_link_fields ms l).
  cbn [ldatum path].
  destruct (on_path_of path_edges ms (target (ldatum l))).
  - by rewrite light_path_idem.
  - by rewrite dim_reset_path_idem.
Qed.

Lemma reset_node_idem e : reset_node (reset_node e) = reset_node e.
Proof.
  change (reset_node (reset_node e))
    with (mkNodeElem (datum e) (group e)
            (reset_circle (datum e) (reset_circle (datum e) (circle e)))
            (reset_label (reset_label (label e)))).
  by rewrite reset_circle_idem, reset_label_idem.
Qed.

Lemma reset_link_idem l : reset_link (reset_link l) = reset_link l.
Proof.
  destruct l as [d [pa ps pt]].
  unfold reset_link, on_path, attr; cbn [path ldatum attrs styles textContent].
  f_equal; f_equal; same_map.
Qed.

Lemma matched_highlight_same q g :
  matched (toLowerCase q) (highlight q g) = matched (toLowerCase q) g.
Proof.
  unfold matched.
  apply (fmap_filter_view datum (matches (toLowerCase q)) (λ e, self (datum e))
           (λ d, includes (toLowerCase (name (Hierarchy.data (self d)))) (toLowerCase q)) self);
    [done|done|]. apply datum_highlight.
Qed.

Lemma highlight_idem q g : highlight q (highlight q g) = highlight q g.
Proof.
  destruct (falsy q) eqn:Hq.
  - rewrite !(highlight_empty q) by done. rewrite !reset_all_char. cbn [linkElems nodeElems].
    f_equal; rewrite <-list_fmap_compose; apply list_fmap_ext; intros _ x _; simpl.
    + apply reset_link_idem.
    + apply reset_node_idem.
  - rewrite (highlight_char q (highlight q g)) by done. rewrite matched_highlight_same.
    rewrite !(highlight_char q g) by done. cbn [linkElems nodeElems].
    f_equal; rewrite <-list_fmap_compose; apply list_fmap_ext; intros _ x _; simpl.
    + apply final_link_idem.
    + apply final_node_idem.
Qed.

(** Which nodes are dimmed. *)
Lemma falsy_false q : falsy q = false ↔ q ≠ "".
Proof. by destruct q. Qed.

Lemma on_match_path (f : Node → list Node) q g0 n :
  q ≠ "" →
  on_path_of f (matched (toLowerCase q) g0) n ↔
  ∃ m a, m ∈ nodeElems g0 ∧ name_matches q (datum m) ∧
         a ∈ f (self (datum m)) ∧ node_id n = node_id a.
Proof.
  intros Hq. rewrite on_path_of_spec. split.
  - intros (m & a & (e & He & Hm & ->)%elem_of_matched & Ha & Hid).
    exists e, a. by rewrite name_matches_nonempty.
  - intros (e & a & He & Hm & Ha & Hid). exists (self (datum e)), a.
    split; [|done]. apply elem_of_matched. exists e. by rewrite <-name_matches_nonempty.
Qed.

(** X5. After the search effect for a query that is not empty, on any
    graph: a node group has opacity 1 exactly when its node matches or is
    an ancestor of a node that matches, and opacity 0.3 otherwise. *)
Theorem dimmed_unless_on_match_path (q : string) (g0 : Graph) :
  q ≠ "" →
  Forall (λ e,
      (undimmed e ↔
         name_matches q (datum e) ∨
         ∃ m a, m ∈ nodeElems g0 ∧ name_matches q (datum m) ∧
                a ∈ ancestors (self (datum m)) ∧ node_id (self (datum e)) = node_id a) ∧
      (dimmed e ↔ ¬ undimmed e))
    (nodeElems (highlight q g0)).
Proof.
  intros Hq. rewrite highlight_char by by apply falsy_false. cbn [nodeElems].
  apply Forall_fmap, Forall_true. intros e; simpl.
  unfold undimmed, dimmed. rewrite !bool_decide_spec.
  rewrite final_node_fields. cbn [group datum]. unfold final_group, style; cbn [styles].
  rewrite lookup_insert_eq.
  rewrite <-(on_match_path ancestors q g0) by done.
  change (name_matches q (datum e)) with
    (negb (falsy q) && matches (toLowerCase q) e).
  rewrite (proj2 (falsy_false q) Hq). cbn [negb andb].
  destruct (matches (toLowerCase q) e), (on_path_of ancestors _ _);
    cbn [orb Is_true]; intuition congruence.
Qed.

(** X6. After the search effect for a query that is not empty, on any
    graph: a link is highlighted (stroke [#ef4444], opacity 1) exactly
    when its target lies on the path from a matching node up to the root;
    every other link has the plain stroke [#cbd5e1] and opacity 0.3. *)
Theorem link_highlight_exact (q : string) (g0 : Graph) :
  q ≠ "" →
  Forall (λ l,
      (edge_highlighted l ↔
         ∃ m c, m ∈ nodeElems g0 ∧ name_matches q (datum m) ∧
                c ∈ path_edges (self (datum m)) ∧ node_id (target (ldatum l)) = node_id c) ∧
      (¬ edge_highlighted l →
         attrs (path l) !! "stroke" = Some "#cbd5e1" ∧
         styles (path l) !! "opacity" = Some "0.3"))
    (linkElems (highlight q g0)).
Proof.
  intros Hq. rewrite highlight_char by by apply falsy_false. cbn [linkElems].
  apply Forall_fmap, Forall_true. intros l; simpl.
  rewrite <-(on_match_path path_edges q g0) by done.
  rewrite final_link_fields. unfold edge_highlighted. cbn [path ldatum].
  destruct (on_path_of path_edges _ _).
  - unfold light_path, style, attr; cbn [attrs styles].
    rewrite lookup_insert_ne, !lookup_insert_eq by done.
    rewrite !bool_decide_eq_true_2 by done. simpl. intuition.
  - unfold reset_path, style, attr; cbn [attrs styles].
    rewrite lookup_insert_ne, !lookup_insert_eq by done.
    rewrite (bool_decide_eq_false_2 (Some "#cbd5e1" = Some "#ef4444")) by done.
    simpl. intuition.
Qed.

(** What the search effect leaves alone. *)
Lemma highlight_keeps q g :
  Forall2 (λ e e', datum e' = datum e ∧ attrs (group e') = attrs (group e) ∧
                   textContent (label e') = textContent (label e) ∧
                   attrs (label e') = attrs (label e) ∧
                   styles (circle e') = styles (circle e))
          (nodeElems g) (nodeElems (highlight q g)).
Proof.
  destruct (falsy q) eqn:Hq.
  - rewrite highlight_empty, reset_all_char by done. cbn [nodeElems].
    apply Forall2_fmap_r, Forall_Forall2_diag, Forall_true. by intros e.
  - rewrite highlight_char by done. cbn [nodeElems].
    apply Forall2_fmap_r, Forall_Forall2_diag, Forall_true. intros e.
    unfold compose. rewrite final_node_fields. cbn [datum group circle label].
    by destruct (matches _ e).
Qed.

Lemma name_matches_cases q e :
  name_matches q (datum e) = negb (falsy q) && matches (toLowerCase q) e.
Proof. done. Qed.

(** X7. The search effect repaints every circle and label, for any query
    and any graph.  A match gets fill [#ef4444], stroke [#b91c1c], radius
    10 and a bold label in [#b91c1c].  Every other node gets the stroke
    [#94a3b8], the radius of its depth, a normal label in [#1e293b] and
    the fill [#8dd3c7], the first colour of the scheme, whatever its
    depth: "Reset all" asks a new ordinal scale for each node. *)
Theorem search_repaints_every_node (q : string) (g : Graph) :
  Forall (λ e,
      let hit := name_matches q (datum e) in
      attrs (circle e) !! "fill" = Some (if hit then "#ef4444" else "#8dd3c7") ∧
      attrs (circle e) !! "stroke" = Some (if hit then "#b91c1c" else "#94a3b8") ∧
      attrs (circle e) !! "r" = Some (if hit then "10" else radius (datum e)) ∧
      styles (label e) !! "fill" = Some (if hit then "#b91c1c" else "#1e293b") ∧
      styles (label e) !! "font-weight" = Some (if hit then "bold" else "normal"))
    (nodeElems (highlight q g)).
Proof.
  destruct (falsy q) eqn:Hq.
  - rewrite highlight_empty, reset_all_char by done. cbn [nodeElems].
    apply Forall_fmap, Forall_true. intros e. unfold compose. cbn zeta.
    change (datum (reset_node e)) with (datum e).
    rewrite name_matches_cases, Hq. cbn [negb andb].
    unfold reset_node, on_label, on_circle, style, attr; cbn [circle label attrs styles].
    repeat split; solve_lookup.
  - rewrite highlight_char by done. cbn [nodeElems].
    apply Forall_fmap, Forall_true. intros e. unfold compose. cbn zeta.
    rewrite final_node_fields. cbn [datum circle label].
    rewrite name_matches_cases, Hq. cbn [negb andb].
    destruct (matches (toLowerCase q) e);
      unfold paint_circle, reset_circle, paint_label, reset_label, style, attr;
      cbn [attrs styles]; repeat split; solve_lookup.
Qed.

(** X8. The search effect is idempotent: run a second time with the same
    query it leaves every attribute and style of every element as the
    first run left it. *)
Theorem search_effect_idempotent (q : string) (g : Graph) :
  highlight q (highlight q g) = highlight q g ∧
  (∀ st, searchEffect (searchEffect st) = searchEffect st).
Proof.
  split; [apply highlight_idem|].
  intros st. unfold searchEffect at 1 2. destruct (gRef st) as [g0|] eqn:Hg.
  - cbn [gRef data dimensions searchQuery zoomTransform]. unfold searchEffect. rewrite Hg.
    by rewrite highlight_idem.
  - unfold searchEffect. by rewrite Hg.
Qed.

Lemma dimmed_unless_on_match_path_witness :
  Forall (λ e,
      (undimmed e ↔
         name_matches "kine" (datum e) ∨
         ∃ m a, m ∈ nodeElems (render physics) ∧ name_matches "kine" (datum m) ∧
                a ∈ ancestors (self (datum m)) ∧ node_id (self (datum e)) = node_id a) ∧
      (dimmed e ↔ ¬ undimmed e))
    (nodeElems (highlight "kine" (render physics))).
Proof. apply dimmed_unless_on_match_path. discriminate. Defined.

Lemma link_highlight_exact_witness :
  Forall (λ l,
      (edge_highlighted l ↔
         ∃ m c, m ∈ nodeElems (render physics) ∧ name_matches "kine" (datum m) ∧
                c ∈ path_edges (self (datum m)) ∧ node_id (target (ldatum l)) = node_id c) ∧
      (¬ edge_highlighted l →
         attrs (path l) !! "stroke" = Some "#cbd5e1" ∧
         styles (path l) !! "opacity" = Some "0.3"))
    (linkElems (highlight "kine" (render physics))).
Proof. apply link_highlight_exact. discriminate. Defined.

(** Lower case and concatenation. *)
Lemma append_assoc (a b c : string) : (a +:+ b) +:+ c = a +:+ b +:+ c.
Proof. induction a as [|x a IH]; [done|]. change (String x ((a +:+ b) +:+ c) = String x (a +:+ b +:+ c)). by rewrite IH. Qed.


Lemma lower_char_idem c : lower_char (lower_char c) = lower_char c.
Proof.
  unfold lower_char.
  destruct ((65 <=? nat_of_ascii c)%nat && (nat_of_ascii c <=? 90)%nat) eqn:E; [|by rewrite E].
  apply andb_true_iff in E as [E1%Nat.leb_le E2%Nat.leb_le].
  rewrite nat_ascii_embedding by lia.
  assert ((nat_of_ascii c + 32 <=? 90)%nat = false) as -> by (apply Nat.leb_gt; lia).
  by rewrite andb_false_r.
Qed.

Lemma toLowerCase_idem s : toLowerCase (toLowerCase s) = toLowerCase s.
Proof. induction s as [|c s IH]; simpl; [done|]. by rewrite lower_char_idem, IH. Qed.

Lemma falsy_toLowerCase s : falsy (toLowerCase s) = falsy s.
Proof. by destruct s. Qed.

(** X9. Two queries that differ only in the case of their letters give
    the same drawing. *)
Theorem search_ignores_query_case (q q' : string) (g : Graph) :
  toLowerCase q = toLowerCase q' → highlight q g = highlight q' g.
Proof.
  intros E. unfold highlight. rewrite <-(falsy_toLowerCase q), <-(falsy_toLowerCase q'), E.
  done.
Qed.

Lemma search_ignores_query_case_witness :
  highlight "KiNe" (render physics) = highlight "kine" (render physics).
Proof. apply search_ignores_query_case. reflexivity. Defined.



(** ** What stays as rendered *)

Lemma label_node_elems ds : ∀ color e,
  e ∈ node_elems color ds → label e = node_label (datum e).
Proof.
  induction ds as [|d ds IH]; intros color e; simpl; [by intros ?%elem_of_nil|].
  destruct (call color _) as [c color']. intros [->|He]%elem_of_cons; [done|].
  by eapply IH.
Qed.

Lemma as_rendered_render d : Forall as_rendered (nodeElems (render d)).
Proof.
  apply list.Forall_forall. intros e He. unfold render in He; cbn [nodeElems] in He. split.
  - by rewrite (group_node_elems _ _ _ He).
  - by rewrite (label_node_elems _ _ _ He).
Qed.

Lemma as_rendered_highlight q g :
  Forall as_rendered (nodeElems g) → Forall as_rendered (nodeElems (highlight q g)).
Proof.
  intros H. pose proof (highlight_keeps q g) as HK.
  induction HK as [|e e' l l' (Hd & Hg & Ht & _) _ IH]; [constructor|].
  apply Forall_cons in H as [[H1 H2] H]. constructor; [|by apply IH].
  split; [by rewrite Hg, Hd|by rewrite Ht, Hd].
Qed.

Lemma as_rendered_hover i f g :
  (∀ e, datum (f e) = datum e ∧ group (f e) = group e ∧
        textContent (label (f e)) = textContent (label e)) →
  Forall as_rendered (nodeElems g) → Forall as_rendered (nodeElems (on_this i f g)).
Proof.
  intros Hf H. cbn [on_this nodeElems]. apply Forall_alter; [done|].
  intros e _ [H1 H2]. destruct (Hf e) as (Hd & Hg & Ht). split.
  - by rewrite Hg, Hd.
  - by rewrite Ht, Hd.
Qed.

Lemma as_rendered_renderEffect st :
  Forall as_rendered (drawn_nodes st) → Forall as_rendered (drawn_nodes (renderEffect st)).
Proof.
  unfold renderEffect. destruct (data st) as [d|]; [|done].
  intros _. apply as_rendered_render.
Qed.

Lemma as_rendered_step st ev :
  Forall as_rendered (drawn_nodes st) → Forall as_rendered (drawn_nodes (step st ev)).
Proof.
  intros H. destruct ev as [d| |w h|q|i|i| | |f p|p0 p]; cbn [step].
  - apply as_rendered_render.
  - by apply as_rendered_renderEffect.
  - by apply as_rendered_renderEffect.
  - destruct (String.eqb q (searchQuery st)); [done|].
    unfold searchEffect, drawn_nodes in *; cbn [gRef] in *.
    destruct (gRef st) as [g|]; [|done]. cbn [gRef]. by apply as_rendered_highlight.
  - unfold with_graph, drawn_nodes in *; cbn [gRef].
    destruct (gRef st) as [g|]; [|done]. cbn [fmap option_fmap option_map].
    by apply as_rendered_hover.
  - unfold with_graph, drawn_nodes in *; cbn [gRef].
    destruct (gRef st) as [g|]; [|done]. cbn [fmap option_fmap option_map].
    by apply as_rendered_hover.
  - unfold handleZoom, drawn_nodes in *. by destruct (gRef st) eqn:Hg; cbn [gRef]; rewrite ?Hg.
  - unfold handleZoom, drawn_nodes in *. by destruct (gRef st) eqn:Hg; cbn [gRef]; rewrite ?Hg.
  - unfold with_zoom, drawn_nodes in *. by destruct (gRef st) eqn:Hg; cbn [gRef]; rewrite ?Hg.
  - unfold with_zoom, drawn_nodes in *. by destruct (gRef st) eqn:Hg; cbn [gRef]; rewrite ?Hg.
Qed.

Lemma as_rendered_mount d w h : Forall as_rendered (drawn_nodes (mount d w h)).
Proof.
  unfold mount. apply as_rendered_renderEffect.
  destruct d as [d|]; [|constructor].
  apply (as_rendered_highlight "" (render d)), as_rendered_render.
Qed.

Lemma as_rendered_run evs : ∀ st,
  Forall as_rendered (drawn_nodes st) → Forall as_rendered (drawn_nodes (run st evs)).
Proof.
  induction evs as [|ev evs IH]; intros st H; [done|].
  apply IH. by apply as_rendered_step.
Qed.

Lemma not_highlighted_class e :
  attrs (group e) = attrs (node_group (datum e)) → classed "highlighted" (group e) = false.
Proof.
  intros H. unfold classed. rewrite H. unfold node_group, style, attr; cbn [attrs].
  rewrite lookup_insert_eq. by destruct (has_children (datum e)).
Qed.

(** X11. In every state the component reaches, no node group has the
    class [highlighted], so the [mouseout] handler always sets the stroke
    [#94a3b8]: its branch for [#ef4444] is never taken. *)
Theorem mouseout_never_restores_highlight
    (d : option MindMapNode) (w h : Z) (evs : list Event) :
  Forall (λ e, classed "highlighted" (group e) = false ∧
               attrs (circle (mouseout e)) !! "stroke" = Some "#94a3b8")
         (drawn_nodes (run (mount d w h) evs)).
Proof.
  eapply Forall_impl; [apply as_rendered_run, as_rendered_mount|].
  intros e [Hg _]. pose proof (not_highlighted_class e Hg) as Hc. split; [done|].
  unfold mouseout, on_label, on_circle, attr; cbn [circle attrs]. rewrite Hc.
  by rewrite lookup_insert_ne, lookup_insert_eq.
Qed.

Lemma has_children_build par dep idx d :
  has_children (build par dep idx d) = negb (bool_decide (raw_children d = [])).
Proof.
  unfold has_children. rewrite kids_build. by destruct (raw_children d).
Qed.

Lemma descendants_built d n :
  n ∈ descendants (hierarchy d) → ∃ par dep idx d', n = build par dep idx d'.
Proof.
  rewrite descendants_subtrees. apply subtrees_are_built.
Qed.

Lemma drawn_nodes_built d w h evs :
  Forall (λ e, ∃ par dep idx d', datum e = build par dep idx d')
         (drawn_nodes (run (mount d w h) evs)).
Proof.
  pose proof (drawn_for_run evs _ (drawn_for_mount d w h)) as H.
  unfold drawn_for, drawn_nodes in *.
  destruct (MindMapGraph.data (run (mount d w h) evs)) as [d'|].
  - destruct H as (g & -> & Hn & _). apply list.Forall_forall. intros e He.
    apply (descendants_built d'). rewrite <-Hn. by apply list_elem_of_fmap_2.
  - rewrite H. constructor.
Qed.

(** X12. In every state the component reaches, every node group has the
    class [node node--leaf] when the raw node has no children (none, or an
    empty array) and [node node--internal] otherwise, and its label shows
    the name of the raw node. *)
Theorem node_class_and_label (d : option MindMapNode) (w h : Z) (evs : list Event) :
  Forall (λ e,
      attrs (group e) !! "class"
      = Some (if bool_decide (raw_children (Hierarchy.data (self (datum e))) = [])
              then "node node--leaf" else "node node--internal") ∧
      textContent (label e) = name (Hierarchy.data (self (datum e))))
    (drawn_nodes (run (mount d w h) evs)).
Proof.
  pose proof (as_rendered_run evs _ (as_rendered_mount d w h)) as H1.
  pose proof (drawn_nodes_built d w h evs) as H2.
  pose proof (proj2 (list.Forall_and _ _) (conj H1 H2)) as H. clear H1 H2.
  eapply Forall_impl; [exact H|]. clear H.
  intros e [[Hg Ht] (par & dep & idx & d' & Hd)]. split; [|done].
  rewrite Hg, Hd. unfold node_group, style, attr; cbn [attrs].
  rewrite lookup_insert_eq, has_children_build, self_build. cbn [Hierarchy.data].
  by case_bool_decide.
Qed.

(** The hover handlers. *)
Lemma node_view_mouseover e : node_view (mouseover e) = node_view e.
Proof.
  unfold node_view, mouseover, on_label, on_circle, attr; cbn [datum circle group attrs].
  by rewrite !lookup_insert_ne.
Qed.

Lemma node_view_mouseout e : node_view (mouseout e) = node_view e.
Proof.
  unfold node_view, mouseout, on_label, on_circle, attr; cbn [datum circle group attrs].
  by rewrite !lookup_insert_ne.
Qed.

Lemma shown_on_this (f : NodeElem → NodeElem) i st :
  (∀ e, node_view (f e) = node_view e) →
  shown (with_graph (on_this i f) st) = shown st.
Proof.
  intros Hf. unfold shown, with_graph; cbn [gRef].
  destruct (gRef st) as [g|]; [|done]. cbn [fmap option_fmap option_map].
  apply same_view_highlightState. split; [|done]. cbn [on_this nodeElems].
  apply list_eq; intros j. rewrite !list_lookup_fmap, list_lookup_alter.
  case_decide; [subst j|done]. destruct (nodeElems g !! i); simpl; [|done].
  by rewrite Hf.
Qed.

(** X13. The pointer entering or leaving a node changes no fill and no
    opacity: the highlight state read off the graph stays the same. *)
Theorem hover_keeps_highlight_state (st : State) (i : nat) :
  shown (step st (MouseOver i)) = shown st ∧ shown (step st (MouseOut i)) = shown st.
Proof.
  split; apply shown_on_this; [apply node_view_mouseover|apply node_view_mouseout].
Qed.

Lemma mouseout_mouseover e : mouseout (mouseover e) = mouseout e.
Proof.
  destruct e as [d g [ca cs ct] [la ls lt]].
  unfold mouseout, mouseover, on_label, on_circle, style, attr;
    cbn [datum group circle label attrs styles textContent].
  f_equal; f_equal; same_map.
Qed.

(** X14. The pointer entering a node and leaving it again has the effect
    of leaving it alone: [mouseout] overwrites all that [mouseover] set. *)
Theorem hover_leaves_no_trace (st : State) (i : nat) :
  run st [MouseOver i; MouseOut i] = step st (MouseOut i).
Proof.
  cbn [run foldl step]. unfold with_graph; cbn [data dimensions searchQuery gRef zoomTransform].
  f_equal. destruct (gRef st) as [g|]; [|done]. cbn [fmap option_fmap option_map]. f_equal.
  unfold on_this; cbn [linkElems nodeElems]. f_equal.
  rewrite list_alter_alter_eq. apply list_alter_ext; [|done].
  intros e _. apply mouseout_mouseover.
Qed.

(** ** More on the viewport and the events *)

Section zoom_more.
Local Open Scope Qc_scope.

Lemma in_extent_nonzero t : in_extent t → k t ≠ 0.
Proof.
  intros [Ht _] E. rewrite E in Ht. by apply Qcle_not_lt in Ht.
Qed.





End zoom_more.

Section zoom_witnesses.
Local Open Scope Qc_scope.



End zoom_witnesses.

(** The height of the svg. *)
Lemma height_step st ev :
  (600 ≤ (dimensions st).2)%Z → (600 ≤ (dimensions (step st ev)).2)%Z.
Proof.
  intros H. destruct ev as [d| |w h|q|i|i| | |f p|p0 p]; cbn [step].
  - done.
  - unfold renderEffect. by destruct (MindMapGraph.data st).
  - unfold renderEffect, handleResize; cbn [MindMapGraph.data dimensions].
    destruct (MindMapGraph.data st); cbn [dimensions snd]; lia.
  - destruct (String.eqb q (searchQuery st)); [done|].
    unfold searchEffect; cbn [gRef]. by destruct (gRef st).
  - done.
  - done.
  - unfold handleZoom. by destruct (gRef st).
  - unfold handleZoom. by destruct (gRef st).
  - unfold with_zoom. by destruct (gRef st).
  - unfold with_zoom. by destruct (gRef st).
Qed.

(** X17. The height in [dimensions] is at least 600 in every state the
    component reaches, whatever client sizes the resizes report. *)
Theorem svg_height_at_least_600 (d : option MindMapNode) (w h : Z) (evs : list Event) :
  (600 ≤ (dimensions (run (mount d w h) evs)).2)%Z.
Proof.
  assert (600 ≤ (dimensions (mount d w h)).2)%Z as H0.
  { unfold mount, renderEffect, handleResize; cbn [MindMapGraph.data dimensions].
    destruct (MindMapGraph.data _); cbn [dimensions snd]; lia. }
  revert H0. generalize (mount d w h). induction evs as [|ev evs IH]; intros st H; [done|].
  apply IH. by apply height_step.
Qed.

(** A component without data. *)
Lemma no_data_step st ev :
  is_data_change ev = false →
  MindMapGraph.data st = None ∧ gRef st = None ∧ zoomTransform st = zoomIdentity →
  MindMapGraph.data (step st ev) = None ∧ gRef (step st ev) = None ∧
  zoomTransform (step st ev) = zoomIdentity.
Proof.
  intros Hev (Hd & Hg & Hz).
  destruct ev as [d| |w h|q|i|i| | |f p|p0 p]; cbn [step]; try done.
  - unfold renderEffect. by rewrite Hd.
  - unfold renderEffect, handleResize; cbn [MindMapGraph.data]. rewrite Hd. done.
  - destruct (String.eqb q (searchQuery st)); [done|].
    unfold searchEffect; cbn [gRef]. rewrite Hg. done.
  - unfold with_graph; cbn. by rewrite Hg.
  - unfold with_graph; cbn. by rewrite Hg.
  - unfold handleZoom. by rewrite Hg.
  - unfold handleZoom. by rewrite Hg.
  - unfold with_zoom. by rewrite Hg.
  - unfold with_zoom. by rewrite Hg.
Qed.

(** X18. Without data nothing is ever drawn: as long as no [data] prop
    arrives, after any zooming, typing, hovering and resizing the svg is
    empty, the viewport is the identity and no highlight is shown. *)
Theorem nothing_drawn_without_data (w h : Z) (evs : list Event) :
  forallb (λ ev, negb (is_data_change ev)) evs = true →
  let st := run (mount None w h) evs in
  gRef st = None ∧ zoomTransform st = zoomIdentity ∧ shown st = emptyHighlight.
Proof.
  intros Hevs st.
  assert (MindMapGraph.data st = None ∧ gRef st = None ∧ zoomTransform st = zoomIdentity)
    as (_ & Hg & Hz).
  { subst st. assert (MindMapGraph.data (mount None w h) = None ∧ gRef (mount None w h) = None
                      ∧ zoomTransform (mount None w h) = zoomIdentity) as H0 by done.
    revert H0 Hevs. generalize (mount None w h).
    induction evs as [|ev evs IH]; intros st H0 Hevs; [done|].
    cbn [forallb] in Hevs. apply andb_true_iff in Hevs as [Hev Hevs].
    apply IH; [|done]. apply no_data_step; [|done]. by destruct (is_data_change ev). }
  split; [done|]. split; [done|]. unfold shown. by rewrite Hg.
Qed.

Lemma nothing_drawn_without_data_witness :
  let st := run (mount None 800 600)
                [ZoomInClicked; QueryTyped "kine"; Resized 1024 768; MouseOver 0] in
  gRef st = None ∧ zoomTransform st = zoomIdentity ∧ shown st = emptyHighlight.
Proof. apply nothing_drawn_without_data. reflexivity. Defined.

(** The graph follows the data. *)
(** X19. In every state the component reaches, the node groups in the svg
    are bound to the descendants of the hierarchy of the current [data],
    in order, and the paths to its links; without data there are none. *)
Theorem drawn_graph_tracks_data (d : option MindMapNode) (w h : Z) (evs : list Event) :
  let st := run (mount d w h) evs in
  datum <$> drawn_nodes st
    = from_option (λ d', descendants (hierarchy d')) [] (MindMapGraph.data st) ∧
  ldatum <$> drawn_links st
    = from_option (λ d', links (hierarchy d')) [] (MindMapGraph.data st).
Proof.
  intros st. pose proof (drawn_for_run evs _ (drawn_for_mount d w h)) as H.
  fold st in H. unfold drawn_for, drawn_nodes, drawn_links in *.
  destruct (MindMapGraph.data st) as [d'|]; cbn [from_option].
  - by destruct H as (g & -> & Hn & Hl).
  - by rewrite H.
Qed.

(** A new callback. *)
(** X20. A new [onNodeClick] prop redraws the graph as a new [data] prop
    with the same tree does: the graph is rendered afresh, the viewport
    returns to the centering transform and the highlight is wiped, while
    the search box keeps its text.  [App] passes a new function on each
    of its renders. *)
Theorem new_callback_redraws (st : State) (d : MindMapNode) :
  MindMapGraph.data st = Some d →
  step st CallbackChanged = step st (DataChanged d) ∧
  gRef (step st CallbackChanged) = Some (render d) ∧
  zoomTransform (step st CallbackChanged) = centering ∧
  shown (step st CallbackChanged) = emptyHighlight ∧
  searchQuery (step st CallbackChanged) = searchQuery st.
Proof.
  intros Hd. cbn [step]. unfold renderEffect; cbn [MindMapGraph.data]. rewrite Hd.
  split; [done|]. split; [done|]. split; [done|]. split; [|done].
  apply highlightState_render.
Qed.

Lemma new_callback_redraws_witness :
  let st := run (mount (Some physics) 800 600) [QueryTyped "kine"; ZoomInClicked] in
  step st CallbackChanged = step st (DataChanged physics) ∧
  gRef (step st CallbackChanged) = Some (render physics) ∧
  zoomTransform (step st CallbackChanged) = centering ∧
  shown (step st CallbackChanged) = emptyHighlight ∧
  searchQuery (step st CallbackChanged) = searchQuery st.
Proof. apply new_callback_redraws. reflexivity. Defined.

(** The highlight after typing. *)
(** X29. In every state the component reaches, typing a query that is not
    empty and differs from the current one shows the highlight computed
    from the current tree and that query alone: nothing of what was
    highlighted, hovered or dimmed before is left in it. *)
Theorem typed_query_shows_recomputed_highlight
    (d : option MindMapNode) (w h : Z) (evs : list Event) (d' : MindMapNode) (q : string) :
  let st := run (mount d w h) evs in
  MindMapGraph.data st = Some d' → q ≠ "" → q ≠ searchQuery st →
  shown (step st (QueryTyped q)) = recomputed d' q.
Proof.
  intros st Hd Hq Hne. apply typed_query_recomputes; [|done|by destruct q|done].
  apply drawn_for_run, drawn_for_mount.
Qed.

Lemma typed_query_shows_recomputed_highlight_witness :
  shown (step (run (mount (Some physics) 800 600)
                   [QueryTyped "opt"; MouseOver 1; ZoomInClicked; Resized 1024 768])
              (QueryTyped "kine"))
  = recomputed physics "kine".
Proof.
  apply (typed_query_shows_recomputed_highlight (Some physics) 800 600
           [QueryTyped "opt"; MouseOver 1; ZoomInClicked; Resized 1024 768] physics "kine").
  - reflexivity.
  - discriminate.
  - vm_compute. discriminate.
Defined.

(** ** The study guide *)

Import Text Types StudyContent StudySamples.

(** *** Slugs *)

Ltac each_char c := destruct c as [[] [] [] [] [] [] [] []]; try reflexivity; try discriminate.

Lemma lower_strip_char c :
  is_word (lower_char c) || is_space (lower_char c) || Ascii.eqb (lower_char c) "-" = true →
  is_slug_char (lower_char c) || is_separator (lower_char c) = true.
Proof. each_char c. Qed.

Lemma slug_char_fixed c :
  is_slug_char c = true →
  lower_char c = c ∧ is_word c || is_space c || Ascii.eqb c "-" = true ∧
  is_separator c = Ascii.eqb c "-".
Proof. each_char c; done. Qed.

Lemma not_separator_not_dash c : is_separator c = false → Ascii.eqb c "-" = false.
Proof. each_char c. Qed.

Lemma slug_or_separator c :
  is_slug_char c || is_separator c = true → is_separator c = false → is_slug_char c = true.
Proof. each_char c. Qed.

Lemma dash_is_slug_char c : Ascii.eqb c "-" = true → is_slug_char c = true.
Proof. each_char c. Qed.

Lemma startsWith_dash c s : startsWith (String c s) "-" = Ascii.eqb c "-".
Proof. cbn [startsWith]. destruct s; by rewrite andb_true_r. Qed.

Lemma includes_dashes c s :
  includes (String c s) "--" = Ascii.eqb c "-" && startsWith s "-" || includes s "--".
Proof.
  cbn [includes startsWith]. destruct s as [|c' s]; [done|].
  by rewrite startsWith_dash.
Qed.

Lemma endsWith_cons c s sub :
  endsWith (String c s) sub = String.eqb (String c s) sub || endsWith s sub.
Proof. done. Qed.

Lemma strip_lower_chars t :
  all_chars (λ c, is_slug_char c || is_separator c) (strip_symbols (toLowerCase t)) = true.
Proof.
  induction t as [|c t IH]; [done|]. cbn [toLowerCase strip_symbols].
  destruct (is_word (lower_char c) || is_space (lower_char c) || Ascii.eqb (lower_char c) "-")
    eqn:E; [|done].
  cbn [all_chars]. by rewrite lower_strip_char, IH.
Qed.

Lemma collapse_shape s : ∀ b,
  all_chars (λ c, is_slug_char c || is_separator c) s = true →
  all_chars is_slug_char (collapse_separators b s) = true ∧
  includes (collapse_separators b s) "--" = false ∧
  (b = true → startsWith (collapse_separators b s) "-" = false).
Proof.
  induction s as [|c s IH]; intros b H; [by destruct b|].
  cbn [all_chars] in H. apply andb_true_iff in H as [Hc H].
  cbn [collapse_separators]. destruct (is_separator c) eqn:Es.
  - destruct b; [by apply IH|].
    destruct (IH true H) as (IH1 & IH2 & IH3).
    cbn [all_chars]. rewrite IH1. split; [done|]. split; [|done].
    rewrite includes_dashes, IH2, IH3; done.
  - destruct (IH false H) as (IH1 & IH2 & _).
    pose proof (not_separator_not_dash c Es) as Ed.
    rewrite orb_false_r in Hc. cbn [all_chars]. rewrite IH1, Hc.
    split; [done|]. split.
    + by rewrite includes_dashes, Ed, IH2.
    + intros _. by rewrite startsWith_dash.
Qed.

Lemma includes_tail c s sub : includes (String c s) sub = false → includes s sub = false.
Proof. cbn [includes]. by intros [_ ?]%orb_false_iff. Qed.

Lemma drop_leading_shape s :
  all_chars is_slug_char s = true → includes s "--" = false →
  all_chars is_slug_char (drop_leading (is_char "-") s) = true ∧
  includes (drop_leading (is_char "-") s) "--" = false ∧
  startsWith (drop_leading (is_char "-") s) "-" = false.
Proof.
  induction s as [|c s IH]; intros H1 H2; [done|].
  cbn [drop_leading]; change (is_char "-" c) with (Ascii.eqb c "-"). destruct (Ascii.eqb c "-") eqn:Ed.
  - cbn [all_chars] in H1. apply andb_true_iff in H1 as [_ H1].
    apply IH; [done|by eapply includes_tail].
  - by rewrite startsWith_dash.
Qed.

Lemma drop_trailing_prefix s : ∃ t, s = drop_trailing (is_char "-") s +:+ t.
Proof.
  induction s as [|c s [t IH]]; [by exists ""|].
  cbn [drop_trailing]; change (is_char "-" c) with (Ascii.eqb c "-"). destruct (drop_trailing (is_char "-") s) as [|c' r] eqn:E.
  - destruct (Ascii.eqb c "-"); [by exists (String c s)|].
    exists s. done.
  - exists t. by rewrite IH at 1.
Qed.

Lemma drop_trailing_shape s :
  all_chars is_slug_char s = true → includes s "--" = false → startsWith s "-" = false →
  all_chars is_slug_char (drop_trailing (is_char "-") s) = true ∧
  includes (drop_trailing (is_char "-") s) "--" = false ∧
  startsWith (drop_trailing (is_char "-") s) "-" = false ∧
  endsWith (drop_trailing (is_char "-") s) "-" = false.
Proof.
  intros H1 H2 H3. split; [|split; [|split]].
  - clear H2 H3. induction s as [|c s IH]; [done|].
    cbn [all_chars] in H1. apply andb_true_iff in H1 as [Hc H1]. specialize (IH H1).
    cbn [drop_trailing]; change (is_char "-" c) with (Ascii.eqb c "-"). destruct (drop_trailing (is_char "-") s) as [|c' r].
    + destruct (Ascii.eqb c "-"); [done|]. cbn [all_chars]. by rewrite Hc.
    + cbn [all_chars] in *. by rewrite Hc, IH.
  - destruct (includes (drop_trailing (is_char "-") s) "--") eqn:E; [|done].
    apply includes_spec in E as (pre & post & E).
    destruct (drop_trailing_prefix s) as [t Ht].
    assert (includes s "--" = true) as Hs; [|congruence].
    apply includes_spec. exists pre, (post +:+ t).
    rewrite Ht, E. by rewrite !append_assoc.
  - destruct s as [|c s]; [done|]. rewrite startsWith_dash in H3.
    cbn [drop_trailing]; change (is_char "-" c) with (Ascii.eqb c "-"). destruct (drop_trailing (is_char "-") s).
    + rewrite H3. by rewrite startsWith_dash.
    + by rewrite startsWith_dash.
  - clear. induction s as [|c s IH]; [done|].
    cbn [drop_trailing]; change (is_char "-" c) with (Ascii.eqb c "-"). destruct (drop_trailing (is_char "-") s) as [|c' r] eqn:E.
    + destruct (Ascii.eqb c "-") eqn:Ed; [done|].
      rewrite endsWith_cons. cbn [String.eqb]. rewrite Ed. done.
    + rewrite endsWith_cons, IH. cbn [String.eqb]. by destruct (Ascii.eqb c "-").
Qed.

Lemma well_formed_slugify text : well_formed (slugify text) = true.
Proof.
  unfold slugify, well_formed.
  destruct (collapse_shape _ false (strip_lower_chars text)) as (A1 & A2 & _).
  destruct (drop_leading_shape _ A1 A2) as (B1 & B2 & B3).
  destruct (drop_trailing_shape _ B1 B2 B3) as (-> & -> & -> & ->). done.
Qed.

Lemma toLowerCase_slug s : all_chars is_slug_char s = true → toLowerCase s = s.
Proof.
  induction s as [|c s IH]; [done|]. cbn [all_chars]. intros [Hc H]%andb_true_iff.
  cbn [toLowerCase]. rewrite IH by done. by destruct (slug_char_fixed c Hc) as (-> & _).
Qed.

Lemma strip_symbols_slug s : all_chars is_slug_char s = true → strip_symbols s = s.
Proof.
  induction s as [|c s IH]; [done|]. cbn [all_chars]. intros [Hc H]%andb_true_iff.
  cbn [strip_symbols]. rewrite IH by done. by destruct (slug_char_fixed c Hc) as (_ & -> & _).
Qed.

Lemma collapse_slug s : ∀ b,
  all_chars is_slug_char s = true → includes s "--" = false →
  (b = true → startsWith s "-" = false) →
  collapse_separators b s = s.
Proof.
  induction s as [|c s IH]; intros b H1 H2 H3; [done|].
  cbn [all_chars] in H1. apply andb_true_iff in H1 as [Hc H1].
  rewrite includes_dashes in H2. apply orb_false_iff in H2 as [H2 H2'].
  rewrite startsWith_dash in H3.
  destruct (slug_char_fixed c Hc) as (_ & _ & Es).
  cbn [collapse_separators]. rewrite Es. destruct (Ascii.eqb c "-") eqn:Ed.
  - destruct b; [by specialize (H3 eq_refl)|].
    apply Ascii.eqb_eq in Ed as ->. f_equal. apply IH; [done|done|]. intros _. exact H2.
  - f_equal. by apply IH.
Qed.

Lemma drop_leading_fixed s : startsWith s "-" = false → drop_leading (is_char "-") s = s.
Proof.
  destruct s as [|c s]; [done|]. rewrite startsWith_dash. cbn [drop_leading].
  change (is_char "-" c) with (Ascii.eqb c "-"). by intros ->.
Qed.

Lemma drop_trailing_fixed s : endsWith s "-" = false → drop_trailing (is_char "-") s = s.
Proof.
  induction s as [|c s IH]; [done|]. rewrite endsWith_cons.
  intros [H1 H2]%orb_false_iff. cbn [drop_trailing]; change (is_char "-" c) with (Ascii.eqb c "-"). rewrite IH by done.
  destruct s as [|c' s]; [|done]. cbn [String.eqb] in H1.
  destruct (Ascii.eqb c "-"); [done|done].
Qed.

Lemma slugify_fixed s : well_formed s = true → slugify s = s.
Proof.
  unfold well_formed. rewrite !andb_true_iff, !negb_true_iff.
  intros [[[H1 H2] H3] H4]. unfold slugify.
  rewrite toLowerCase_slug, strip_symbols_slug, collapse_slug by done.
  by rewrite drop_leading_fixed, drop_trailing_fixed.
Qed.

Lemma slugify_idem text : slugify (slugify text) = slugify text.
Proof. apply slugify_fixed, well_formed_slugify. Qed.

Lemma slugify_lower text : slugify (toLowerCase text) = slugify text.
Proof. unfold slugify. by rewrite toLowerCase_idem. Qed.

(** X21. A slug consists of lower-case letters, digits and dashes, has no
    dash at either end and no two dashes in a row. *)
Theorem slugify_well_formed (text : string) :
  all_chars is_slug_char (slugify text) = true ∧
  startsWith (slugify text) "-" = false ∧
  endsWith (slugify text) "-" = false ∧
  includes (slugify text) "--" = false.
Proof.
  pose proof (well_formed_slugify text) as H. unfold well_formed in H.
  rewrite !andb_true_iff, !negb_true_iff in H. by destruct H as [[[? ?] ?] ?].
Qed.

(** X22. [slugify] is idempotent and ignores the case of its argument,
    and it leaves every well-formed slug as it is. *)
Theorem slugify_idempotent (text : string) :
  slugify (slugify text) = slugify text ∧
  slugify (toLowerCase text) = slugify text ∧
  (∀ s, well_formed s = true → slugify s = s).
Proof.
  split; [apply slugify_idem|]. split; [apply slugify_lower|]. apply slugify_fixed.
Qed.

(** *** Inline markdown *)

Lemma cons_append c s t : String c s +:+ t = String c (s +:+ t).
Proof. done. Qed.

Lemma append_nil_r s : s +:+ "" = s.
Proof. induction s as [|c s IH]; [done|]. by rewrite cons_append, IH. Qed.

Lemma length_append s t : String.length (s +:+ t) = (String.length s + String.length t)%nat.
Proof. induction s as [|c s IH]; [done|]. rewrite cons_append. simpl. by rewrite IH. Qed.

Lemma startsWith_skip s : ∀ sub,
  startsWith s sub = true → s = sub +:+ skip (String.length sub) s.
Proof.
  induction s as [|a s IH]; intros [|b sub]; try done.
  cbn [startsWith]. intros [->%Ascii.eqb_eq H]%andb_true_iff.
  rewrite cons_append. cbn [String.length skip]. f_equal. by apply IH.
Qed.

Lemma lazy_until_spec delim s : ∀ r rest,
  lazy_until delim s = Some (r, rest) → s = r +:+ delim +:+ rest.
Proof.
  induction s as [|c s IH]; intros r rest.
  - cbn [lazy_until]. destruct (startsWith "" delim) eqn:E; [|done].
    intros [= <- <-]. by apply startsWith_skip.
  - cbn [lazy_until]. destruct (startsWith (String c s) delim) eqn:E.
    + intros [= <- <-]. by apply startsWith_skip.
    + destruct (is_line_terminator c); [done|].
      destruct (lazy_until delim s) as [[r' rest']|]; [|done].
      intros [= <- <-]. rewrite cons_append. f_equal. by apply IH.
Qed.

Lemma code_run_spec s : ∀ r rest,
  code_run s = Some (r, rest) → s = r +:+ "`" +:+ rest.
Proof.
  induction s as [|c s IH]; intros r rest; [done|].
  cbn [code_run]. destruct (Ascii.eqb c "`") eqn:E.
  - apply Ascii.eqb_eq in E as ->. by intros [= <- <-].
  - destruct (code_run s) as [[r' rest']|]; [|done].
    intros [= <- <-]. rewrite cons_append. f_equal. by apply IH.
Qed.

Lemma match_at_spec s m rest :
  match_at s = Some (m, rest) → s = m +:+ rest ∧ (1 ≤ String.length m)%nat.
Proof.
  destruct s as [|c s1]; [done|]. cbn [match_at].
  destruct (Ascii.eqb c "*") eqn:E1.
  - apply Ascii.eqb_eq in E1 as ->.
    assert (∀ r rest', lazy_until "*" s1 = Some (r, rest') →
              Some ("*" +:+ r +:+ "*", rest') = Some (m, rest) →
              String "*" s1 = m +:+ rest ∧ (1 ≤ String.length m)%nat) as Halt2.
    { intros r rest' Hl [= <- <-]. apply lazy_until_spec in Hl as ->.
      split; [|simpl; lia]. by rewrite !append_assoc. }
    destruct s1 as [|c2 s2].
    { destruct (lazy_until "*" "") as [[r rest']|] eqn:El; [|done]. by apply Halt2. }
    destruct (Ascii.eqb c2 "*") eqn:E2.
    + apply Ascii.eqb_eq in E2 as ->.
      destruct (lazy_until "**" s2) as [[r rest']|] eqn:El.
      * intros [= <- <-]. apply lazy_until_spec in El as ->.
        split; [|simpl; lia]. by rewrite !append_assoc.
      * destruct (lazy_until "*" (String "*" s2)) as [[r rest']|] eqn:El2; [|done].
        by apply Halt2.
    + destruct (lazy_until "*" (String c2 s2)) as [[r rest']|] eqn:El2; [|done].
      by apply Halt2.
  - destruct (Ascii.eqb c "`") eqn:E2; [|done]. apply Ascii.eqb_eq in E2 as ->.
    destruct (code_run s1) as [[[|c' r] rest']|] eqn:Ec; [done| |done].
    intros [= <- <-]. apply code_run_spec in Ec as ->.
    split; [|simpl; lia]. by rewrite !append_assoc.
Qed.

Lemma split_from_inside p : ∀ cur rest,
  split_from (String.length p) cur (p +:+ rest) = split_from 0 cur rest.
Proof.
  induction p as [|c p IH]; intros cur rest; [by destruct rest|].
  rewrite cons_append. cbn [String.length split_from]. apply IH.
Qed.

Lemma join_split_from (n : nat) : ∀ s cur,
  (String.length s ≤ n)%nat → join (split_from 0 cur s) = cur +:+ s.
Proof.
  induction n as [|n IH]; intros s cur Hn.
  { destruct s; [|simpl in Hn; lia]. cbn. by rewrite !append_nil_r. }
  destruct s as [|c s]; [cbn; by rewrite !append_nil_r|].
  cbn [split_from]. destruct (match_at (String c s)) as [[m rest]|] eqn:Em.
  - apply match_at_spec in Em as [E Hm].
    destruct m as [|c' m]; [simpl in Hm; lia|].
    rewrite cons_append in E. injection E as <- ->.
    replace (String.length (String c m) - 1)%nat with (String.length m) by (simpl; lia).
    rewrite split_from_inside.
    cbn [join foldr]. fold (join (split_from 0 "" rest)). rewrite IH.
    + by rewrite cons_append.
    + cbn [String.length] in Hn. rewrite length_append in Hn. lia.
  - rewrite IH by (simpl in Hn; lia). by rewrite append_assoc.
Qed.

Lemma join_split_inline text : join (split_inline text) = text.
Proof. apply (join_split_from (String.length text)). done. Qed.

Lemma split_from_plain s : ∀ cur,
  all_chars no_marker s = true → split_from 0 cur s = [cur +:+ s].
Proof.
  induction s as [|c s IH]; intros cur H; [by rewrite append_nil_r|].
  cbn [all_chars] in H. apply andb_true_iff in H as [Hc H].
  unfold no_marker in Hc. apply andb_true_iff in Hc as [H1%negb_true_iff H2%negb_true_iff].
  cbn [split_from match_at]. rewrite H1, H2. rewrite IH by done. by rewrite append_assoc.
Qed.

Lemma inline_of_plain s : all_chars no_marker s = true → inline_of s = Plain s.
Proof.
  destruct s as [|c s]; [done|]. cbn [all_chars]. intros [Hc _]%andb_true_iff.
  unfold no_marker in Hc. apply andb_true_iff in Hc as [H1%negb_true_iff H2%negb_true_iff].
  unfold inline_of. cbn [startsWith]. by rewrite H1, H2.
Qed.

Lemma renderInline_plain s : all_chars no_marker s = true → renderInline s = [Plain s].
Proof.
  intros H. unfold renderInline, split_inline. rewrite split_from_plain by done.
  cbn. by rewrite inline_of_plain.
Qed.

(** X23. The parts [renderInline] splits a text into make up the text
    again, in order; a text without [*] and without a backquote is one
    plain part. *)
Theorem inline_split_keeps_text (text : string) :
  join (split_inline text) = text ∧
  (all_chars no_marker text = true → renderInline text = [Plain text]).
Proof. split; [apply join_split_inline|apply renderInline_plain]. Qed.

Lemma split_from_plain_prefix pre : ∀ cur s,
  all_chars no_marker pre = true →
  split_from 0 cur (pre +:+ s) = split_from 0 (cur +:+ pre) s.
Proof.
  induction pre as [|c pre IH]; intros cur s H; [by rewrite append_nil_r|].
  cbn [all_chars] in H. apply andb_true_iff in H as [Hc H].
  unfold no_marker in Hc. apply andb_true_iff in Hc as [H1%negb_true_iff H2%negb_true_iff].
  rewrite cons_append. cbn [split_from match_at]. rewrite H1, H2.
  rewrite IH by done. by rewrite append_assoc.
Qed.

Lemma skip_append a s : skip (String.length a) (a +:+ s) = s.
Proof. induction a as [|c a IH]; [by destruct s|]. by rewrite cons_append. Qed.

Lemma startsWith_append a s : startsWith (a +:+ s) a = true.
Proof. apply startsWith_spec. by exists s. Qed.

Lemma lazy_until_span (delim : string) x : ∀ post,
  startsWith delim "*" = true →
  all_chars span_char x = true →
  lazy_until delim (x +:+ delim +:+ post) = Some (x, post).
Proof.
  intros post Hd. induction x as [|c x IH]; intros H.
  - change ("" +:+ delim +:+ post) with (delim +:+ post).
    destruct (delim +:+ post) eqn:E;
      cbn [lazy_until]; rewrite <-E, startsWith_append, skip_append; done.
  - cbn [all_chars] in H. apply andb_true_iff in H as [Hc H].
    unfold span_char, no_marker in Hc.
    apply andb_true_iff in Hc as [[H1%negb_true_iff _]%andb_true_iff H3%negb_true_iff].
    rewrite cons_append. cbn [lazy_until].
    assert (startsWith (String c (x +:+ delim +:+ post)) delim = false) as ->.
    { destruct delim as [|d delim]; [done|]. cbn [startsWith] in *.
      apply andb_true_iff in Hd as [Hd%Ascii.eqb_eq _]. subst d. by rewrite H1. }
    by rewrite H3, IH.
Qed.

Lemma code_run_span x : ∀ post,
  all_chars span_char x = true → code_run (x +:+ "`" +:+ post) = Some (x, post).
Proof.
  intros post. induction x as [|c x IH]; intros H; [done|].
  cbn [all_chars] in H. apply andb_true_iff in H as [Hc H].
  unfold span_char, no_marker in Hc.
  apply andb_true_iff in Hc as [[_ H2%negb_true_iff]%andb_true_iff _].
  rewrite cons_append. cbn [code_run]. by rewrite H2, IH.
Qed.

Lemma split_at_match pre m post :
  all_chars no_marker pre = true →
  match_at (m +:+ post) = Some (m, post) →
  split_inline (pre +:+ m +:+ post) = pre :: m :: split_inline post.
Proof.
  intros Hpre Hm. unfold split_inline. rewrite split_from_plain_prefix by done.
  change ("" +:+ pre) with pre.
  pose proof (match_at_spec _ _ _ Hm) as [_ Hlen].
  destruct m as [|c m]; [simpl in Hlen; lia|].
  rewrite cons_append in *. cbn [split_from]. rewrite Hm.
  replace (String.length (String c m) - 1)%nat with (String.length m) by (simpl; lia).
  by rewrite split_from_inside.
Qed.

Lemma endsWith_append a b : endsWith (a +:+ b) b = true.
Proof.
  induction a as [|c a IH].
  - change ("" +:+ b) with b. destruct b; cbn [endsWith]; by rewrite String.eqb_refl.
  - rewrite cons_append, endsWith_cons, IH. apply orb_true_r.
Qed.

Lemma substring_prefix x : ∀ s, String.substring 0 (String.length x) (x +:+ s) = x.
Proof.
  induction x as [|c x IH]; intros s; [by destruct s|].
  rewrite cons_append. cbn [String.length String.substring]. by rewrite IH.
Qed.

Lemma substring_skip a : ∀ n s,
  String.substring (String.length a) n (a +:+ s) = String.substring 0 n s.
Proof.
  induction a as [|c a IH]; intros n s; [done|].
  rewrite cons_append. cbn [String.length String.substring]. apply IH.
Qed.

Lemma slice_middle (n : nat) (a x b : string) :
  String.length a = n → String.length b = n → slice n n (a +:+ x +:+ b) = x.
Proof.
  intros Ha Hb. unfold slice. rewrite !length_append, Ha, Hb.
  replace (n + (String.length x + n) - n - n)%nat with (String.length x) by lia.
  rewrite <-Ha, substring_skip. apply substring_prefix.
Qed.

Lemma span_first x c x' :
  x = String c x' → all_chars span_char x = true →
  Ascii.eqb c "*" = false ∧ Ascii.eqb c "`" = false.
Proof.
  intros -> H. cbn [all_chars] in H. apply andb_true_iff in H as [Hc _].
  unfold span_char, no_marker in Hc.
  by apply andb_true_iff in Hc as [[?%negb_true_iff ?%negb_true_iff]%andb_true_iff _].
Qed.

Lemma match_at_bold x post :
  all_chars span_char x = true →
  match_at ("**" +:+ x +:+ "**" +:+ post) = Some ("**" +:+ x +:+ "**", post).
Proof.
  intros Hx. change ("**" +:+ x +:+ "**" +:+ post)
    with (String "*" (String "*" (x +:+ "**" +:+ post))).
  unfold match_at. rewrite !Ascii.eqb_refl. by rewrite (lazy_until_span "**" x post).
Qed.

Lemma match_at_em c x' post :
  all_chars span_char (String c x') = true →
  match_at ("*" +:+ String c x' +:+ "*" +:+ post) = Some ("*" +:+ String c x' +:+ "*", post).
Proof.
  intros Hx. destruct (span_first _ c x' eq_refl Hx) as [Hc1 Hc2].
  change ("*" +:+ String c x' +:+ "*" +:+ post)
    with (String "*" (String c (x' +:+ "*" +:+ post))).
  unfold match_at. rewrite Ascii.eqb_refl, Hc1.
  change (String c (x' +:+ "*" +:+ post)) with (String c x' +:+ "*" +:+ post).
  by rewrite (lazy_until_span "*" (String c x') post).
Qed.

Lemma match_at_code c x' post :
  all_chars span_char (String c x') = true →
  match_at ("`" +:+ String c x' +:+ "`" +:+ post) = Some ("`" +:+ String c x' +:+ "`", post).
Proof.
  intros Hx.
  change ("`" +:+ String c x' +:+ "`" +:+ post)
    with (String "`" (String c x' +:+ "`" +:+ post)).
  unfold match_at. rewrite Ascii.eqb_refl.
  change (Ascii.eqb "`" "*") with false. cbn iota.
  by rewrite (code_run_span (String c x') post).
Qed.

(** X24. A span [**x**], [*x*] or [`x`] whose content [x] is not empty
    and has no marker and no line terminator, after a text without
    markers, is rendered as that text, then [x] in bold, in italics or as
    code, then the rendering of the rest. *)
Theorem inline_spans_rendered (pre x post : string) :
  all_chars no_marker pre = true → all_chars span_char x = true → x ≠ "" →
  renderInline (pre +:+ "**" +:+ x +:+ "**" +:+ post)
    = Plain pre :: Strong x :: renderInline post ∧
  renderInline (pre +:+ "*" +:+ x +:+ "*" +:+ post)
    = Plain pre :: Em x :: renderInline post ∧
  renderInline (pre +:+ "`" +:+ x +:+ "`" +:+ post)
    = Plain pre :: Code x :: renderInline post.
Proof.
  intros Hpre Hx Hne. destruct x as [|c x']; [done|].
  destruct (span_first _ c x' eq_refl Hx) as [Hc1 Hc2].
  set (x := String c x') in *.
  assert (∀ d, d +:+ x +:+ d +:+ post = (d +:+ x +:+ d) +:+ post) as Hassoc.
  { intros d. by rewrite !append_assoc. }
  unfold renderInline. split; [|split]; rewrite Hassoc.
  - rewrite split_at_match; [|done|by rewrite <-Hassoc; apply match_at_bold].
    cbn [fmap list_fmap]. rewrite inline_of_plain by done. f_equal. f_equal.
    unfold inline_of. rewrite (startsWith_append "**" (x +:+ "**")).
    rewrite <-(append_assoc "**" x "**"), (endsWith_append ("**" +:+ x) "**").
    cbn [andb]. f_equal. rewrite append_assoc. by apply slice_middle.
  - rewrite split_at_match; [|done|by rewrite <-Hassoc; apply match_at_em].
    cbn [fmap list_fmap]. rewrite inline_of_plain by done. f_equal. f_equal.
    unfold inline_of.
    assert (startsWith ("*" +:+ x +:+ "*") "**" = false) as ->.
    { change ("*" +:+ x +:+ "*") with (String "*" (String c (x' +:+ "*"))).
      cbn [startsWith]. by rewrite Hc1, andb_false_r. }
    rewrite (startsWith_append "*" (x +:+ "*")).
    rewrite <-(append_assoc "*" x "*"), (endsWith_append ("*" +:+ x) "*").
    cbn [andb]. f_equal. rewrite append_assoc. by apply slice_middle.
  - rewrite split_at_match; [|done|by rewrite <-Hassoc; apply match_at_code].
    cbn [fmap list_fmap]. rewrite inline_of_plain by done. f_equal. f_equal.
    unfold inline_of.
    assert (startsWith ("`" +:+ x +:+ "`") "**" = false) as -> by done.
    assert (startsWith ("`" +:+ x +:+ "`") "*" = false) as -> by done.
    rewrite (startsWith_append "`" (x +:+ "`")).
    rewrite <-(append_assoc "`" x "`"), (endsWith_append ("`" +:+ x) "`").
    cbn [andb]. f_equal. rewrite append_assoc. by apply slice_middle.
Qed.

Lemma inline_spans_rendered_witness :
  renderInline "see **force** and mass" = [Plain "see "; Strong "force"; Plain " and mass"] ∧
  renderInline "see *force* and mass" = [Plain "see "; Em "force"; Plain " and mass"] ∧
  renderInline "see `force` and mass" = [Plain "see "; Code "force"; Plain " and mass"].
Proof.
  apply (inline_spans_rendered "see " "force" " and mass");
    [reflexivity|reflexivity|discriminate].
Defined.

(** *** Blocks *)

Lemma key_block_of i line : key (block_of i line) = i.
Proof.
  unfold block_of.
  destruct (startsWith line "###"); [done|].
  destruct (startsWith line "#" || startsWith line "##"); [done|].
  destruct (startsWith line ">"); [done|].
  destruct (is_bullet line); [done|].
  by destruct (ordered_match line) as [[??]|].
Qed.

Lemma key_blocks_from lines : ∀ i,
  key <$> blocks_from i lines
  = MindMapGraph.positions (λ l, negb (falsy (trim l))) i lines.
Proof.
  induction lines as [|l lines IH]; intros i; [done|].
  cbn [blocks_from MindMapGraph.positions].
  destruct (falsy (trim l)); cbn [negb]; [apply IH|].
  cbn [fmap list_fmap]. by rewrite key_block_of, <-IH.
Qed.

Lemma positions_NoDup {A} (sel : A → bool) (l : list A) : ∀ i,
  NoDup (MindMapGraph.positions sel i l).
Proof.
  induction l as [|a l IH]; intros i; cbn [MindMapGraph.positions]; [constructor|].
  destruct (sel a); [|apply IH]. apply list.NoDup_cons. split; [|apply IH].
  intros (e & Hle & _)%elem_of_positions. lia.
Qed.

(** X25. [ContentRenderer] gives one element for each line that is not
    blank, in order, keyed by the index of the line: the keys are
    pairwise distinct. *)
Theorem one_block_per_nonblank_line (content : string) :
  key <$> ContentRenderer content
  = MindMapGraph.positions (λ l, negb (falsy (trim l))) 0 (split_lines content) ∧
  NoDup (key <$> ContentRenderer content).
Proof.
  unfold ContentRenderer. rewrite key_blocks_from. split; [done|apply positions_NoDup].
Qed.

(** *** The click on a mind-map node *)

Lemma card_ids ts : card_id <$> cards ts = topic_id <$> ts.
Proof.
  unfold cards. apply list_eq; intros i.
  rewrite !list_lookup_fmap, list_lookup_imap. by destruct (ts !! i).
Qed.

Lemma getElementById_first doc id c :
  App.getElementById doc id = Some c ↔
  ∃ i, doc !! i = Some c ∧ card_id c = id ∧
       ∀ j c', (j < i)%nat → doc !! j = Some c' → card_id c' ≠ id.
Proof.
  induction doc as [|c0 doc IH]; cbn [App.getElementById].
  - split; [done|]. by intros (i & ? & _).
  - destruct (String.eqb (card_id c0) id) eqn:E.
    + apply String.eqb_eq in E. split.
      * intros [= <-]. exists 0%nat. split; [done|]. split; [done|]. intros; lia.
      * intros ([|i] & Hi & Hc & Hfirst).
        -- by injection Hi as ->.
        -- by destruct (Hfirst 0%nat c0 ltac:(lia) eq_refl).
    + apply String.eqb_neq in E. rewrite IH. split.
      * intros (i & Hi & Hc & Hfirst). exists (S i). split; [done|]. split; [done|].
        intros [|j] c' Hj Hc'; [by injection Hc' as <-|].
        apply (Hfirst j); [lia|done].
      * intros ([|i] & Hi & Hc & Hfirst).
        -- injection Hi as ->. done.
        -- exists i. split; [done|]. split; [done|].
           intros j c' Hj Hc'. apply (Hfirst (S j)); [lia|done].
Qed.

Lemma getElementById_None doc id :
  App.getElementById doc id = None ↔ id ∉ card_id <$> doc.
Proof.
  induction doc as [|c0 doc IH]; cbn [App.getElementById fmap list_fmap].
  - split; [intros _; apply not_elem_of_nil|done].
  - rewrite not_elem_of_cons. destruct (String.eqb (card_id c0) id) eqn:E.
    + apply String.eqb_eq in E. split; [done|]. by intros [? _].
    + apply String.eqb_neq in E. rewrite IH. split; [done|by intros [_ ?]].
Qed.

Lemma find_first {A} (f : A → bool) (l : list A) (x : A) :
  find f l = Some x ↔
  ∃ i, l !! i = Some x ∧ f x = true ∧
       ∀ j y, (j < i)%nat → l !! j = Some y → f y = false.
Proof.
  induction l as [|a l IH]; cbn [find].
  - split; [done|]. by intros (i & ? & _).
  - destruct (f a) eqn:E.
    + split.
      * intros [= <-]. exists 0%nat. split; [done|]. split; [done|]. intros; lia.
      * intros ([|i] & Hi & Hx & Hfirst).
        -- by injection Hi as ->.
        -- specialize (Hfirst 0%nat a ltac:(lia) eq_refl). congruence.
    + rewrite IH. split.
      * intros (i & Hi & Hx & Hfirst). exists (S i). split; [done|]. split; [done|].
        intros [|j] y Hj Hy; [by injection Hy as <-|].
        apply (Hfirst j); [lia|done].
      * intros ([|i] & Hi & Hx & Hfirst).
        -- injection Hi as ->. congruence.
        -- exists i. split; [done|]. split; [done|].
           intros j y Hj Hy. apply (Hfirst (S j)); [lia|done].
Qed.

Lemma includes_empty s : includes s "" = true.
Proof. apply includes_spec. by exists "", s. Qed.

(** X26. With the study guide of the same result in the document, the
    click on a mind-map node finds the card it looks up whenever a topic
    matches the name of the node, and that card belongs to a topic with
    the slug of the matching topic; when no topic matches nothing is
    looked up.  A node with the empty name goes to the first card. *)
Theorem node_click_reaches_a_card (r : StudyResponse) (nodeName : string) :
  let target := (App.handleNodeClick (cards (topics r)) (Some r) nodeName).2 in
  match find (App.fuzzy_match nodeName) (topics r) with
  | Some t =>
      ∃ i t', target = cards (topics r) !! i ∧ topics r !! i = Some t' ∧
              slugify (title t') = slugify (title t)
  | None => target = None
  end ∧
  (nodeName = "" → target = cards (topics r) !! 0%nat).
Proof.
  cbn [App.handleNodeClick snd]. split.
  - destruct (find _ _) as [t|] eqn:Hf; [|done].
    apply find_first in Hf as (k & Hk & _).
    destruct (App.getElementById (cards (topics r)) ("topic-" +:+ slugify (title t)))
      as [c|] eqn:Hg.
    + apply getElementById_first in Hg as (i & Hi & Hc & _).
      pose proof Hi as Hi'. unfold cards in Hi'. rewrite list_lookup_imap in Hi'.
      destruct (topics r !! i) as [t'|] eqn:Ht; [|done]. injection Hi' as <-.
      exists i, t'. split; [done|]. split; [done|].
      cbn [card_id] in Hc. unfold topic_id in Hc. by apply (inj (String.append "topic-")) in Hc.
    + exfalso. apply getElementById_None in Hg. apply Hg. rewrite card_ids.
      apply list_elem_of_fmap. exists t. split; [done|]. by eapply list_elem_of_lookup_2.
  - intros ->. destruct (topics r) as [|t ts]; [done|].
    cbn [find]. unfold App.fuzzy_match at 1. cbn [toLowerCase]. rewrite includes_empty.
    cbn [orb cards imap App.getElementById card_id]. unfold topic_id.
    by rewrite String.eqb_refl.
Qed.

(** X27. When the ids of the topic cards are pairwise distinct, the click
    on a node scrolls to the card of the first topic whose title contains
    the name of the node or is contained in it, case ignored. *)
Theorem node_click_scrolls_to_first_match
    (r : StudyResponse) (nodeName : string) (i : nat) (t : StudyTopic) :
  NoDup (topic_id <$> topics r) →
  topics r !! i = Some t → App.fuzzy_match nodeName t = true →
  (∀ j t', (j < i)%nat → topics r !! j = Some t' → App.fuzzy_match nodeName t' = false) →
  (App.handleNodeClick (cards (topics r)) (Some r) nodeName).2
  = Some (mkCard (topic_id t) (i + 1) (title t) (estimatedTime t)
                 (ContentRenderer (content t)) (keyConcepts t)).
Proof.
  intros Hnd Hi Hm Hfirst. cbn [App.handleNodeClick snd].
  assert (find (App.fuzzy_match nodeName) (topics r) = Some t) as ->.
  { apply find_first. eauto. }
  apply getElementById_first. exists i. split; [|split].
  - unfold cards. by rewrite list_lookup_imap, Hi.
  - done.
  - intros j c' Hj Hc' Hid. unfold cards in Hc'. rewrite list_lookup_imap in Hc'.
    destruct (topics r !! j) as [t'|] eqn:Ht'; [|done]. injection Hc' as <-.
    cbn [card_id] in Hid.
    assert (j = i); [|lia].
    eapply (NoDup_lookup _ _ _ _ Hnd); rewrite list_lookup_fmap.
    + by rewrite Ht'.
    + rewrite Hi. cbn. by rewrite Hid.
Qed.

Lemma node_click_scrolls_to_first_match_witness :
  (App.handleNodeClick (cards (topics sample_response)) (Some sample_response) "Optics").2
  = Some (mkCard "topic-optics-waves" 2 "Optics & Waves" "1 hour"
                 [Bullet 0 [Plain "light"]] ["ray"]).
Proof.
  apply (node_click_scrolls_to_first_match sample_response "Optics" 1
           (mkStudyTopic "Optics & Waves" "- light" ["ray"] "1 hour")).
  - apply (bool_decide_unpack _). vm_compute. exact I.
  - reflexivity.
  - reflexivity.
  - intros [|j] t' Hj Ht'; [|lia]. injection Ht' as <-. reflexivity.
Defined.

(** ** The screens of the app *)

Import App AppScreens.

Lemma screen_step s ev : screen_has_content s → screen_has_content (step s ev).
Proof.
  intros [H1 H2].
  assert (∀ s' : State, appState s' = appState s → result s' = result s →
                        errorMsg s' = errorMsg s → screen_has_content s') as Hsame.
  { intros s' Ea Er Ee. unfold screen_has_content. by rewrite Ea, Er, Ee. }
  destruct ev; cbn [step]; try (by apply Hsame).
  - unfold handleAnalyzeSyllabus.
    destruct (falsy (programName s) || _); cbn [fst]; split; simpl; try done.
    intros _. by eexists.
  - split; simpl; done.
  - split; simpl; [done|]. intros _. by eexists.
  - unfold handleGenerateContent.
    destruct (syllabusInput s), (configuringSubject s); cbn [fst]; try (by apply Hsame).
    split; simpl; done.
  - split; simpl; [intros _; by eexists|done].
  - split; simpl; [done|]. intros _. by eexists.
  - unfold handleBack. destruct (appState s) eqn:E; try (by apply Hsame);
      try (split; simpl; done).
    destruct (detectedSubjects s); split; simpl; done.
  - split; simpl; done.
Qed.

(** X28. After any sequence of handler calls and request completions, the
    [success] screen has a result to show and the [error] screen a message
    that is not empty. *)
Theorem screens_have_content (evs : list Event) :
  let s := run initial evs in
  (appState s = success → is_Some (result s)) ∧
  (appState s = error → ∃ m, errorMsg s = Some m ∧ falsy m = false).
Proof.
  cbn zeta. change (screen_has_content (run initial evs)).
  assert (screen_has_content initial) as H0 by (split; done).
  revert H0. generalize initial. induction evs as [|ev evs IH]; intros s H; [done|].
  apply IH. by apply screen_step.
Qed.
